(** * ExactCoverQuantumSolver: the circuit builder and the resource estimator

    A shallow embedding of [src/sudoku_nisq/exact_cover_solver.py].

    - [Py]: the Python fragment the solver rests on: exceptions, [list.index],
      [str] of an integer, and the double-precision arithmetic of the
      iteration count ([int / int], [math.sqrt], [math.floor], [math.pi]).
    - [Pytket]: qubits, commands and circuits as the solver uses them.
    - [Basis]: the action of X and CnX circuits on computational-basis states.
    - [Mpmath]: the interface of the arbitrary-precision library, whose global
      context the estimator writes.
    - [ExactCover]: the solver itself, method by method.
    - [Scenario]: the concrete instances the statements are evaluated on.

    The definitions come first; then the notions the statements are written
    in, the lemmas on the builder, on the semantics of its circuits and on the
    estimator, and last the statement settled for each claim. *)

From Stdlib Require Import ZArith List Bool Lia String Ascii Arith PeanoNat.
From Stdlib Require Import DecimalString DecimalNat.
From Stdlib Require Import SpecFloat.
From Stdlib Require Import Orders OrdersEx Sorting.Mergesort Sorting.Permutation Sorted.
From Stdlib Require Import Reals Lra.
Import ListNotations.

Set Implicit Arguments.

(* ================================================================= *)
(** ** Python *)

Module Py.

(** The exceptions the solver and the libraries under it raise, with the
    message each carries. *)
Inductive exn : Type :=
| ValueError (msg : string)
| ZeroDivisionError (msg : string)
| OverflowError (msg : string)
| AttributeError (msg : string)
| IndexError (msg : string)
| RuntimeError (msg : string).

(** A computation that returns or raises. *)
Definition result (A : Type) : Type := (exn + A)%type.

Definition ret {A : Type} (a : A) : result A := inr a.

Definition raise {A : Type} (e : exn) : result A := inl e.

Definition bind {A B : Type} (c : result A) (k : A -> result B) : result B :=
  match c with
  | inl e => inl e
  | inr a => k a
  end.

(** [for x in l: acc = body(acc, x)], stopping at the first exception. *)
Fixpoint for_each {A S : Type} (l : list A) (body : S -> A -> result S) (acc : S)
  : result S :=
  match l with
  | [] => ret acc
  | x :: l' => bind (body acc x) (for_each l' body)
  end.

(** [str(i)] for a non-negative integer: its decimal digits. *)
Definition str (i : nat) : string := NilEmpty.string_of_uint (Nat.to_uint i).

(** *** Floats: IEEE 754 binary64, by the bit-level specification *)

Definition float : Type := spec_float.

Definition prec : Z := 53.

Definition emax : Z := 1024.

(** [float(z)] for the integer constants of the source; exact for [|z| < 2^53]. *)
Definition float_of_Z (z : Z) : float := binary_normalize prec emax z 0 false.

(** [math.pi]: 0x1.921fb54442d18p+1. *)
Definition math_pi : float := S754_finite false 7074237752028440 (-51).

Definition float_mul (x y : float) : float := SFmul prec emax x y.

Definition float_div (x y : float) : float := SFdiv prec emax x y.

Definition is_nan (x : float) : bool :=
  match x with
  | S754_nan => true
  | _ => false
  end.

(** [a / b] on two ints: the correctly rounded quotient; [b = 0] raises
    ZeroDivisionError and a quotient beyond the double range raises
    OverflowError. *)
Definition int_truediv (a b : Z) : result float :=
  if (b =? 0)%Z then raise (ZeroDivisionError "division by zero")
  else
    match a with
    | Z0 => ret (S754_zero (b <? 0)%Z)
    | _ =>
      let '(q, e, l) := SFdiv_core_binary prec emax (Z.abs a) 0 (Z.abs b) 0 in
      match binary_round_aux prec emax (xorb (a <? 0)%Z (b <? 0)%Z) q e l with
      | S754_infinity _ =>
        raise (OverflowError "integer division result too large for a float")
      | f => ret f
      end
    end.

(** [math.sqrt(x)]: a NaN result on a non-NaN argument is a domain error. *)
Definition math_sqrt (x : float) : result float :=
  let r := SFsqrt prec emax x in
  if is_nan r && negb (is_nan x) then raise (ValueError "math domain error")
  else ret r.

(** [math.floor(x)]: the largest integer not above [x], as a Python int. *)
Definition math_floor (x : float) : result Z :=
  match x with
  | S754_zero _ => ret 0%Z
  | S754_finite s m e =>
    let n := if s then Zneg m else Zpos m in
    ret (match e with
         | Zneg k => Z.div n (Z.pow_pos 2 k)
         | _ => (n * 2 ^ e)%Z
         end)
  | S754_infinity _ => raise (OverflowError "cannot convert float infinity to integer")
  | S754_nan => raise (ValueError "cannot convert float NaN to integer")
  end.

(** [math.ceil(math.log2(n))] for an int [n].  [math.log2] raises on [0]; for
    [n >= 1] the ceiling of the double-precision logarithm is the exact
    [ceil(log2 n)] for every length a list or dict can have (the two part only
    beyond [2^48]), and that exact value is what is modelled. *)
Definition ceil_log2 (n : nat) : result nat :=
  match n with
  | O => raise (ValueError "math domain error")
  | _ => ret (Z.to_nat (Z.log2_up (Z.of_nat n)))
  end.

End Py.

Declare Scope py_scope.
Delimit Scope py_scope with py.
Notation "x <- c ;; k" := (Py.bind c (fun x => k))
  (at level 61, c at next level, right associativity) : py_scope.
Notation "c ;;; k" := (Py.bind c (fun _ => k))
  (at level 61, right associativity) : py_scope.

Local Open Scope string_scope.
Local Open Scope nat_scope.
Local Open Scope list_scope.
Local Open Scope py_scope.

(* ================================================================= *)
(** ** pytket circuits *)

Module Pytket.

(** A unit identifier: a register name and an index vector.  [Qubit(name, i)]
    has index [[i]], [Qubit(name)] has the empty index. *)
Record UnitID : Type := mkUnit { reg_name : string; index : list nat }.

Definition Qubit : Type := UnitID.

Definition Bit : Type := UnitID.

Definition qubit (name : string) (i : nat) : Qubit := mkUnit name [i].

Definition qubit0 (name : string) : Qubit := mkUnit name [].

Definition bit (name : string) (i : nat) : Bit := mkUnit name [i].

Definition UnitID_eqb (p q : UnitID) : bool :=
  String.eqb (reg_name p) (reg_name q)
  && (if list_eq_dec Nat.eq_dec (index p) (index q) then true else false).

(** The order of unit identifiers: by register name, then by index vector,
    both lexicographic.  [Circuit.qubits] lists the qubits in this order. *)
Fixpoint index_leb (l1 l2 : list nat) : bool :=
  match l1, l2 with
  | [], _ => true
  | _ :: _, [] => false
  | x :: l1', y :: l2' =>
    if Nat.ltb x y then true else if Nat.ltb y x then false else index_leb l1' l2'
  end.

Module UnitOrder <: TotalLeBool.

Definition t : Type := UnitID.

Definition leb (p q : UnitID) : bool :=
  match String.compare (reg_name p) (reg_name q) with
  | Lt => true
  | Gt => false
  | Eq => index_leb (index p) (index q)
  end.

Lemma index_leb_total (l1 l2 : list nat) :
  index_leb l1 l2 = true \/ index_leb l2 l1 = true.
Proof.
  revert l2; induction l1 as [|x l1 IH]; intros [|y l2]; simpl; auto.
  destruct (Nat.ltb x y) eqn:Hxy; auto.
  destruct (Nat.ltb y x) eqn:Hyx; auto.
Qed.

Theorem leb_total (p q : UnitID) : leb p q = true \/ leb q p = true.
Proof.
  unfold leb. rewrite (String.compare_antisym (reg_name q) (reg_name p)).
  destruct (String.compare (reg_name p) (reg_name q)); simpl; auto.
  apply index_leb_total.
Qed.

End UnitOrder.

Module UnitSort := Sort UnitOrder.

(** The operations the solver emits. *)
Inductive OpType : Type := X | H | CnX | CnZ | Measure.

(** A command: an operation on qubit arguments (for CnX and CnZ the last one
    is the target) and, for a measurement, the classical bit written. *)
Record Command : Type := mkCommand {
  op : OpType;
  args : list Qubit;
  cargs : list Bit
}.

Definition gate (o : OpType) (qs : list Qubit) : Command := mkCommand o qs [].

(** A circuit: its qubits and bits in the order they were added, and its
    commands in the order they were appended. *)
Record Circuit : Type := mkCircuit {
  qubit_ids : list Qubit;
  bit_ids : list Bit;
  commands : list Command
}.

(** [Circuit()]. *)
Definition empty : Circuit := mkCircuit [] [] [].

(** [c.add_qubit(q)].  pytket rejects an identifier the circuit already has;
    the builder only adds fresh ones ([NoDup_all_qubits] below). *)
Definition add_qubit (q : Qubit) (c : Circuit) : Circuit :=
  mkCircuit (qubit_ids c ++ [q]) (bit_ids c) (commands c).

(** [c.add_gate(op, qs)]. *)
Definition add_gate (o : OpType) (qs : list Qubit) (c : Circuit) : Circuit :=
  mkCircuit (qubit_ids c) (bit_ids c) (commands c ++ [gate o qs]).

(** [c.X(q)], [c.H(q)]. *)
Definition add_X (q : Qubit) (c : Circuit) : Circuit := add_gate X [q] c.

Definition add_H (q : Qubit) (c : Circuit) : Circuit := add_gate H [q] c.

(** [c.Measure(q, b)]. *)
Definition add_Measure (q : Qubit) (b : Bit) (c : Circuit) : Circuit :=
  mkCircuit (qubit_ids c) (bit_ids c) (commands c ++ [mkCommand Measure [q] [b]]).

(** [c.add_c_register(name, n)]: the new bits, and the circuit holding them. *)
Definition add_c_register (name : string) (n : nat) (c : Circuit)
  : list Bit * Circuit :=
  let bits := map (bit name) (seq 0 n) in
  (bits, mkCircuit (qubit_ids c) (bit_ids c ++ bits) (commands c)).

Definition mem (q : UnitID) (l : list UnitID) : bool := existsb (UnitID_eqb q) l.

(** [c.append(other)]: the commands of [other] after those of [c], on the
    units of the same identifier; a unit [c] lacks is added. *)
Definition append (other c : Circuit) : Circuit :=
  mkCircuit
    (qubit_ids c ++ filter (fun q => negb (mem q (qubit_ids c))) (qubit_ids other))
    (bit_ids c ++ filter (fun q => negb (mem q (bit_ids c))) (bit_ids other))
    (commands c ++ commands other).

(** The adjoint of a command: X, H, CnX and CnZ are their own; a measurement
    has none. *)
Definition command_dagger (g : Command) : Py.result Command :=
  match op g with
  | Measure => Py.raise (Py.RuntimeError "cannot take the dagger of a measurement")
  | _ => Py.ret g
  end.

Fixpoint commands_dagger (gs : list Command) : Py.result (list Command) :=
  match gs with
  | [] => Py.ret []
  | g :: gs' =>
    rest <- commands_dagger gs' ;;
    g' <- command_dagger g ;;
    Py.ret (rest ++ [g'])
  end.

(** [c.dagger()]: the adjoint commands in reverse order, on the same units. *)
Definition dagger (c : Circuit) : Py.result Circuit :=
  gs <- commands_dagger (commands c) ;;
  Py.ret (mkCircuit (qubit_ids c) (bit_ids c) gs).

(** [c.qubits]: the circuit's qubits in identifier order. *)
Definition qubits (c : Circuit) : list Qubit := UnitSort.sort (qubit_ids c).

(** [c.n_qubits]. *)
Definition n_qubits (c : Circuit) : nat := List.length (qubit_ids c).

End Pytket.

(* ================================================================= *)
(** ** Computational-basis semantics of X and CnX circuits

    X and CnX permute the computational basis, so a circuit made of them acts
    on a basis state as a function on bit assignments.  A CnX whose target is
    the ancilla held in the |-> state multiplies the amplitude by -1 exactly
    on the basis states on which it toggles the ancilla bit: the phase flip of
    a basis state is the toggle of [anc] below. *)

Module Basis.
Import Pytket.

Definition state : Type := Qubit -> bool.

Definition flip (q : Qubit) (st : state) : state :=
  fun q' => if UnitID_eqb q' q then negb (st q') else st q'.

(** The target (last argument) and the controls of a CnX. *)
Definition target_controls (qs : list Qubit) : option (Qubit * list Qubit) :=
  match rev qs with
  | [] => None
  | t :: cs => Some (t, rev cs)
  end.

(** One command on a basis state; H, CnZ and Measure have no such action. *)
Definition apply (g : Command) (st : state) : option state :=
  match op g with
  | X =>
    match args g with
    | [q] => Some (flip q st)
    | _ => None
    end
  | CnX =>
    match target_controls (args g) with
    | Some (t, cs) => Some (if forallb st cs then flip t st else st)
    | None => None
    end
  | _ => None
  end.

Fixpoint run (gs : list Command) (st : state) : option state :=
  match gs with
  | [] => Some st
  | g :: gs' =>
    match apply g st with
    | Some st' => run gs' st'
    | None => None
    end
  end.

(** The value of a little-endian register [reg] in [st]. *)
Fixpoint value (st : state) (reg : list Qubit) : Z :=
  match reg with
  | [] => 0
  | q :: reg' => (Z.b2z (st q) + 2 * value st reg')%Z
  end.

End Basis.

(* ================================================================= *)
(** ** mpmath *)

Module Mpmath.

(** The global context [mpmath.mp]: the working precision in decimal digits. *)
Record context : Type := mkContext { dps : Z }.

(** The library as the estimator calls it.  [num] is the type of its numbers
    (mpf, and mpc where a logarithm leaves the reals); every operation rounds
    at the precision of the context it runs in; [to_int] is [int(x)], which
    raises on an infinity, a NaN or a complex number. *)
Record library : Type := mkLibrary {
  num : Type;
  of_int : Z -> num;
  pi : num;
  log : context -> num -> num;
  exp : context -> num -> num;
  floor : context -> num -> num;
  add : context -> num -> num -> num;
  sub : context -> num -> num -> num;
  mul : context -> num -> num -> num;
  div : context -> num -> num -> num;
  to_int : num -> Py.result Z
}.

(** A computation that reads and writes the global context and may raise. *)
Definition M (A : Type) : Type := context -> Py.result A * context.

Definition ret {A : Type} (a : A) : M A := fun g => (inr a, g).

Definition bind {A B : Type} (c : M A) (k : A -> M B) : M B :=
  fun g =>
    match c g with
    | (inl e, g') => (inl e, g')
    | (inr a, g') => k a g'
    end.

(** A Python-level computation inside: the context is not touched. *)
Definition lift {A : Type} (c : Py.result A) : M A := fun g => (c, g).

(** [mpmath.mp.dps = n]. *)
Definition set_dps (n : Z) : M unit := fun _ => (inr tt, mkContext n).

(** A library call at the current precision. *)
Definition call {A : Type} (f : context -> A) : M A := fun g => (inr (f g), g).

(** The library without rounding: exact real arithmetic, the limit of the
    50-digit results as the precision grows.  It stands for mpmath wherever
    mpmath returns finite real numbers, as it does from a positive
    [num_solutions] on. *)
Definition ideal : library :=
  mkLibrary IZR PI
            (fun _ => ln) (fun _ => Rtrigo_def.exp) (fun _ x => IZR (Zfloor x))
            (fun _ => Rplus) (fun _ => Rminus) (fun _ => Rmult) (fun _ => Rdiv)
            (fun x => Py.ret (if Rle_dec 0 x then Zfloor x else - Zfloor (- x))%Z).

End Mpmath.

Declare Scope mp_scope.
Delimit Scope mp_scope with mp.
Notation "x <- c ;; k" := (Mpmath.bind c (fun x => k))
  (at level 61, c at next level, right associativity) : mp_scope.
Notation "c ;;; k" := (Mpmath.bind c (fun _ => k))
  (at level 61, right associativity) : mp_scope.

(* ================================================================= *)
(** ** The solver *)

Module ExactCover.
Import Pytket.

Section Solver.

(** The elements of the universe, with the equality [list.index] tests. *)
Variable E : Type.
Variable E_eq_dec : forall x y : E, {x = y} + {x <> y}.

(** The subset identifiers (the keys of the subsets dict). *)
Variable K : Type.

(** The puzzle, its attribute [num_solutions], and the encoding provider
    [ExactCoverEncoding(puzzle)] with its three attributes.  A dict is the list
    of its items in iteration order; iterating the keys and indexing the dict
    by each visits the values in that order. *)
Variable Puzzle : Type.
Variable puzzle_num_solutions : Puzzle -> Z.

Record Encoding : Type := mkEncoding {
  enc_universe : list E;
  simple_subsets : list (K * list E);
  pattern_subsets : list (K * list E)
}.

Variable ExactCoverEncoding : Puzzle -> Encoding.

(** [QuantumSolver.__init__(puzzle, metadata_manager, encoding, **kwargs)],
    the base-class initialiser, by the one effect the solver can observe: the
    attribute [num_solutions] it leaves on the object, [None] when it sets
    none.  The solver's own [num_solutions] argument is a named parameter and
    is not among the arguments passed on. *)
Variable QuantumSolver_init : Puzzle -> string -> option Z.

(** The object after [__init__]; [num_solutions] is [None] while the
    attribute does not exist. *)
Record Solver : Type := mkSolver {
  universe : list E;
  subsets : list (K * list E);
  num_solutions : option Z;
  u_size : nat;
  s_size : nat;
  b : nat
}.

Definition __init__ (puzzle : Puzzle) (encoding : string) (num_solutions : option Z)
  : Py.result Solver :=
  let attr := QuantumSolver_init puzzle encoding in
  let enc := ExactCoverEncoding puzzle in
  let universe := enc_universe enc in
  subsets <- (if String.eqb encoding "simple" then Py.ret (simple_subsets enc)
              else if String.eqb encoding "pattern" then Py.ret (pattern_subsets enc)
              else Py.raise (Py.ValueError
                               ("Unknown encoding '" ++ encoding ++ "'")%string)) ;;
  let attr :=
    match num_solutions with
    | None => Some (puzzle_num_solutions puzzle)
    | Some _ => attr
    end in
  let u_size := List.length universe in
  let s_size := List.length subsets in
  b <- Py.ceil_log2 s_size ;;
  Py.ret (mkSolver universe subsets attr u_size s_size b).

(** Reading [self.num_solutions]. *)
Definition get_num_solutions (self : Solver) : Py.result Z :=
  match num_solutions self with
  | Some n => Py.ret n
  | None => Py.raise (Py.AttributeError "num_solutions")
  end.

(** *** resource_estimation *)

(** The dict the estimator returns. *)
Record Estimate : Type := mkEstimate {
  est_n_qubits : Z;
  est_MCX_gates : Z;
  est_n_gates : Z;
  est_depth : option Z
}.

(** The loop [for s in self.subsets: counter_gates += len(self.subsets[s]) * self.b]. *)
Definition counter_gates (self : Solver) : Z :=
  fold_left (fun acc s => (acc + Z.of_nat (List.length (snd s)) * Z.of_nat (b self))%Z)
            (subsets self) 0%Z.

(** [oracle_gates = 1 + 2 * ((self.u_size - 1) * self.b)]. *)
Definition oracle_gates (self : Solver) : Z :=
  (1 + 2 * ((Z.of_nat (u_size self) - 1) * Z.of_nat (b self)))%Z.

Section Estimator.

Variable mp : Mpmath.library.

Definition resource_estimation (self : Solver) : Mpmath.M Estimate :=
  (let s_size := Z.of_nat (s_size self) in
   num_solutions <- Mpmath.lift (get_num_solutions self) ;;
   Mpmath.set_dps 50 ;;;
   ln_2 <- Mpmath.call (fun g => Mpmath.log mp g (Mpmath.of_int mp 2)) ;;
   pi_over_4 <- Mpmath.call (fun g => Mpmath.div mp g (Mpmath.pi mp) (Mpmath.of_int mp 4)) ;;
   ln_pi_over_4 <- Mpmath.call (fun g => Mpmath.log mp g pi_over_4) ;;
   ln_num_solutions <-
     Mpmath.call (fun g => Mpmath.log mp g (Mpmath.of_int mp num_solutions)) ;;
   s_ln_2 <- Mpmath.call (fun g => Mpmath.mul mp g (Mpmath.of_int mp s_size) ln_2) ;;
   diff <- Mpmath.call (fun g => Mpmath.sub mp g s_ln_2 ln_num_solutions) ;;
   ln_a <- Mpmath.call (fun g => Mpmath.div mp g diff (Mpmath.of_int mp 2)) ;;
   ln_num_iterations <- Mpmath.call (fun g => Mpmath.add mp g ln_pi_over_4 ln_a) ;;
   e <- Mpmath.call (fun g => Mpmath.exp mp g ln_num_iterations) ;;
   fl <- Mpmath.call (fun g => Mpmath.floor mp g e) ;;
   num_iterations <- Mpmath.lift (Mpmath.to_int mp fl) ;;
   let num_qubits :=
     (s_size + Z.of_nat (u_size self) * Z.of_nat (b self) + 1)%Z in
   let superpos_gates := s_size in
   let prepare_anc_gates := 2%Z in
   let counter_gates := counter_gates self in
   let oracle_gates := oracle_gates self in
   let diffuser_gates := (1 + 4 * s_size)%Z in
   let MCX_gates := (num_iterations * (oracle_gates + 2 * counter_gates))%Z in
   let total_gates :=
     (superpos_gates + prepare_anc_gates + MCX_gates
      + num_iterations * diffuser_gates)%Z in
   Mpmath.ret (mkEstimate num_qubits MCX_gates total_gates None))%mp.

End Estimator.

(** *** The circuits *)

(** The attributes [_build_circuit] creates and the other methods update. *)
Record Build : Type := mkBuild {
  main_circuit : Circuit;
  oracle : Circuit;
  diffuser : Circuit;
  count_circuit : Circuit;
  count_circuit_dag : Circuit;
  aux_circ : Circuit;
  s_qubits : list Qubit;
  u_qubits : list Qubit;
  anc : Qubit
}.

Definition set_main_circuit (c : Circuit) (o : Build) : Build :=
  mkBuild c (oracle o) (diffuser o) (count_circuit o) (count_circuit_dag o)
          (aux_circ o) (s_qubits o) (u_qubits o) (anc o).

Definition set_oracle (c : Circuit) (o : Build) : Build :=
  mkBuild (main_circuit o) c (diffuser o) (count_circuit o) (count_circuit_dag o)
          (aux_circ o) (s_qubits o) (u_qubits o) (anc o).

Definition set_diffuser (c : Circuit) (o : Build) : Build :=
  mkBuild (main_circuit o) (oracle o) c (count_circuit o) (count_circuit_dag o)
          (aux_circ o) (s_qubits o) (u_qubits o) (anc o).

Definition set_count_circuit (c : Circuit) (o : Build) : Build :=
  mkBuild (main_circuit o) (oracle o) (diffuser o) c (count_circuit_dag o)
          (aux_circ o) (s_qubits o) (u_qubits o) (anc o).

Definition set_count_circuit_dag (c : Circuit) (o : Build) : Build :=
  mkBuild (main_circuit o) (oracle o) (diffuser o) (count_circuit o) c
          (aux_circ o) (s_qubits o) (u_qubits o) (anc o).

Definition set_aux_circ (c : Circuit) (o : Build) : Build :=
  mkBuild (main_circuit o) (oracle o) (diffuser o) (count_circuit o)
          (count_circuit_dag o) c (s_qubits o) (u_qubits o) (anc o).

(** [self.universe.index(x)]: the first position of [x]; ValueError when
    there is none (CPython's message names the value, which has no rendering
    for an abstract element type). *)
Fixpoint list_index (x : E) (l : list E) : Py.result nat :=
  match l with
  | [] => Py.raise (Py.ValueError "x not in list")
  | y :: l' =>
    if E_eq_dec y x then Py.ret 0
    else i <- list_index x l' ;; Py.ret (S i)
  end.

(** *** _build_counter *)

(** [f"U_{i}"]. *)
Definition U_label (i : nat) : string := ("U_" ++ Py.str i)%string.

(** [[q for q in count_circuit.qubits if q.reg_name.startswith(label)]]. *)
Definition register (count_circuit : Circuit) (label : string) : list Qubit :=
  filter (fun q => String.prefix label (reg_name q)) (qubits count_circuit).

(** The loop [for q in register: S_list.append(q); q_list.append(deepcopy(S_list))]. *)
Fixpoint extend_lists (register S_list : list Qubit) (q_list : list (list Qubit))
  : list (list Qubit) :=
  match register with
  | [] => q_list
  | q :: rest =>
    let S_list := S_list ++ [q] in
    extend_lists rest S_list (q_list ++ [S_list])
  end.

(** The body of [for elementU in self.subsets[subset]]. *)
Definition element_lists (self : Solver) (count_circuit : Circuit) (j : nat)
    (q_list : list (list Qubit)) (elementU : E) : Py.result (list (list Qubit)) :=
  let S_list := [qubit "S" j] in
  i <- list_index elementU (universe self) ;;
  let label := U_label i in
  let register := register count_circuit label in
  Py.ret (extend_lists register S_list q_list).

(** The body of [for subset in self.subsets], on [(all_lists, j)]. *)
Definition subset_lists (self : Solver) (count_circuit : Circuit)
    (acc : list (list (list Qubit)) * nat) (subset : K * list E)
  : Py.result (list (list (list Qubit)) * nat) :=
  let all_lists := fst acc in
  let j := snd acc in
  q_list <- Py.for_each (snd subset) (element_lists self count_circuit j) [] ;;
  Py.ret (all_lists ++ [q_list], j + 1).

Definition _build_counter (self : Solver) (o : Build) : Py.result Build :=
  acc <- Py.for_each (subsets self) (subset_lists self (count_circuit o)) ([], 0) ;;
  let all_lists := fst acc in
  let reversed_lists := map (@rev (list Qubit)) all_lists in
  let count_circuit :=
    fold_left (fun c element => fold_left (fun c q_list => add_gate CnX q_list c) element c)
              reversed_lists (count_circuit o) in
  count_circuit_dag <- dagger count_circuit ;;
  Py.ret (set_count_circuit_dag count_circuit_dag (set_count_circuit count_circuit o)).

(** *** _build_oracle *)

(** [q.index[0]]; every counter qubit has a one-component index. *)
Definition index0 (q : Qubit) : nat := nth 0 (index q) 0.

(** The loop [for q in self.u_qubits: if q.index[0] != 0: self.oracle.X(q)]. *)
Definition flip_nonzero_bits (u_qubits : list Qubit) (oracle : Circuit) : Circuit :=
  fold_left (fun c q => if negb (index0 q =? 0) then add_X q c else c) u_qubits oracle.

Definition _build_oracle (o : Build) : Build :=
  let oracle1 := flip_nonzero_bits (u_qubits o) (oracle o) in
  let oracle_qubits_list := fold_left (fun l q => l ++ [q]) (u_qubits o) [] in
  let oracle_qubits_list := oracle_qubits_list ++ [anc o] in
  let oracle2 := add_gate CnX oracle_qubits_list oracle1 in
  let oracle3 := flip_nonzero_bits (u_qubits o) oracle2 in
  set_oracle oracle3 o.

(** *** _build_diffuser *)

Definition _build_diffuser (o : Build) : Build :=
  let diffuser1 := fold_left (fun c q => add_X q (add_H q c)) (s_qubits o) (diffuser o) in
  let diffuser_qubits_list := fold_left (fun l q => l ++ [q]) (s_qubits o) [] in
  let diffuser2 := add_gate CnZ diffuser_qubits_list diffuser1 in
  let diffuser3 := fold_left (fun c q => add_H q (add_X q c)) (s_qubits o) diffuser2 in
  set_diffuser diffuser3 o.

(** *** _assemble_aux_circ *)

Definition _assemble_aux_circ (self : Solver) (o : Build) : Py.result Build :=
  o <- _build_counter self o ;;
  let o := _build_oracle o in
  let o := set_aux_circ (append (count_circuit o) (aux_circ o)) o in
  let o := set_aux_circ (append (oracle o) (aux_circ o)) o in
  let o := set_aux_circ (append (count_circuit_dag o) (aux_circ o)) o in
  Py.ret o.

(** *** _assemble_full_circuit_w_meas *)

(** [math.floor((math.pi / 4) * math.sqrt((2 ** self.s_size) / self.num_solutions))]. *)
Definition default_num_iterations (self : Solver) : Py.result Z :=
  let pi_over_4 := Py.float_div Py.math_pi (Py.float_of_Z 4) in
  num_solutions <- get_num_solutions self ;;
  quotient <- Py.int_truediv (2 ^ Z.of_nat (s_size self)) num_solutions ;;
  root <- Py.math_sqrt quotient ;;
  Py.math_floor (Py.float_mul pi_over_4 root).

(** [c_bits[k]]. *)
Definition list_get (l : list Bit) (k : nat) : Py.result Bit :=
  match nth_error l k with
  | Some x => Py.ret x
  | None => Py.raise (Py.IndexError "list index out of range")
  end.

Definition _assemble_full_circuit_w_meas (self : Solver) (o : Build)
    (num_iterations : option Z) : Py.result Build :=
  o <- _assemble_aux_circ self o ;;
  let o := _build_diffuser o in
  num_iterations <-
    match num_iterations with
    | None => default_num_iterations self
    | Some n => Py.ret n
    end ;;
  let main :=
    Nat.iter (Z.to_nat num_iterations)
             (fun c => append (diffuser o) (append (aux_circ o) c)) (main_circuit o) in
  let bits_main := add_c_register "c" (s_size self) main in
  let c_bits := fst bits_main in
  main <- Py.for_each (s_qubits o)
            (fun c q => bit <- list_get c_bits (index0 q) ;; Py.ret (add_Measure q bit c))
            (snd bits_main) ;;
  Py.ret (set_main_circuit main o).

(** *** _build_circuit *)

(** The registers: [Qubit("S", i)] for each subset, [Qubit("U_i", j)] for each
    element and counter bit (by element, then by bit), and [Qubit("anc")]. *)
Definition make_s_qubits (self : Solver) : list Qubit :=
  map (qubit "S") (seq 0 (s_size self)).

Definition make_u_qubits (self : Solver) : list Qubit :=
  fold_left
    (fun u_qubits i =>
       let label := U_label i in
       let u_label_qubits := map (qubit label) (seq 0 (b self)) in
       u_qubits ++ u_label_qubits)
    (seq 0 (u_size self)) [].

Definition add_qubits (qs : list Qubit) (c : Circuit) : Circuit :=
  fold_left (fun c q => add_qubit q c) qs c.

(** [_build_circuit] up to the call of [_assemble_full_circuit_w_meas]. *)
Definition allocate (self : Solver) : Build :=
  let s_qubits := make_s_qubits self in
  let main := add_qubits s_qubits empty in
  let main := fold_left (fun c q => add_H q c) s_qubits main in
  let count := add_qubits s_qubits empty in
  let diff := add_qubits s_qubits empty in
  let aux := add_qubits s_qubits empty in
  let u_qubits := make_u_qubits self in
  let main := add_qubits u_qubits main in
  let count := add_qubits u_qubits count in
  let orac := add_qubits u_qubits empty in
  let aux := add_qubits u_qubits aux in
  let anc := qubit0 "anc" in
  let main := add_qubit anc main in
  let orac := add_qubit anc orac in
  let aux := add_qubit anc aux in
  let main := add_gate X [anc] main in
  let main := add_gate H [anc] main in
  mkBuild main orac diff count empty aux s_qubits u_qubits anc.

Definition _build_circuit (self : Solver) : Py.result Build :=
  _assemble_full_circuit_w_meas self (allocate self) None.

End Solver.

End ExactCover.

(* ================================================================= *)
(** ** Concrete instances

    The scenario of the specification: universe {1, 2, 3}; subsets A = {1, 2},
    B = {2, 3}, C = {1, 3}.  The puzzle is its own solution count, and the
    base class sets no [num_solutions] attribute. *)

Module Scenario.
Import Pytket ExactCover.

Definition encoding : Encoding nat string :=
  mkEncoding [1; 2; 3]
             [("A", [1; 2]); ("B", [2; 3]); ("C", [1; 3])]
             [("A", [1; 2]); ("B", [2; 3]); ("C", [1; 3])].

(** [ExactCoverQuantumSolver(puzzle, num_solutions=...)] on a puzzle with the
    given encoding and known solution count. *)
Definition new (enc : Encoding nat string) (known_solutions : Z)
    (num_solutions : option Z) : Py.result (Solver nat string) :=
  __init__ (fun puzzle : Z => puzzle) (fun _ => enc) (fun _ _ => None)
           known_solutions "simple" num_solutions.

(** The object [new encoding n None] returns. *)
Definition solver (n : Z) : Solver nat string :=
  mkSolver [1; 2; 3] [("A", [1; 2]); ("B", [2; 3]); ("C", [1; 3])] (Some n) 3 3 2.

Definition build (n : Z) : Py.result Build := _build_circuit Nat.eq_dec (solver n).

(** Two subsets: a power of two. *)
Definition pair_encoding : Encoding nat string :=
  mkEncoding [1; 2] [("A", [1]); ("B", [2])] [("A", [1]); ("B", [2])].

(** One subset and one element: the degenerate width [b = 0]. *)
Definition single : Solver nat string :=
  mkSolver [1] [("A", [1])] (Some 1%Z) 1 1 0.

(** 1024 subsets named "0" to "1023", each covering the only element. *)
Definition big_subsets : list (string * list nat) :=
  map (fun i => (Py.str i, [0])) (seq 0 1024).

Definition big_encoding : Encoding nat string :=
  mkEncoding [0] big_subsets big_subsets.

Definition big : Solver nat string :=
  mkSolver [0] big_subsets (Some 1%Z) 1 1024 10.

(** The object [new pair_encoding 1 None] returns. *)
Definition pair : Solver nat string :=
  mkSolver [1; 2] [("A", [1]); ("B", [2])] (Some 1%Z) 2 2 1.

(** Eleven elements and two subsets, both covering element 1. *)
Definition eleven_encoding : Encoding nat string :=
  mkEncoding (seq 0 11) [("A", [1]); ("B", [1])] [("A", [1]); ("B", [1])].

Definition eleven : Solver nat string :=
  mkSolver (seq 0 11) [("A", [1]); ("B", [1])] (Some 1%Z) 11 2 1.

(** A subset that lists an element the universe lacks; no attribute
    [num_solutions]. *)
Definition stray : Solver nat string :=
  mkSolver [1; 2] [("A", [1; 3])] None 2 1 0.

(** The basis state with every subset selected and every other qubit at zero. *)
Definition all_selected : Basis.state :=
  fun q => String.eqb (reg_name q) "S".

(** The basis state with only the first subset selected. *)
Definition first_selected : Basis.state :=
  fun q => UnitID_eqb q (qubit "S" 0).

End Scenario.

(* ================================================================= *)
(** ** The notions the statements use

    The lists of commands the builder is shown to emit, the registers, and
    the quantities the statements below speak of. *)

Import Pytket ExactCover Basis.

(** The order of [Circuit.qubits], as a relation. *)
Definition unit_le (p q : UnitID) : Prop := UnitOrder.leb p q = true.

(** [q.index[0] != 0]. *)
Definition nonzero_bit (q : Qubit) : bool := negb (index0 q =? 0).

(** The X gates of the oracle: one on every counter qubit of nonzero index. *)
Definition X_gates (us : list Qubit) : list Command :=
  map (fun q => gate X [q]) (filter nonzero_bit us).

(** The commands [_build_oracle] emits. *)
Definition oracle_commands (us : list Qubit) (anc : Qubit) : list Command :=
  X_gates us ++ gate CnX (us ++ [anc]) :: X_gates us.

(** The lists [S_list + [r0]], [S_list + [r0, r1]], ... over a register. *)
Fixpoint ladder (S_list reg : list Qubit) : list (list Qubit) :=
  match reg with
  | [] => []
  | q :: rest => (S_list ++ [q]) :: ladder (S_list ++ [q]) rest
  end.

(** The commands [_build_diffuser] emits. *)
Definition diffuser_commands (s : list Qubit) : list Command :=
  flat_map (fun q => [gate H [q]; gate X [q]]) s
  ++ gate CnZ s :: flat_map (fun q => [gate X [q]; gate H [q]]) s.

(** The final measurements. *)
Definition measure_commands (n : nat) : list Command :=
  map (fun i => mkCommand Measure [qubit "S" i] [bit "c" i]) (seq 0 n).

(** [n] copies of a block of commands. *)
Definition repeat_block (n : nat) (block : list Command) : list Command :=
  Nat.iter n (fun l => l ++ block) [].

(** Two basis states that agree on the qubits satisfying [D]. *)
Definition agree (D : Qubit -> Prop) (st st' : state) : Prop :=
  forall q, D q -> st q = st' q.

(** A CnX on at least one qubit, no qubit twice, all of them in [D]. *)
Definition wf_gate (D : Qubit -> Prop) (g : Command) : Prop :=
  op g = CnX /\ args g <> [] /\ NoDup (args g) /\ Forall D (args g).

(** The state after an X on each qubit of [qs]. *)
Definition flip_all (qs : list Qubit) (st : state) : state :=
  fold_left (fun st q => flip q st) qs st.

(** The bit the oracle's CnX sees on counter qubit [q]. *)
Definition seen (st : state) (q : Qubit) : bool :=
  if nonzero_bit q then negb (st q) else st q.

(** What [list.index] raises. *)
Definition not_in_list : Py.exn := Py.ValueError "x not in list".

Section Shapes.

Variable E : Type.
Variable E_eq_dec : forall x y : E, {x = y} + {x <> y}.
Variable K : Type.
Variable self : Solver E K.

(** The first position of [x] in [l] (the length of [l] when there is none). *)
Fixpoint position (x : E) (l : list E) : nat :=
  match l with
  | [] => 0
  | y :: l' => if E_eq_dec y x then 0 else S (position x l')
  end.

(** [x in l]. *)
Definition inb (x : E) (l : list E) : bool :=
  existsb (fun y => if E_eq_dec y x then true else false) l.

(** Every element of every subset is in the universe: what the register
    lookups of [_build_counter] need. *)
Definition covered : bool :=
  forallb (fun s => forallb (fun e => inb e (universe self)) (snd s)) (subsets self).

(** The register the counter selects for element [e]. *)
Definition element_register (count_circuit : Circuit) (e : E) : list Qubit :=
  register count_circuit (U_label (position e (universe self))).

(** The gates emitted for element [e] of subset [j]: the ladder over the
    element's register, longest list first. *)
Definition increment (count_circuit : Circuit) (j : nat) (e : E) : list Command :=
  map (gate CnX) (rev (ladder [qubit "S" j] (element_register count_circuit e))).

(** The block of subset [j]: the increments of its elements, last element first. *)
Definition subset_block (count_circuit : Circuit) (j : nat) (elems : list E)
  : list Command :=
  flat_map (increment count_circuit j) (rev elems).

(** The blocks of the subsets from index [j] on, in order. *)
Fixpoint counter_blocks (count_circuit : Circuit) (j : nat) (subs : list (K * list E))
  : list Command :=
  match subs with
  | [] => []
  | s :: rest => subset_block count_circuit j (snd s) ++ counter_blocks count_circuit (S j) rest
  end.

(** The value of [all_lists] after the subsets from index [j] on. *)
Fixpoint subset_q_lists (cc : Circuit) (j : nat) (subs : list (K * list E))
  : list (list (list Qubit)) :=
  match subs with
  | [] => []
  | s :: rest =>
    flat_map (fun e => ladder [qubit "S" j] (element_register cc e)) (snd s)
    :: subset_q_lists cc (S j) rest
  end.

(** The count circuit as [_build_circuit] allocates it. *)
Definition count_circuit0 : Circuit :=
  mkCircuit (make_s_qubits self ++ make_u_qubits self) [] [].

(** The commands [_build_counter] emits. *)
Definition counter_commands : list Command :=
  counter_blocks count_circuit0 0 (subsets self).

(** The object [_build_circuit] leaves when it runs [n] iterations. *)
Definition built (n : Z) : Build :=
  let s := make_s_qubits self in
  let u := make_u_qubits self in
  let a := qubit0 "anc" in
  let cnt := counter_commands in
  let orc := oracle_commands u a in
  let dif := diffuser_commands s in
  let aux := cnt ++ orc ++ rev cnt in
  mkBuild
    (mkCircuit (s ++ u ++ [a]) (map (bit "c") (seq 0 (s_size self)))
               (map (fun q => gate H [q]) s ++ [gate X [a]; gate H [a]]
                ++ repeat_block (Z.to_nat n) (aux ++ dif)
                ++ measure_commands (s_size self)))
    (mkCircuit (u ++ [a]) [] orc)
    (mkCircuit s [] dif)
    (mkCircuit (s ++ u) [] cnt)
    (mkCircuit (s ++ u) [] (rev cnt))
    (mkCircuit (s ++ u ++ [a]) [] aux)
    s u a.

(** The counter register of element [i], low bit first. *)
Definition counter_register (i : nat) : list Qubit :=
  map (qubit (U_label i)) (seq 0 (b self)).

(** Every element's counter register holds exactly one. *)
Definition every_counter_is_one (st : state) : bool :=
  forallb (fun i => (value st (counter_register i) =? 1)%Z) (seq 0 (u_size self)).

(** Every element's counter register holds a nonzero value. *)
Definition every_counter_is_nonzero (st : state) : bool :=
  forallb (fun i => negb (value st (counter_register i) =? 0)%Z)
          (seq 0 (u_size self)).

(** The dict returned for [k] iterations. *)
Definition estimate_of (k : Z) : Estimate :=
  let s := Z.of_nat (s_size self) in
  let MCX := (k * (oracle_gates self + 2 * counter_gates self))%Z in
  mkEstimate (s + Z.of_nat (u_size self) * Z.of_nat (b self) + 1)%Z
             MCX
             (s + 2 + MCX + k * (1 + 4 * s))%Z
             None.

(** The qubits the lookup of label [U_i] returns beyond the register of
    element [i]: those of the registers whose label extends [U_i]. *)
Definition spill (i : nat) : list Qubit :=
  filter (fun q => negb (String.eqb (reg_name q) (U_label i)))
         (register count_circuit0 (U_label i)).

(** How many times a list of elements names the element of index [i]. *)
Definition occurrences (i : nat) (elems : list E) : nat :=
  List.length (filter (fun e => position e (universe self) =? i) elems).

(** The number of selected subsets covering element [i], among the subsets
    from index [j] on (a subset counts once for each time it lists the
    element). *)
Fixpoint covering_count (st : state) (i j : nat) (subs : list (K * list E)) : Z :=
  match subs with
  | [] => 0
  | s :: rest =>
    ((if st (qubit "S" j) then Z.of_nat (occurrences i (snd s)) else 0)
     + covering_count st i (S j) rest)%Z
  end.

(** The selection [st] of subsets covers every element exactly once. *)
Definition exact_cover (st : state) : bool :=
  forallb (fun i => (covering_count st i 0 (subsets self) =? 1)%Z)
          (seq 0 (u_size self)).

End Shapes.

Section LogSpace.

Variables E K : Type.
Variable mp : Mpmath.library.
Variable self : Solver E K.

(** The estimator's iteration count before [int()]: the log-space formula
    [floor(exp(log(pi/4) + (s_size*log(2) - log(num_solutions))/2))], every
    operation at the precision of [g]. *)
Definition log_space_iterations (g : Mpmath.context) (n : Z) : Mpmath.num mp :=
  let ln_2 := Mpmath.log mp g (Mpmath.of_int mp 2) in
  let ln_pi_over_4 :=
    Mpmath.log mp g (Mpmath.div mp g (Mpmath.pi mp) (Mpmath.of_int mp 4)) in
  let ln_num_solutions := Mpmath.log mp g (Mpmath.of_int mp n) in
  let ln_a :=
    Mpmath.div mp g
      (Mpmath.sub mp g
         (Mpmath.mul mp g (Mpmath.of_int mp (Z.of_nat (s_size self))) ln_2)
         ln_num_solutions)
      (Mpmath.of_int mp 2) in
  Mpmath.floor mp g (Mpmath.exp mp g (Mpmath.add mp g ln_pi_over_4 ln_a)).

End LogSpace.

(* ================================================================= *)
(** ** Facts about the Python fragment and the circuit operations *)

Lemma UnitID_eqb_eq (p q : UnitID) : UnitID_eqb p q = true <-> p = q.
Proof.
  destruct p as [n1 i1], q as [n2 i2]; unfold UnitID_eqb; simpl.
  rewrite andb_true_iff, String.eqb_eq.
  destruct (list_eq_dec Nat.eq_dec i1 i2) as [->|Hne]; split.
  - now intros [-> _].
  - intros [= ->]; auto.
  - now intros [_ ?].
  - intros [= _ ?]; contradiction.
Qed.

Lemma UnitID_eqb_refl (q : UnitID) : UnitID_eqb q q = true.
Proof. now apply UnitID_eqb_eq. Qed.

Lemma UnitID_eqb_neq (p q : UnitID) : UnitID_eqb p q = false <-> p <> q.
Proof.
  rewrite <- UnitID_eqb_eq. destruct (UnitID_eqb p q); split; congruence.
Qed.

Lemma UnitID_eq_dec (p q : UnitID) : {p = q} + {p <> q}.
Proof.
  destruct (UnitID_eqb p q) eqn:Hpq.
  - left. now apply UnitID_eqb_eq.
  - right. now apply UnitID_eqb_neq.
Defined.

Lemma bind_inr (A B : Type) (c : Py.result A) (k : A -> Py.result B) (r : B) :
  Py.bind c k = inr r -> exists a, c = inr a /\ k a = inr r.
Proof. destruct c as [e|a]; simpl; [discriminate|eauto]. Qed.

Ltac inv_bind H :=
  let a := fresh "a" in
  let Ha := fresh "Ha" in
  apply bind_inr in H; destruct H as (a & Ha & H).

Lemma fold_left_snoc (A : Type) (l acc : list A) :
  fold_left (fun l q => l ++ [q]) l acc = acc ++ l.
Proof.
  revert acc; induction l as [|x l IH]; intros acc; simpl.
  - now rewrite app_nil_r.
  - now rewrite IH, <- app_assoc.
Qed.

(** *** Circuits keep what the operations do not touch *)

Lemma add_qubits_ids (qs : list Qubit) (c : Circuit) :
  qubit_ids (add_qubits qs c) = qubit_ids c ++ qs.
Proof.
  unfold add_qubits; revert c; induction qs as [|q qs IH]; intros c; simpl.
  - now rewrite app_nil_r.
  - rewrite IH; simpl. now rewrite <- app_assoc.
Qed.

Lemma add_qubits_commands (qs : list Qubit) (c : Circuit) :
  commands (add_qubits qs c) = commands c.
Proof.
  unfold add_qubits; revert c; induction qs as [|q qs IH]; intros c; simpl; auto.
  now rewrite IH.
Qed.

Lemma fold_gates_commands (A : Type) (f : A -> list Command) (l : list A) (c : Circuit)
    (step : Circuit -> A -> Circuit) :
  (forall c x, commands (step c x) = commands c ++ f x) ->
  commands (fold_left step l c) = commands c ++ flat_map f l.
Proof.
  intros Hstep; revert c; induction l as [|x l IH]; intros c; simpl.
  - now rewrite app_nil_r.
  - now rewrite IH, Hstep, <- app_assoc.
Qed.

Lemma fold_gates_ids (A : Type) (l : list A) (c : Circuit)
    (step : Circuit -> A -> Circuit) :
  (forall c x, qubit_ids (step c x) = qubit_ids c) ->
  qubit_ids (fold_left step l c) = qubit_ids c.
Proof.
  intros Hstep; revert c; induction l as [|x l IH]; intros c; simpl; auto.
  now rewrite IH, Hstep.
Qed.

Lemma flat_map_if_single (A B : Type) (p : A -> bool) (f : A -> B) (l : list A) :
  flat_map (fun x => if p x then [f x] else []) l = map f (filter p l).
Proof.
  induction l as [|x l IH]; simpl; auto.
  destruct (p x); simpl; now rewrite IH.
Qed.

Lemma flip_nonzero_bits_commands (us : list Qubit) (c : Circuit) :
  commands (flip_nonzero_bits us c) = commands c ++ X_gates us.
Proof.
  unfold flip_nonzero_bits, X_gates.
  rewrite <- flat_map_if_single.
  apply fold_gates_commands.
  intros c' q. unfold nonzero_bit. destruct (negb (index0 q =? 0)); simpl; auto.
  now rewrite app_nil_r.
Qed.

Lemma flip_nonzero_bits_ids (us : list Qubit) (c : Circuit) :
  qubit_ids (flip_nonzero_bits us c) = qubit_ids c.
Proof.
  apply fold_gates_ids. intros c' q. now destruct (negb (index0 q =? 0)).
Qed.

Lemma build_oracle_commands (o : Build) :
  commands (oracle (_build_oracle o))
  = commands (oracle o) ++ oracle_commands (u_qubits o) (anc o).
Proof.
  unfold _build_oracle, oracle_commands; simpl.
  rewrite flip_nonzero_bits_commands; simpl.
  rewrite flip_nonzero_bits_commands, fold_left_snoc; simpl.
  now rewrite <- !app_assoc.
Qed.

Lemma build_oracle_ids (o : Build) :
  qubit_ids (oracle (_build_oracle o)) = qubit_ids (oracle o).
Proof.
  unfold _build_oracle; simpl.
  now rewrite flip_nonzero_bits_ids; simpl; rewrite flip_nonzero_bits_ids.
Qed.

(** *** The counter's gate lists *)

Lemma extend_lists_ladder (reg S_list : list Qubit) (q_list : list (list Qubit)) :
  extend_lists reg S_list q_list = q_list ++ ladder S_list reg.
Proof.
  revert S_list q_list; induction reg as [|q reg IH]; intros S_list q_list; simpl.
  - now rewrite app_nil_r.
  - now rewrite IH, <- app_assoc.
Qed.

Lemma rev_flat_map (A B : Type) (f : A -> list B) (l : list A) :
  rev (flat_map f l) = flat_map (fun x => rev (f x)) (rev l).
Proof.
  induction l as [|x l IH]; simpl; auto.
  now rewrite rev_app_distr, IH, flat_map_app; simpl; rewrite app_nil_r.
Qed.

Lemma map_flat_map_commute (A B C : Type) (g : B -> C) (f : A -> list B) (l : list A) :
  map g (flat_map f l) = flat_map (fun x => map g (f x)) l.
Proof.
  induction l as [|x l IH]; simpl; auto.
  now rewrite map_app, IH.
Qed.

Lemma flat_map_single (A B : Type) (f : A -> B) (l : list A) :
  flat_map (fun x => [f x]) l = map f l.
Proof. induction l as [|x l IH]; simpl; congruence. Qed.

Lemma flat_map_map_commute (A B C : Type) (g : A -> B) (f : B -> list C) (l : list A) :
  flat_map f (map g l) = flat_map (fun x => f (g x)) l.
Proof. induction l as [|x l IH]; simpl; congruence. Qed.

Lemma register_ext (c c' : Circuit) (label : string) :
  qubit_ids c = qubit_ids c' -> register c label = register c' label.
Proof. unfold register, qubits. now intros ->. Qed.

Section Counter.

Variable E : Type.
Variable E_eq_dec : forall x y : E, {x = y} + {x <> y}.
Variable K : Type.
Variable self : Solver E K.

Lemma list_index_position (x : E) (l : list E) :
  list_index E_eq_dec x l
  = if inb E_eq_dec x l then inr (position E_eq_dec x l) else inl not_in_list.
Proof.
  unfold inb. induction l as [|y l IH]; simpl; auto.
  destruct (E_eq_dec y x) as [->|Hne]; simpl; auto.
  rewrite IH. now destruct (existsb _ l).
Qed.

Lemma element_loop (cc : Circuit) (j : nat) (elems : list E) (q_list : list (list Qubit)) :
  Py.for_each elems (element_lists E_eq_dec self cc j) q_list
  = if forallb (fun e => inb E_eq_dec e (universe self)) elems
    then inr (q_list
              ++ flat_map (fun e => ladder [qubit "S" j] (element_register E_eq_dec self cc e))
                          elems)
    else inl not_in_list.
Proof.
  revert q_list; induction elems as [|e elems IH]; intros q_list; simpl.
  - now rewrite app_nil_r.
  - unfold element_lists at 1. rewrite list_index_position.
    destruct (inb E_eq_dec e (universe self)); simpl; auto.
    rewrite IH, extend_lists_ladder.
    destruct (forallb _ elems); auto.
    now rewrite <- app_assoc.
Qed.

Lemma subset_loop (cc : Circuit) (subs : list (K * list E))
    (all_lists : list (list (list Qubit))) (j : nat) :
  Py.for_each subs (subset_lists E_eq_dec self cc) (all_lists, j)
  = if forallb (fun s => forallb (fun e => inb E_eq_dec e (universe self)) (snd s)) subs
    then inr (all_lists ++ subset_q_lists E_eq_dec self cc j subs, j + List.length subs)
    else inl not_in_list.
Proof.
  revert all_lists j; induction subs as [|s subs IH]; intros all_lists j; simpl.
  - now rewrite app_nil_r, Nat.add_0_r.
  - unfold subset_lists at 1; simpl.
    rewrite element_loop.
    destruct (forallb (fun e => inb E_eq_dec e (universe self)) (snd s)); simpl; auto.
    rewrite IH. destruct (forallb _ subs); auto.
    rewrite <- app_assoc; simpl. replace (j + 1) with (S j) by lia.
    do 2 f_equal. lia.
Qed.

Lemma subset_q_lists_blocks (cc : Circuit) (j : nat) (subs : list (K * list E)) :
  flat_map (fun l => map (gate CnX) (rev l)) (subset_q_lists E_eq_dec self cc j subs)
  = counter_blocks E_eq_dec self cc j subs.
Proof.
  revert j; induction subs as [|s subs IH]; intros j; simpl; auto.
  rewrite IH. f_equal. unfold subset_block, increment.
  now rewrite rev_flat_map, map_flat_map_commute.
Qed.

Lemma counter_blocks_CnX (cc : Circuit) (j : nat) (subs : list (K * list E)) :
  Forall (fun g => op g = CnX) (counter_blocks E_eq_dec self cc j subs).
Proof.
  revert j; induction subs as [|s subs IH]; intros j; simpl; auto.
  apply Forall_app; split; auto.
  unfold subset_block. apply Forall_flat_map, Forall_forall. intros e _.
  unfold increment. apply Forall_map, Forall_forall. now intros.
Qed.

End Counter.

Lemma commands_dagger_rev (gs : list Command) :
  Forall (fun g => op g = CnX) gs -> commands_dagger gs = inr (rev gs).
Proof.
  induction 1 as [|g gs Hg _ IH]; simpl; auto.
  rewrite IH; simpl. unfold command_dagger. now rewrite Hg.
Qed.

Lemma filter_mem_nil (l l0 : list UnitID) :
  incl l l0 -> filter (fun q => negb (mem q l0)) l = [].
Proof.
  intros Hincl. induction l as [|q l IH]; simpl; auto.
  assert (Hq : mem q l0 = true).
  { unfold mem. apply existsb_exists. exists q. split.
    - apply Hincl; now left.
    - apply UnitID_eqb_refl. }
  rewrite Hq; simpl. apply IH. intros x Hx. apply Hincl. now right.
Qed.

Lemma append_incl (other c : Circuit) :
  incl (qubit_ids other) (qubit_ids c) -> incl (bit_ids other) (bit_ids c) ->
  append other c = mkCircuit (qubit_ids c) (bit_ids c) (commands c ++ commands other).
Proof.
  intros Hq Hb. unfold append.
  now rewrite (filter_mem_nil Hq), (filter_mem_nil Hb), !app_nil_r.
Qed.

(** *** The built object in closed form *)

Ltac solve_incl :=
  cbn [qubit_ids bit_ids commands];
  first [ apply incl_refl
        | apply incl_nil_l
        | apply incl_appl, incl_refl
        | apply incl_appr, incl_refl
        | rewrite app_assoc; apply incl_appl, incl_refl
        | rewrite append_incl by solve_incl; solve_incl ].

Lemma fold_gates (A : Type) (f : A -> list Command) (step : Circuit -> A -> Circuit)
    (l : list A) (c : Circuit) :
  (forall c x, step c x = mkCircuit (qubit_ids c) (bit_ids c) (commands c ++ f x)) ->
  fold_left step l c = mkCircuit (qubit_ids c) (bit_ids c) (commands c ++ flat_map f l).
Proof.
  intros Hstep; revert c; induction l as [|x l IH]; intros c; simpl.
  - rewrite app_nil_r. now destruct c.
  - rewrite IH, Hstep; simpl. now rewrite <- app_assoc.
Qed.

Lemma add_qubits_eq (qs : list Qubit) (c : Circuit) :
  add_qubits qs c = mkCircuit (qubit_ids c ++ qs) (bit_ids c) (commands c).
Proof.
  unfold add_qubits; revert c; induction qs as [|q qs IH]; intros c; simpl.
  - rewrite app_nil_r. now destruct c.
  - rewrite IH; simpl. now rewrite <- app_assoc.
Qed.

Lemma flip_nonzero_bits_eq (us : list Qubit) (c : Circuit) :
  flip_nonzero_bits us c
  = mkCircuit (qubit_ids c) (bit_ids c) (commands c ++ X_gates us).
Proof.
  unfold flip_nonzero_bits, X_gates. rewrite <- flat_map_if_single.
  apply fold_gates. intros c' q. unfold nonzero_bit.
  destruct (negb (index0 q =? 0)); simpl; auto.
  rewrite app_nil_r. now destruct c'.
Qed.

Section Built.

Variable E : Type.
Variable E_eq_dec : forall x y : E, {x = y} + {x <> y}.
Variable K : Type.
Variable self : Solver E K.

Lemma allocate_eq :
  allocate self
  = let s := make_s_qubits self in
    let u := make_u_qubits self in
    let a := qubit0 "anc" in
    mkBuild
      (mkCircuit (s ++ u ++ [a]) []
                 (map (fun q => gate H [q]) s ++ [gate X [a]; gate H [a]]))
      (mkCircuit (u ++ [a]) [] [])
      (mkCircuit s [] [])
      (mkCircuit (s ++ u) [] [])
      empty
      (mkCircuit (s ++ u ++ [a]) [] [])
      s u a.
Proof.
  unfold allocate; cbv zeta.
  rewrite (fold_gates (fun q => [gate H [q]]) (fun c q => add_H q c)) by reflexivity.
  rewrite !add_qubits_eq; simpl.
  unfold add_qubit, add_gate; simpl.
  now rewrite <- !app_assoc, flat_map_single.
Qed.

Lemma build_counter_eq (o : Build) :
  count_circuit o = count_circuit0 self ->
  _build_counter E_eq_dec self o
  = if covered E_eq_dec self
    then inr (set_count_circuit_dag
                (mkCircuit (qubit_ids (count_circuit0 self)) []
                           (rev (counter_commands E_eq_dec self)))
                (set_count_circuit
                   (mkCircuit (qubit_ids (count_circuit0 self)) []
                              (counter_commands E_eq_dec self)) o))
    else inl not_in_list.
Proof.
  intros Hcc. unfold _build_counter. rewrite Hcc, subset_loop.
  fold (covered E_eq_dec self). destruct (covered E_eq_dec self); auto.
  simpl.
  rewrite (fold_gates (fun element => map (gate CnX) element)
             (fun c element => fold_left (fun c q_list => add_gate CnX q_list c) element c)).
  - simpl. rewrite flat_map_map_commute, subset_q_lists_blocks.
    fold (counter_commands E_eq_dec self). unfold dagger; simpl.
    rewrite commands_dagger_rev by apply counter_blocks_CnX.
    reflexivity.
  - intros c element.
    rewrite (fold_gates (fun q_list => [gate CnX q_list])
               (fun c q_list => add_gate CnX q_list c)) by reflexivity.
    now rewrite flat_map_single.
Qed.

Lemma build_diffuser_eq (o : Build) :
  _build_diffuser o
  = set_diffuser
      (mkCircuit (qubit_ids (diffuser o)) (bit_ids (diffuser o))
                 (commands (diffuser o) ++ diffuser_commands (s_qubits o))) o.
Proof.
  unfold _build_diffuser, diffuser_commands; cbv zeta.
  rewrite (fold_gates (fun q => [gate H [q]; gate X [q]])
             (fun c q => add_X q (add_H q c))).
  2:{ intros c q; unfold add_X, add_H, add_gate; simpl. now rewrite <- app_assoc. }
  rewrite fold_left_snoc; simpl.
  rewrite (fold_gates (fun q => [gate X [q]; gate H [q]])
             (fun c q => add_H q (add_X q c))).
  2:{ intros c q; unfold add_X, add_H, add_gate; simpl. now rewrite <- app_assoc. }
  simpl. now rewrite <- !app_assoc.
Qed.

Lemma build_oracle_eq (o : Build) :
  _build_oracle o
  = set_oracle
      (mkCircuit (qubit_ids (oracle o)) (bit_ids (oracle o))
                 (commands (oracle o) ++ oracle_commands (u_qubits o) (anc o))) o.
Proof.
  unfold _build_oracle, oracle_commands; cbv zeta.
  rewrite !flip_nonzero_bits_eq, fold_left_snoc; simpl.
  now rewrite <- !app_assoc.
Qed.

Lemma iterate_append (aux dif main : Circuit) (n : nat) :
  incl (qubit_ids aux) (qubit_ids main) -> incl (qubit_ids dif) (qubit_ids main) ->
  bit_ids aux = [] -> bit_ids dif = [] ->
  Nat.iter n (fun c => append dif (append aux c)) main
  = mkCircuit (qubit_ids main) (bit_ids main)
              (commands main ++ repeat_block n (commands aux ++ commands dif)).
Proof.
  intros Ha Hd Hba Hbd. induction n as [|n IH]; simpl.
  - rewrite app_nil_r. now destruct main.
  - rewrite IH.
    rewrite (@append_incl aux) by (simpl; auto; rewrite Hba; apply incl_nil_l).
    rewrite (@append_incl dif) by (simpl; auto; rewrite Hbd; apply incl_nil_l).
    simpl. now rewrite <- !app_assoc.
Qed.

Lemma measure_loop (c_bits : list Bit) (n k : nat) (c : Circuit) :
  c_bits = map (bit "c") (seq 0 n) -> k + 0 <= n ->
  forall m, m + k = n ->
  Py.for_each (map (qubit "S") (seq m k))
    (fun c q => bit <- list_get c_bits (index0 q) ;; Py.ret (add_Measure q bit c)) c
  = inr (mkCircuit (qubit_ids c) (bit_ids c)
           (commands c
            ++ map (fun i => mkCommand Measure [qubit "S" i] [bit "c" i]) (seq m k))).
Proof.
  intros -> _. revert c. induction k as [|k IH]; intros c m Hm; simpl.
  - rewrite app_nil_r. now destruct c.
  - unfold list_get at 1, index0 at 1; simpl.
    rewrite nth_error_map, nth_error_seq.
    destruct (Nat.ltb_spec m n) as [_|Hle]; [|lia]; simpl.
    rewrite IH by lia. simpl. now rewrite <- app_assoc.
Qed.

(** [_build_circuit] in one equation: it raises when a subset names an element
    outside the universe or when the iteration count cannot be computed, and
    returns [built E_eq_dec self n] otherwise. *)
Theorem build_circuit_eq :
  _build_circuit E_eq_dec self
  = if covered E_eq_dec self
    then n <- default_num_iterations self ;; Py.ret (built E_eq_dec self n)
    else inl not_in_list.
Proof.
  unfold _build_circuit, _assemble_full_circuit_w_meas, _assemble_aux_circ.
  rewrite allocate_eq; cbv zeta.
  rewrite build_counter_eq by reflexivity.
  destruct (covered E_eq_dec self); [|reflexivity].
  cbn [Py.bind]. rewrite build_oracle_eq.
  cbv [set_oracle set_count_circuit set_count_circuit_dag set_aux_circ
       main_circuit oracle diffuser count_circuit count_circuit_dag aux_circ
       s_qubits u_qubits anc count_circuit0].
  cbn [qubit_ids bit_ids commands].
  rewrite !append_incl by solve_incl.
  cbn [qubit_ids bit_ids commands].
  unfold Py.ret at 1. cbn [Py.bind].
  rewrite build_diffuser_eq.
  cbv [set_diffuser main_circuit oracle diffuser count_circuit count_circuit_dag
       aux_circ s_qubits u_qubits anc].
  cbn [qubit_ids bit_ids commands].
  destruct (default_num_iterations self) as [e|n]; [reflexivity|].
  cbn [Py.bind].
  rewrite iterate_append by (auto; solve_incl).
  cbn [qubit_ids bit_ids commands].
  unfold add_c_register; cbn [fst snd qubit_ids bit_ids commands].
  unfold make_s_qubits at 1.
  rewrite (@measure_loop _ (s_size self)) by (auto; lia).
  cbv [built measure_commands Py.ret set_main_circuit Py.bind
       main_circuit oracle diffuser count_circuit count_circuit_dag
       aux_circ s_qubits u_qubits anc].
  cbn [qubit_ids bit_ids commands app].
  now rewrite <- !app_assoc.
Qed.

End Built.

(* ================================================================= *)
(** ** Basis-state semantics: general facts *)

Lemma run_app (gs1 gs2 : list Command) (st : state) :
  run (gs1 ++ gs2) st
  = match run gs1 st with
    | Some st' => run gs2 st'
    | None => None
    end.
Proof.
  revert st; induction gs1 as [|g gs1 IH]; intros st; simpl; auto.
  destruct (apply g st); auto.
Qed.

Lemma target_controls_snoc (cs : list Qubit) (t : Qubit) :
  target_controls (cs ++ [t]) = Some (t, cs).
Proof. unfold target_controls. now rewrite rev_app_distr; simpl; rewrite rev_involutive. Qed.

Lemma flip_same (q : Qubit) (st : state) : flip q st q = negb (st q).
Proof. unfold flip. now rewrite UnitID_eqb_refl. Qed.

Lemma flip_other (q q' : Qubit) (st : state) : q' <> q -> flip q st q' = st q'.
Proof. intros Hne. unfold flip. apply UnitID_eqb_neq in Hne. now rewrite Hne. Qed.

Lemma forallb_ext_in (A : Type) (f g : A -> bool) (l : list A) :
  (forall x, In x l -> f x = g x) -> forallb f l = forallb g l.
Proof.
  induction l as [|x l IH]; simpl; auto. intros H.
  rewrite (H x) by now left. f_equal. apply IH. intros; apply H; now right.
Qed.

Lemma value_ext_in (st st' : state) (reg : list Qubit) :
  (forall q, In q reg -> st q = st' q) -> value st reg = value st' reg.
Proof.
  induction reg as [|q reg IH]; simpl; auto. intros H.
  rewrite (H q) by now left. rewrite IH; [reflexivity|].
  intros; apply H; now right.
Qed.

Lemma value_range (st : state) (reg : list Qubit) :
  (0 <= value st reg < 2 ^ Z.of_nat (List.length reg))%Z.
Proof.
  induction reg as [|q reg IH]; cbn [value List.length].
  - simpl. lia.
  - rewrite Nat2Z.inj_succ, Z.pow_succ_r by lia.
    destruct (st q); simpl Z.b2z; lia.
Qed.

Lemma value_all_ones (st : state) (reg : list Qubit) :
  forallb st reg = true <-> value st reg = (2 ^ Z.of_nat (List.length reg) - 1)%Z.
Proof.
  induction reg as [|q reg IH]; cbn [value List.length forallb].
  - simpl. split; auto.
  - rewrite Nat2Z.inj_succ, Z.pow_succ_r by lia.
    pose proof (value_range st reg) as Hr.
    rewrite andb_true_iff, IH.
    destruct (st q); simpl Z.b2z; split; intros; try split; try lia; try easy.
Qed.

Lemma value_zero (st : state) (reg : list Qubit) :
  value st reg = 0%Z <-> forall q, In q reg -> st q = false.
Proof.
  induction reg as [|q reg IH]; cbn [value].
  - split; auto. intros _ q [].
  - pose proof (value_range st reg) as Hr. split.
    + intros Hv.
      assert (Hq : st q = false /\ value st reg = 0%Z).
      { destruct (st q); cbn [Z.b2z] in Hv; split; auto; lia. }
      destruct Hq as [Hq Hreg]. intros q' [<-|Hin]; auto.
      now apply (proj1 IH).
    + intros H. rewrite (H q) by now left.
      rewrite (proj2 IH); [reflexivity|]. intros; apply H; now right.
Qed.

Lemma NoDup_app_disjoint (A : Type) (l1 l2 : list A) :
  NoDup (l1 ++ l2) -> forall x, In x l1 -> ~ In x l2.
Proof.
  induction l1 as [|a l1 IH]; simpl; intros Hnd x Hx; [easy|].
  apply NoDup_cons_iff in Hnd as [Ha Hnd].
  destruct Hx as [<-|Hx]; [|now apply IH].
  intros Hin. apply Ha, in_or_app. now right.
Qed.

(** *** The controlled increment *)

Lemma increment_arith (v n : Z) (r c : bool) :
  (0 <= n)%Z -> (0 <= v < 2 ^ n)%Z ->
  (Z.b2z (xorb r c) + 2 * ((v + Z.b2z (c && r)) mod 2 ^ n)
   = (Z.b2z r + 2 * v + Z.b2z c) mod (2 * 2 ^ n))%Z.
Proof.
  intros Hn Hv.
  destruct r, c; cbn [xorb andb Z.b2z].
  - destruct (Z.eq_dec (v + 1) (2 ^ n)) as [Heq|Hne].
    + rewrite Heq, Z.mod_same by lia.
      replace (1 + 2 * v + 1)%Z with (2 * 2 ^ n)%Z by lia.
      rewrite Z.mod_same by lia. reflexivity.
    + rewrite !Z.mod_small by lia. lia.
  - rewrite !Z.mod_small by lia. lia.
  - rewrite !Z.mod_small by lia. lia.
  - rewrite !Z.mod_small by lia. lia.
Qed.

(** The ladder of gates over [reg] under the controls [ctrl], longest list
    first, adds the conjunction of the controls to the register, modulo
    [2^|reg|], and touches nothing else. *)
Lemma run_increment (reg ctrl : list Qubit) (st : state) :
  NoDup (ctrl ++ reg) ->
  exists st',
    run (map (gate CnX) (rev (ladder ctrl reg))) st = Some st'
    /\ value st' reg
       = ((value st reg + Z.b2z (forallb st ctrl)) mod 2 ^ Z.of_nat (List.length reg))%Z
    /\ forall q, ~ In q reg -> st' q = st q.
Proof.
  revert ctrl st; induction reg as [|r reg IH]; intros ctrl st Hnd.
  - exists st. cbn [ladder rev map run value List.length].
    repeat split; auto. now rewrite Z.mod_1_r.
  - cbn [ladder rev]. rewrite map_app, run_app.
    assert (Hnd' : NoDup ((ctrl ++ [r]) ++ reg)) by now rewrite <- app_assoc.
    destruct (IH (ctrl ++ [r]) st Hnd') as (st1 & Hrun & Hval & Hout).
    rewrite Hrun. cbn [map run]. unfold apply. cbn [gate op args].
    rewrite target_controls_snoc.
    eexists; split; [reflexivity|].
    assert (Hr_notin : ~ In r reg).
    { intros Hin. apply NoDup_remove_2 in Hnd. apply Hnd, in_or_app. now right. }
    assert (Hctrl : forallb st1 ctrl = forallb st ctrl).
    { apply forallb_ext_in. intros q Hq. apply Hout. intros Hin.
      apply (NoDup_app_disjoint _ _ Hnd q Hq). now right. }
    rewrite Hctrl.
    assert (Hst1r : st1 r = st r) by now apply Hout.
    rewrite forallb_app in Hval. cbn [forallb] in Hval. rewrite andb_true_r in Hval.
    set (c := forallb st ctrl) in *.
    set (st2 := if c then flip r st1 else st1).
    assert (Hlow : st2 r = xorb (st r) c).
    { unfold st2. destruct c.
      - rewrite flip_same, Hst1r. now destruct (st r).
      - rewrite Hst1r. now destruct (st r). }
    assert (Hhigh : value st2 reg = value st1 reg).
    { apply value_ext_in. intros q Hq. unfold st2. destruct c; auto.
      apply flip_other. intros ->; contradiction. }
    split.
    + cbn [value List.length]. rewrite Hlow, Hhigh, Hval.
      rewrite Nat2Z.inj_succ, Z.pow_succ_r by lia.
      apply increment_arith; [lia|apply value_range].
    + intros q Hq. cbn [In] in Hq.
      assert (Hq1 : st1 q = st q) by (apply Hout; tauto).
      unfold st2. destruct c; auto.
      rewrite flip_other; auto.
Qed.

(** *** Well-formed CnX gates: total, extensional and self-inverse *)

Lemma wf_gate_weaken (D D' : Qubit -> Prop) (g : Command) :
  (forall q, D q -> D' q) -> wf_gate D g -> wf_gate D' g.
Proof.
  intros HD (Hop & Hne & Hnd & Hall). repeat split; auto.
  eapply Forall_impl; eauto.
Qed.

Lemma wf_gate_shape (D : Qubit -> Prop) (g : Command) :
  wf_gate D g ->
  exists cs t, args g = cs ++ [t] /\ ~ In t cs /\ Forall D cs /\ D t /\ op g = CnX.
Proof.
  intros (Hop & Hne & Hnd & Hall).
  destruct (exists_last Hne) as (cs & t & Hargs).
  exists cs, t. rewrite Hargs in *.
  apply Forall_app in Hall as [Hcs Ht]. inversion Ht; subst.
  repeat split; auto.
  intros Hin. apply (NoDup_app_disjoint _ _ Hnd t Hin). now left.
Qed.

Lemma apply_wf (D : Qubit -> Prop) (g : Command) (st : state) :
  wf_gate D g ->
  exists cs t,
    args g = cs ++ [t] /\ ~ In t cs /\ Forall D cs /\ D t
    /\ apply g st = Some (if forallb st cs then flip t st else st).
Proof.
  intros Hwf. destruct (wf_gate_shape Hwf) as (cs & t & Hargs & Ht & Hcs & HDt & Hop).
  exists cs, t. repeat split; auto.
  unfold apply. now rewrite Hop, Hargs, target_controls_snoc.
Qed.

Lemma apply_agree (D : Qubit -> Prop) (g : Command) (st st' s : state) :
  wf_gate D g -> agree D st st' -> apply g st = Some s ->
  exists s', apply g st' = Some s' /\ agree D s s'.
Proof.
  intros Hwf Hag Happ.
  destruct (apply_wf st Hwf) as (cs & t & Hargs & Ht & Hcs & HDt & Hst).
  destruct (apply_wf st' Hwf) as (cs' & t' & Hargs' & _ & _ & _ & Hst').
  rewrite Hargs in Hargs'. apply app_inj_tail in Hargs' as [<- <-].
  rewrite Hst in Happ. injection Happ as <-.
  eexists; split; [exact Hst'|].
  assert (Hc : forallb st cs = forallb st' cs).
  { apply forallb_ext_in. intros q Hq. apply Hag.
    rewrite Forall_forall in Hcs. now apply Hcs. }
  rewrite <- Hc. destruct (forallb st cs); auto.
  intros q Hq. unfold flip. destruct (UnitID_eqb q t); rewrite (Hag q Hq); auto.
Qed.

Lemma apply_involutive (D : Qubit -> Prop) (g : Command) (st : state) :
  wf_gate D g ->
  exists s1 s2, apply g st = Some s1 /\ apply g s1 = Some s2 /\ forall q, s2 q = st q.
Proof.
  intros Hwf.
  destruct (apply_wf st Hwf) as (cs & t & Hargs & Ht & Hcs & HDt & Hst).
  eexists; eexists; split; [exact Hst|].
  destruct (apply_wf (if forallb st cs then flip t st else st) Hwf)
    as (cs' & t' & Hargs' & _ & _ & _ & Hst').
  rewrite Hargs in Hargs'. apply app_inj_tail in Hargs' as [<- <-].
  split; [exact Hst'|].
  intros q. destruct (forallb st cs) eqn:Hc.
  - assert (Hc' : forallb (flip t st) cs = true).
    { rewrite <- Hc. apply forallb_ext_in. intros x Hx.
      apply flip_other. intros ->; contradiction. }
    rewrite Hc'. unfold flip. destruct (UnitID_eqb q t); auto. apply negb_involutive.
  - now rewrite Hc.
Qed.

Lemma run_wf (D : Qubit -> Prop) (gs : list Command) (st : state) :
  Forall (wf_gate D) gs -> exists s, run gs st = Some s.
Proof.
  intros Hwf; revert st; induction Hwf as [|g gs Hg _ IH]; intros st; simpl; eauto.
  destruct (apply_wf st Hg) as (cs & t & _ & _ & _ & _ & ->). apply IH.
Qed.

Lemma run_agree (D : Qubit -> Prop) (gs : list Command) (st st' s : state) :
  Forall (wf_gate D) gs -> agree D st st' -> run gs st = Some s ->
  exists s', run gs st' = Some s' /\ agree D s s'.
Proof.
  intros Hwf; revert st st'; induction Hwf as [|g gs Hg _ IH]; intros st st' Hag Hrun.
  - simpl in *. injection Hrun as <-. eauto.
  - simpl in Hrun. destruct (apply g st) as [a|] eqn:Ha; [|discriminate].
    destruct (apply_agree Hg Hag Ha) as (a' & Ha' & Hag').
    simpl. rewrite Ha'. eapply IH; eauto.
Qed.

(** A circuit of well-formed CnX gates followed by its reverse is the identity. *)
Lemma run_inverse (D : Qubit -> Prop) (gs : list Command) (st : state) :
  Forall (wf_gate D) gs ->
  exists s1 s2,
    run gs st = Some s1 /\ run (rev gs) s1 = Some s2 /\ forall q, s2 q = st q.
Proof.
  intros Hwf; revert st; induction Hwf as [|g gs Hg Hgs IH]; intros st.
  - exists st, st. simpl. auto.
  - destruct (apply_involutive st Hg) as (a & a2 & Ha & Ha2 & Hinv).
    destruct (IH a) as (s1 & s2 & Hrun & Hrev & Hid).
    exists s1. simpl. rewrite Ha, Hrun, run_app, Hrev. simpl.
    assert (Hag : agree (fun _ => True) a s2) by (intros q _; now rewrite Hid).
    destruct (@apply_agree (fun _ => True) g a s2 a2) as (s3 & Hs3 & Hag3); auto.
    { eapply wf_gate_weaken; [|exact Hg]. auto. }
    rewrite Hs3. eexists; repeat split; eauto.
    intros q. rewrite <- (Hag3 q I). apply Hinv.
Qed.

(** Conjugating a step that only changes the qubit [a] by a circuit that
    never touches [a] changes at most [a]. *)
Lemma run_conjugate (a : Qubit) (gs mid : list Command) (st : state) :
  Forall (wf_gate (fun q => q <> a)) gs ->
  (forall s, exists s', run mid s = Some s' /\ forall q, q <> a -> s' q = s q) ->
  exists s3,
    run (gs ++ mid ++ rev gs) st = Some s3 /\ forall q, q <> a -> s3 q = st q.
Proof.
  intros Hwf Hmid.
  destruct (run_inverse st Hwf) as (s1 & s1' & Hrun & Hrev & Hid).
  destruct (Hmid s1) as (s2 & Hrun2 & Hsame).
  assert (Hag : agree (fun q => q <> a) s1 s2) by (intros q Hq; now rewrite Hsame).
  assert (Hwf' : Forall (wf_gate (fun q => q <> a)) (rev gs)).
  { apply Forall_rev; auto. }
  destruct (run_agree Hwf' Hag Hrev) as (s3 & Hrun3 & Hag3).
  exists s3. rewrite run_app, Hrun, run_app, Hrun2, Hrun3. split; auto.
  intros q Hq. rewrite <- (Hag3 q Hq). apply Hid.
Qed.

(* ================================================================= *)
(** ** The registers are distinct qubits *)

Lemma str_inj (i j : nat) : Py.str i = Py.str j -> i = j.
Proof.
  unfold Py.str. intros H.
  apply Unsigned.to_uint_inj.
  assert (H' : NilEmpty.uint_of_string (NilEmpty.string_of_uint (Nat.to_uint i))
               = NilEmpty.uint_of_string (NilEmpty.string_of_uint (Nat.to_uint j)))
    by now rewrite H.
  rewrite !NilEmpty.usu in H'. now injection H'.
Qed.

Lemma U_label_inj (i j : nat) : U_label i = U_label j -> i = j.
Proof. unfold U_label; simpl. intros [= H]. now apply str_inj. Qed.

Lemma U_label_not_S (i : nat) : String.prefix (U_label i) "S" = false.
Proof. reflexivity. Qed.

Lemma U_label_not_anc (i : nat) : String.prefix (U_label i) "anc" = false.
Proof. reflexivity. Qed.

Lemma fold_left_app_flat_map (A B : Type) (f : A -> list B) (l : list A) (acc : list B) :
  fold_left (fun acc x => acc ++ f x) l acc = acc ++ flat_map f l.
Proof.
  revert acc; induction l as [|x l IH]; intros acc; simpl.
  - now rewrite app_nil_r.
  - now rewrite IH, <- app_assoc.
Qed.

Lemma NoDup_flat_map (A B : Type) (f : A -> list B) (l : list A) :
  NoDup l -> (forall x, In x l -> NoDup (f x)) ->
  (forall x y z, In x l -> In y l -> In z (f x) -> In z (f y) -> x = y) ->
  NoDup (flat_map f l).
Proof.
  induction 1 as [|a l Ha Hl IH]; intros Hf Hdis; simpl; [constructor|].
  apply NoDup_app.
  - apply Hf; now left.
  - apply IH.
    + intros; apply Hf; now right.
    + intros x y z Hx Hy; apply Hdis; now right.
  - intros z Hz Hin. apply in_flat_map in Hin as (y & Hy & Hzy).
    assert (a = y) by (apply (Hdis a y z); simpl; auto).
    subst. contradiction.
Qed.

Section Registers.

Variable E : Type.
Variable K : Type.
Variable self : Solver E K.

Lemma make_u_qubits_eq :
  make_u_qubits self = flat_map (counter_register self) (seq 0 (u_size self)).
Proof. unfold make_u_qubits. now rewrite fold_left_app_flat_map. Qed.

Lemma In_make_s_qubits (q : Qubit) :
  In q (make_s_qubits self) <-> exists j, j < s_size self /\ q = qubit "S" j.
Proof.
  unfold make_s_qubits. rewrite in_map_iff. split.
  - intros (j & <- & Hj). apply in_seq in Hj. exists j. split; auto; lia.
  - intros (j & Hj & ->). exists j. split; auto. apply in_seq. lia.
Qed.

Lemma In_counter_register (i : nat) (q : Qubit) :
  In q (counter_register self i) <-> exists j, j < b self /\ q = qubit (U_label i) j.
Proof.
  unfold counter_register. rewrite in_map_iff. split.
  - intros (j & <- & Hj). apply in_seq in Hj. exists j. split; auto; lia.
  - intros (j & Hj & ->). exists j. split; auto. apply in_seq. lia.
Qed.

Lemma In_make_u_qubits (q : Qubit) :
  In q (make_u_qubits self)
  <-> exists i j, i < u_size self /\ j < b self /\ q = qubit (U_label i) j.
Proof.
  rewrite make_u_qubits_eq, in_flat_map. split.
  - intros (i & Hi & Hq). apply in_seq in Hi. apply In_counter_register in Hq.
    destruct Hq as (j & Hj & ->). exists i, j. repeat split; auto; lia.
  - intros (i & j & Hi & Hj & ->). exists i. split.
    + apply in_seq; lia.
    + apply In_counter_register. eauto.
Qed.

Lemma NoDup_counter_register (i : nat) : NoDup (counter_register self i).
Proof.
  unfold counter_register. apply NoDup_map_NoDup_ForallPairs; [|apply seq_NoDup].
  intros x y _ _ [= ?]. assumption.
Qed.

Lemma NoDup_make_s_qubits : NoDup (make_s_qubits self).
Proof.
  unfold make_s_qubits. apply NoDup_map_NoDup_ForallPairs; [|apply seq_NoDup].
  intros x y _ _ [= ?]. assumption.
Qed.

Lemma NoDup_make_u_qubits : NoDup (make_u_qubits self).
Proof.
  rewrite make_u_qubits_eq. apply NoDup_flat_map.
  - apply seq_NoDup.
  - intros; apply NoDup_counter_register.
  - intros x y z _ _ Hx Hy.
    apply In_counter_register in Hx as (j & _ & ->).
    apply In_counter_register in Hy as (j' & _ & Heq).
    apply (f_equal reg_name) in Heq. now apply U_label_inj.
Qed.

(** All the qubits [_build_circuit] allocates are distinct. *)
Lemma NoDup_all_qubits :
  NoDup (make_s_qubits self ++ make_u_qubits self ++ [qubit0 "anc"]).
Proof.
  apply NoDup_app; [apply NoDup_make_s_qubits| |].
  - apply NoDup_app; [apply NoDup_make_u_qubits|repeat constructor; easy|].
    intros q Hq [<-|[]]. apply In_make_u_qubits in Hq as (i & j & _ & _ & Heq).
    discriminate Heq.
  - intros q Hq Hin. apply In_make_s_qubits in Hq as (j & _ & ->).
    apply in_app_or in Hin as [Hin|[Heq|[]]].
    + apply In_make_u_qubits in Hin as (i & j' & _ & _ & Heq). discriminate Heq.
    + discriminate Heq.
Qed.

End Registers.

Lemma In_register (cc : Circuit) (label : string) (q : Qubit) :
  In q (register cc label)
  <-> In q (qubit_ids cc) /\ String.prefix label (reg_name q) = true.
Proof.
  unfold register, qubits. rewrite filter_In. split; intros [Hin Hp]; split; auto.
  - eapply Permutation_in; [apply Permutation_sym, UnitSort.Permuted_sort|exact Hin].
  - eapply Permutation_in; [apply UnitSort.Permuted_sort|exact Hin].
Qed.

Lemma NoDup_register (cc : Circuit) (label : string) :
  NoDup (qubit_ids cc) -> NoDup (register cc label).
Proof.
  intros Hnd. unfold register, qubits. apply NoDup_filter.
  eapply Permutation_NoDup; [apply UnitSort.Permuted_sort|exact Hnd].
Qed.

(* ================================================================= *)
(** ** The counter's gates are well formed *)

Lemma ladder_In (reg ctrl l : list Qubit) :
  In l (ladder ctrl reg) ->
  exists pre post, reg = pre ++ post /\ pre <> [] /\ l = ctrl ++ pre.
Proof.
  revert ctrl; induction reg as [|r reg IH]; intros ctrl; simpl; [easy|].
  intros [<-|Hin].
  - exists [r], reg. repeat split; auto. discriminate.
  - destruct (IH _ Hin) as (pre & post & -> & Hne & ->).
    exists (r :: pre), post. repeat split; auto; [discriminate|].
    now rewrite <- app_assoc.
Qed.

Section CounterGates.

Variable E : Type.
Variable E_eq_dec : forall x y : E, {x = y} + {x <> y}.
Variable K : Type.
Variable self : Solver E K.

Lemma register_NoDup_S (j i : nat) :
  NoDup (qubit "S" j :: register (count_circuit0 self) (U_label i)).
Proof.
  constructor.
  - intros Hin. apply In_register in Hin as [_ Hp].
    cbn [reg_name qubit] in Hp. now rewrite U_label_not_S in Hp.
  - apply NoDup_register. simpl.
    eapply NoDup_app_remove_r. rewrite <- app_assoc. apply NoDup_all_qubits.
Qed.

Lemma increment_wf (j : nat) (e : E) :
  Forall (wf_gate (fun q => q <> qubit0 "anc"))
         (increment E_eq_dec self (count_circuit0 self) j e).
Proof.
  unfold increment, element_register.
  set (i := position E_eq_dec e (universe self)).
  apply Forall_map, Forall_rev, Forall_forall. intros l Hl.
  apply ladder_In in Hl as (pre & post & Hreg & Hne & ->).
  pose proof (register_NoDup_S j i) as Hnd. rewrite Hreg in Hnd.
  repeat split; cbn [gate op args].
  - discriminate.
  - change ([qubit "S" j] ++ pre) with (qubit "S" j :: pre).
    change (qubit "S" j :: pre ++ post) with ((qubit "S" j :: pre) ++ post) in Hnd.
    now apply NoDup_app_remove_r in Hnd.
  - apply Forall_forall. intros q [<-|Hq]; [discriminate|].
    assert (Hin : In q (register (count_circuit0 self) (U_label i))).
    { rewrite Hreg. apply in_or_app. now left. }
    apply In_register in Hin as [_ Hp].
    intros ->. cbn [reg_name qubit0] in Hp. now rewrite U_label_not_anc in Hp.
Qed.

Lemma counter_blocks_wf (j : nat) (subs : list (K * list E)) :
  Forall (wf_gate (fun q => q <> qubit0 "anc"))
         (counter_blocks E_eq_dec self (count_circuit0 self) j subs).
Proof.
  revert j; induction subs as [|s subs IH]; intros j; simpl; auto.
  apply Forall_app; split; auto.
  unfold subset_block. apply Forall_flat_map, Forall_forall.
  intros e _. apply increment_wf.
Qed.

Lemma counter_commands_wf :
  Forall (wf_gate (fun q => q <> qubit0 "anc")) (counter_commands E_eq_dec self).
Proof. apply counter_blocks_wf. Qed.

End CounterGates.

(* ================================================================= *)
(** ** The oracle on basis states *)

Lemma run_X (qs : list Qubit) (st : state) :
  run (map (fun q => gate X [q]) qs) st = Some (flip_all qs st).
Proof. revert st; induction qs as [|q qs IH]; intros st; simpl; auto. Qed.

Lemma flip_all_out (qs : list Qubit) (st : state) (q : Qubit) :
  ~ In q qs -> flip_all qs st q = st q.
Proof.
  revert st; induction qs as [|x qs IH]; intros st Hq; simpl; auto.
  unfold flip_all in IH. rewrite IH by (simpl in Hq; tauto).
  apply flip_other. intros ->. apply Hq. now left.
Qed.

Lemma flip_all_in (qs : list Qubit) (st : state) (q : Qubit) :
  NoDup qs -> In q qs -> flip_all qs st q = negb (st q).
Proof.
  intros Hnd; revert st; induction Hnd as [|x qs Hx Hnd IH]; intros st Hq; [easy|].
  simpl. destruct Hq as [->|Hq].
  - fold (flip_all qs (flip q st)). rewrite flip_all_out by auto. apply flip_same.
  - unfold flip_all in IH. rewrite IH by auto.
    rewrite flip_other; auto. intros ->; contradiction.
Qed.

Lemma run_oracle (us : list Qubit) (a : Qubit) (st : state) :
  NoDup us -> ~ In a us ->
  exists st',
    run (oracle_commands us a) st = Some st'
    /\ st' a = xorb (st a) (forallb (seen st) us)
    /\ forall q, q <> a -> st' q = st q.
Proof.
  intros Hnd Ha. unfold oracle_commands, X_gates.
  set (xs := filter nonzero_bit us).
  assert (Hxs : NoDup xs) by now apply NoDup_filter.
  assert (Haxs : ~ In a xs).
  { intros Hin. apply filter_In in Hin as [Hin _]. contradiction. }
  rewrite run_app, run_X. cbn [run]. unfold apply at 1. cbn [gate op args].
  rewrite target_controls_snoc, run_X.
  eexists; split; [reflexivity|].
  assert (Hseen : forallb (flip_all xs st) us = forallb (seen st) us).
  { apply forallb_ext_in. intros q Hq. unfold seen.
    destruct (nonzero_bit q) eqn:Hnz.
    - apply flip_all_in; auto. apply filter_In. auto.
    - apply flip_all_out. intros Hin. apply filter_In in Hin as [_ Hin]. congruence. }
  rewrite Hseen. split.
  - rewrite flip_all_out by auto.
    destruct (forallb (seen st) us).
    + rewrite flip_same, flip_all_out by auto. now destruct (st a).
    + rewrite flip_all_out by auto. now destruct (st a).
  - intros q Hq.
    set (mid := if forallb (seen st) us then flip a (flip_all xs st) else flip_all xs st).
    assert (Hmid : mid q = flip_all xs st q).
    { unfold mid. destruct (forallb (seen st) us); auto. now apply flip_other. }
    destruct (in_dec UnitID_eq_dec q xs) as [Hin|Hout].
    + rewrite flip_all_in, Hmid, flip_all_in by auto. apply negb_involutive.
    + now rewrite flip_all_out, Hmid, flip_all_out by auto.
Qed.

Section OracleCondition.

Variable E : Type.
Variable K : Type.
Variable self : Solver E K.

Lemma forallb_flat_map (A B : Type) (f : B -> bool) (g : A -> list B) (l : list A) :
  forallb f (flat_map g l) = forallb (fun x => forallb f (g x)) l.
Proof.
  induction l as [|x l IH]; simpl; auto. now rewrite forallb_app, IH.
Qed.

Lemma seen_register (st : state) (i : nat) :
  1 <= b self ->
  forallb (seen st) (counter_register self i)
  = (value st (counter_register self i) =? 1)%Z.
Proof.
  unfold counter_register. destruct (b self) as [|b']; [lia|]. intros _.
  cbn [seq map forallb value].
  set (rest := map (qubit (U_label i)) (seq 1 b')).
  assert (Hrest : forallb (seen st) rest = true <-> value st rest = 0%Z).
  { rewrite value_zero, forallb_forall. split; intros H q Hq.
    - specialize (H q Hq). unfold rest in Hq. apply in_map_iff in Hq as (j & <- & Hj).
      apply in_seq in Hj. unfold seen, nonzero_bit, index0 in H. simpl in H.
      destruct j; [lia|]. simpl in H. now apply negb_true_iff in H.
    - specialize (H q Hq). unfold rest in Hq. apply in_map_iff in Hq as (j & <- & Hj).
      apply in_seq in Hj. unfold seen, nonzero_bit, index0. simpl.
      destruct j; [lia|]. simpl. now rewrite H. }
  unfold seen at 1, nonzero_bit, index0. cbn [qubit index nth Nat.eqb negb].
  pose proof (value_range st rest) as Hr.
  destruct (forallb (seen st) rest) eqn:Hf.
  - rewrite (proj1 Hrest eq_refl). destruct (st (qubit (U_label i) 0)); reflexivity.
  - destruct (Z.eq_dec (value st rest) 0) as [Hz|Hnz].
    + apply Hrest in Hz. congruence.
    + rewrite andb_false_r. symmetry. apply Z.eqb_neq.
      destruct (st (qubit (U_label i) 0)); cbn [Z.b2z]; lia.
Qed.

Lemma seen_all (st : state) :
  1 <= b self ->
  forallb (seen st) (make_u_qubits self) = every_counter_is_one self st.
Proof.
  intros Hb. rewrite make_u_qubits_eq, forallb_flat_map.
  unfold every_counter_is_one. apply forallb_ext_in. intros i _.
  now apply seen_register.
Qed.

End OracleCondition.

(* ================================================================= *)
(** ** What [__init__] and [resource_estimation] compute *)

Section Init.

Variables E K Puzzle : Type.
Variable puzzle_num_solutions : Puzzle -> Z.
Variable ExactCoverEncoding : Puzzle -> Encoding E K.
Variable QuantumSolver_init : Puzzle -> string -> option Z.

Lemma init_inv (puzzle : Puzzle) (encoding : string) (ns : option Z) (self : Solver E K) :
  __init__ puzzle_num_solutions ExactCoverEncoding QuantumSolver_init puzzle encoding ns
  = inr self ->
  universe self = enc_universe (ExactCoverEncoding puzzle)
  /\ u_size self = List.length (universe self)
  /\ s_size self = List.length (subsets self)
  /\ Py.ceil_log2 (s_size self) = inr (b self)
  /\ num_solutions self
     = match ns with
       | None => Some (puzzle_num_solutions puzzle)
       | Some _ => QuantumSolver_init puzzle encoding
       end.
Proof.
  unfold __init__. intros H.
  inv_bind H. inv_bind H. injection H as <-. simpl. auto.
Qed.

End Init.

Lemma ceil_log2_inv (n w : nat) :
  Py.ceil_log2 n = inr w -> 1 <= n /\ w = Z.to_nat (Z.log2_up (Z.of_nat n)).
Proof.
  destruct n; simpl; [discriminate|]. intros [= <-]. split; [lia|reflexivity].
Qed.

Section Estimate.

Variables E K : Type.
Variable mp : Mpmath.library.
Variable self : Solver E K.

(** The estimator in one equation: it reads the attribute, sets the global
    precision to 50 digits, evaluates the formula on [num_solutions] as it is,
    and raises only what the attribute read or [int()] raises. *)
Lemma resource_estimation_eq (g : Mpmath.context) :
  resource_estimation mp self g
  = match num_solutions self with
    | None => (inl (Py.AttributeError "num_solutions"), g)
    | Some n =>
      (k <- Mpmath.to_int mp (log_space_iterations mp self (Mpmath.mkContext 50) n) ;;
       Py.ret (estimate_of self k),
       Mpmath.mkContext 50)
    end.
Proof.
  unfold resource_estimation, get_num_solutions, log_space_iterations, estimate_of.
  destruct (num_solutions self) as [n|]; [|reflexivity].
  cbv [Mpmath.bind Mpmath.lift Mpmath.set_dps Mpmath.call Mpmath.ret Py.ret Py.bind].
  destruct (Mpmath.to_int mp _); reflexivity.
Qed.

End Estimate.

Section BuildFacts.

Variable E : Type.
Variable E_eq_dec : forall x y : E, {x = y} + {x <> y}.
Variable K : Type.
Variable self : Solver E K.

Lemma build_circuit_inv (o : Build) :
  _build_circuit E_eq_dec self = inr o ->
  covered E_eq_dec self = true
  /\ exists n, default_num_iterations self = inr n /\ o = built E_eq_dec self n.
Proof.
  rewrite build_circuit_eq. destruct (covered E_eq_dec self); [|discriminate].
  intros H. inv_bind H. injection H as <-. eauto.
Qed.

Lemma build_circuit_returns (n : Z) :
  covered E_eq_dec self = true -> default_num_iterations self = inr n ->
  _build_circuit E_eq_dec self = inr (built E_eq_dec self n).
Proof. intros Hc Hn. now rewrite build_circuit_eq, Hc, Hn. Qed.

Lemma length_flat_map_const (A B : Type) (f : A -> list B) (l : list A) (n : nat) :
  (forall x, In x l -> List.length (f x) = n) ->
  List.length (flat_map f l) = List.length l * n.
Proof.
  induction l as [|x l IH]; simpl; auto. intros H.
  rewrite length_app, IH, (H x); auto.
Qed.

Lemma length_make_u_qubits :
  List.length (make_u_qubits self) = u_size self * b self.
Proof.
  rewrite make_u_qubits_eq, (@length_flat_map_const _ _ _ _ (b self)).
  - now rewrite length_seq.
  - intros i _. unfold counter_register. now rewrite length_map, length_seq.
Qed.

Lemma filter_flat_map (A B : Type) (p : B -> bool) (f : A -> list B) (l : list A) :
  filter p (flat_map f l) = flat_map (fun x => filter p (f x)) l.
Proof.
  induction l as [|x l IH]; simpl; auto. now rewrite filter_app, IH.
Qed.

Lemma length_nonzero_register (i : nat) :
  List.length (filter nonzero_bit (counter_register self i)) = b self - 1.
Proof.
  unfold counter_register. destruct (b self) as [|b']; [reflexivity|].
  cbn [seq map filter]. unfold nonzero_bit at 1, index0; cbn.
  rewrite Nat.sub_0_r.
  assert (H : forall start len, 1 <= start ->
            filter nonzero_bit (map (qubit (U_label i)) (seq start len))
            = map (qubit (U_label i)) (seq start len)).
  { intros start len; revert start; induction len as [|len IH]; intros start Hs; auto.
    cbn [seq map filter]. unfold nonzero_bit at 1, index0; cbn.
    destruct start; [lia|]. cbn. f_equal. apply IH. lia. }
  now rewrite H, length_map, length_seq by lia.
Qed.

(** The oracle has one CnX and two X gates for each counter qubit of nonzero
    index. *)
Lemma length_oracle_commands :
  List.length (oracle_commands (make_u_qubits self) (qubit0 "anc"))
  = 1 + 2 * (u_size self * (b self - 1)).
Proof.
  unfold oracle_commands, X_gates.
  rewrite length_app. cbn [List.length]. rewrite !length_map.
  rewrite make_u_qubits_eq, filter_flat_map.
  rewrite (@length_flat_map_const _ _ _ _ (b self - 1)).
  - rewrite length_seq. lia.
  - intros i _. apply length_nonzero_register.
Qed.

End BuildFacts.

(* ================================================================= *)
(** ** The order of [Circuit.qubits] and the registers it yields *)

Lemma String_compare_as_OT (s1 s2 : string) :
  String.compare s1 s2 = String_as_OT.compare s1 s2.
Proof.
  revert s2; induction s1 as [|c1 s1 IH]; intros [|c2 s2];
    cbn [String.compare String_as_OT.compare]; try reflexivity.
Qed.

Lemma prefix_refl (s : string) : String.prefix s s = true.
Proof.
  induction s as [|c s IH]; simpl; auto.
  destruct (ascii_dec c c); [exact IH|contradiction].
Qed.

Lemma String_compare_refl (s : string) : String.compare s s = Eq.
Proof.
  pose proof (String.compare_antisym s s) as H.
  destruct (String.compare s s); simpl in H; congruence.
Qed.

Lemma String_compare_Lt_trans (s1 s2 s3 : string) :
  String.compare s1 s2 = Lt -> String.compare s2 s3 = Lt -> String.compare s1 s3 = Lt.
Proof.
  rewrite !String_compare_as_OT. intros H12 H23.
  exact (StrictOrder_Transitive (R := String_as_OT.lt) s1 s2 s3 H12 H23).
Qed.

Lemma index_leb_trans (l1 l2 l3 : list nat) :
  index_leb l1 l2 = true -> index_leb l2 l3 = true -> index_leb l1 l3 = true.
Proof.
  revert l2 l3; induction l1 as [|x l1 IH]; intros [|y l2] [|z l3]; simpl; auto;
    try discriminate.
  destruct (Nat.ltb_spec x y), (Nat.ltb_spec y x), (Nat.ltb_spec y z),
           (Nat.ltb_spec z y), (Nat.ltb_spec x z), (Nat.ltb_spec z x);
    try lia; try discriminate; auto.
  apply IH.
Qed.

Lemma index_leb_antisym (l1 l2 : list nat) :
  index_leb l1 l2 = true -> index_leb l2 l1 = true -> l1 = l2.
Proof.
  revert l2; induction l1 as [|x l1 IH]; intros [|y l2]; simpl; auto; try discriminate.
  destruct (Nat.ltb_spec x y), (Nat.ltb_spec y x); try lia; try discriminate.
  intros Hle Hge. f_equal; [lia|auto].
Qed.

Lemma unit_le_trans (p q r : UnitID) : unit_le p q -> unit_le q r -> unit_le p r.
Proof.
  unfold unit_le, UnitOrder.leb.
  destruct (String.compare (reg_name p) (reg_name q)) eqn:Hpq; try discriminate;
    destruct (String.compare (reg_name q) (reg_name r)) eqn:Hqr; try discriminate.
  - apply String.compare_eq_iff in Hpq, Hqr. rewrite Hpq, Hqr, String_compare_refl.
    apply index_leb_trans.
  - apply String.compare_eq_iff in Hpq. now rewrite Hpq, Hqr.
  - apply String.compare_eq_iff in Hqr. now rewrite <- Hqr, Hpq.
  - now rewrite (String_compare_Lt_trans _ _ _ Hpq Hqr).
Qed.

Lemma unit_le_antisym (p q : UnitID) : unit_le p q -> unit_le q p -> p = q.
Proof.
  unfold unit_le, UnitOrder.leb. rewrite (String.compare_antisym (reg_name q)).
  destruct (String.compare (reg_name p) (reg_name q)) eqn:Hpq; simpl; try discriminate.
  apply String.compare_eq_iff in Hpq. intros H1 H2.
  destruct p, q; simpl in *. f_equal; auto using index_leb_antisym.
Qed.

Lemma qubits_StronglySorted (c : Circuit) : StronglySorted unit_le (qubits c).
Proof.
  apply Sorted_StronglySorted.
  - intros p q r. apply unit_le_trans.
  - apply Sorted_LocallySorted_iff. exact (UnitSort.LocallySorted_sort (qubit_ids c)).
Qed.

Lemma StronglySorted_filter (A : Type) (R : A -> A -> Prop) (p : A -> bool) (l : list A) :
  StronglySorted R l -> StronglySorted R (filter p l).
Proof.
  induction 1 as [|a l Hl IH Ha]; simpl; [constructor|].
  destruct (p a); auto. constructor; auto.
  apply Forall_forall. intros x Hx. apply filter_In in Hx as [Hx _].
  rewrite Forall_forall in Ha. auto.
Qed.

(** Two duplicate-free lists sorted by an antisymmetric relation with the same
    elements are the same list. *)
Lemma StronglySorted_unique (A : Type) (R : A -> A -> Prop) (l1 l2 : list A) :
  (forall x y, R x y -> R y x -> x = y) ->
  StronglySorted R l1 -> StronglySorted R l2 -> NoDup l1 -> NoDup l2 ->
  (forall x, In x l1 <-> In x l2) -> l1 = l2.
Proof.
  intros Hanti H1; revert l2; induction H1 as [|a l1 Hl1 IH Ha];
    intros l2 H2 Hnd1 Hnd2 Hsame.
  - destruct l2 as [|b l2]; auto. exfalso. apply (Hsame b). now left.
  - destruct H2 as [|b l2 Hl2 Hb].
    + exfalso. apply (Hsame a). now left.
    + apply NoDup_cons_iff in Hnd1 as [Ha1 Hnd1].
      apply NoDup_cons_iff in Hnd2 as [Hb2 Hnd2].
      rewrite Forall_forall in Ha, Hb.
      assert (Hab : a = b).
      { destruct (proj1 (Hsame a) (or_introl eq_refl)) as [Heq|Hin]; [now symmetry|].
        destruct (proj2 (Hsame b) (or_introl eq_refl)) as [Heq|Hin']; [assumption|].
        apply Hanti; auto. }
      subst b. f_equal. apply IH; auto.
      intros x. split; intros Hx.
      * destruct (proj1 (Hsame x) (or_intror Hx)) as [<-|]; [contradiction|auto].
      * destruct (proj2 (Hsame x) (or_intror Hx)) as [<-|]; [contradiction|auto].
Qed.

Lemma U_label_prefix_small (i k : nat) :
  i < 10 -> k < 10 -> String.prefix (U_label i) (U_label k) = true -> i = k.
Proof.
  intros Hi Hk.
  do 10 (destruct i as [|i]; [do 10 (destruct k as [|k]; [vm_compute; congruence|]); lia|]).
  lia.
Qed.

Section SmallUniverse.

Variable E : Type.
Variable K : Type.
Variable self : Solver E K.

Lemma counter_register_sorted (i : nat) :
  StronglySorted unit_le (counter_register self i).
Proof.
  unfold counter_register. generalize 0 as start.
  induction (b self) as [|n IH]; intros start; simpl; constructor; auto.
  apply Forall_forall. intros q Hq. apply in_map_iff in Hq as (j & <- & Hj).
  apply in_seq in Hj. unfold unit_le, UnitOrder.leb. cbn [qubit reg_name index].
  rewrite String_compare_refl. simpl.
  destruct (Nat.ltb_spec start j); auto; lia.
Qed.

(** With at most ten elements no label is a prefix of another, and the
    register the counter selects for element [i] is that element's [b]
    qubits, low bit first. *)
Lemma register_small (i : nat) :
  u_size self <= 10 -> i < u_size self ->
  register (count_circuit0 self) (U_label i) = counter_register self i.
Proof.
  intros Hu Hi.
  apply (@StronglySorted_unique _ unit_le).
  - apply unit_le_antisym.
  - apply StronglySorted_filter, qubits_StronglySorted.
  - apply counter_register_sorted.
  - apply NoDup_register. simpl.
    eapply NoDup_app_remove_r. rewrite <- app_assoc. apply NoDup_all_qubits.
  - apply NoDup_counter_register.
  - intros q. rewrite In_register, In_counter_register. cbn [count_circuit0 qubit_ids].
    split.
    + intros [Hin Hp]. apply in_app_or in Hin as [Hin|Hin].
      * apply In_make_s_qubits in Hin as (j & _ & ->).
        cbn [reg_name qubit] in Hp. now rewrite U_label_not_S in Hp.
      * apply In_make_u_qubits in Hin as (k & j & Hk & Hj & ->).
        cbn [reg_name qubit] in Hp.
        apply U_label_prefix_small in Hp; try lia. subst k. eauto.
    + intros (j & Hj & ->). split.
      * apply in_or_app. right. apply In_make_u_qubits. eauto.
      * cbn [reg_name qubit]. apply prefix_refl.
Qed.

End SmallUniverse.

(* ================================================================= *)
(** ** Registers whose label is a prefix of other labels *)

Lemma StronglySorted_app (A : Type) (R : A -> A -> Prop) (l1 l2 : list A) :
  StronglySorted R l1 -> StronglySorted R l2 ->
  (forall x y, In x l1 -> In y l2 -> R x y) -> StronglySorted R (l1 ++ l2).
Proof.
  induction 1 as [|a l1 Hl1 IH Ha]; simpl; auto. intros H2 Hc.
  constructor.
  - apply IH; auto.
  - apply Forall_app; split; auto. apply Forall_forall. intros y Hy. apply Hc; auto.
Qed.

Lemma prefix_compare_Lt (s t : string) :
  String.prefix s t = true -> s <> t -> String.compare s t = Lt.
Proof.
  revert t; induction s as [|c s IH]; intros [|d t]; simpl; try congruence; auto.
  destruct (ascii_dec c d) as [->|]; [|discriminate].
  intros Hp Hne. unfold Ascii.compare. rewrite N.compare_refl.
  apply IH; auto. congruence.
Qed.

Lemma value_app (st : state) (r1 r2 : list Qubit) :
  value st (r1 ++ r2)
  = (value st r1 + 2 ^ Z.of_nat (List.length r1) * value st r2)%Z.
Proof.
  induction r1 as [|q r1 IH]; cbn [app value List.length].
  - change (2 ^ Z.of_nat 0)%Z with 1%Z. lia.
  - rewrite IH, Nat2Z.inj_succ, Z.pow_succ_r by lia. lia.
Qed.

Lemma value_inj (st st' : state) (reg : list Qubit) :
  value st reg = value st' reg -> forall q, In q reg -> st q = st' q.
Proof.
  induction reg as [|r reg IH]; cbn [value]; intros Hv q Hq; [destruct Hq|].
  assert (H : st r = st' r /\ value st reg = value st' reg).
  { destruct (st r), (st' r); cbn [Z.b2z] in Hv; split; auto; lia. }
  destruct H as [Hr Hreg]. destruct Hq as [<-|Hq]; auto.
Qed.

(** The increment over a register [low ++ high] is the increment of [low]
    when [low] does not overflow: [high] is left as it was. *)
Lemma run_increment_low (low high ctrl : list Qubit) (st : state) :
  NoDup (ctrl ++ low ++ high) ->
  (value st low + Z.b2z (forallb st ctrl) < 2 ^ Z.of_nat (List.length low))%Z ->
  exists st',
    run (map (gate CnX) (rev (ladder ctrl (low ++ high)))) st = Some st'
    /\ value st' low = (value st low + Z.b2z (forallb st ctrl))%Z
    /\ forall q, ~ In q low -> st' q = st q.
Proof.
  intros Hnd Hlt.
  destruct (@run_increment (low ++ high) ctrl st Hnd) as (st' & Hrun & Hval & Hout).
  exists st'. split; [exact Hrun|].
  rewrite !value_app, length_app, Nat2Z.inj_add, Z.pow_add_r in Hval by lia.
  pose proof (value_range st low) as Hl. pose proof (value_range st high) as Hh.
  pose proof (value_range st' low) as Hl'. pose proof (value_range st' high) as Hh'.
  set (n := (2 ^ Z.of_nat (List.length low))%Z) in *.
  set (m := (2 ^ Z.of_nat (List.length high))%Z) in *.
  set (c := Z.b2z (forallb st ctrl)) in *.
  assert (Hc : (0 <= c)%Z) by (unfold c; destruct (forallb st ctrl); simpl; lia).
  assert (Hn : (0 < n)%Z) by (unfold n; apply Z.pow_pos_nonneg; lia).
  assert (Hm : (n * value st high <= n * (m - 1))%Z)
    by (apply Z.mul_le_mono_nonneg_l; lia).
  rewrite Z.mod_small in Hval by lia.
  assert (Hhigh : value st' high = value st high) by nia.
  split; [nia|].
  intros q Hq. destruct (in_dec UnitID_eq_dec q high) as [Hin|Hnin].
  - now apply (value_inj _ _ _ Hhigh).
  - apply Hout. intros Hin. apply in_app_or in Hin. tauto.
Qed.

Section Spill.

Variable E : Type.
Variable K : Type.
Variable self : Solver E K.

Lemma In_spill (i : nat) (q : Qubit) :
  In q (spill self i)
  <-> In q (make_u_qubits self)
      /\ String.prefix (U_label i) (reg_name q) = true
      /\ reg_name q <> U_label i.
Proof.
  unfold spill. rewrite filter_In, In_register, negb_true_iff, String.eqb_neq.
  cbn [count_circuit0 qubit_ids]. rewrite in_app_iff. split.
  - intros [[[Hin|Hin] Hp] Hne]; auto.
    apply In_make_s_qubits in Hin as (j & _ & ->).
    cbn [reg_name qubit] in Hp. now rewrite U_label_not_S in Hp.
  - intros (Hin & Hp & Hne). auto.
Qed.

(** The qubits selected for element [i] are its own register, low bit first,
    followed by the qubits of the registers whose label extends [U_i]. *)
Lemma register_split (i : nat) :
  i < u_size self ->
  register (count_circuit0 self) (U_label i) = counter_register self i ++ spill self i.
Proof.
  intros Hi.
  assert (Hnd : NoDup (register (count_circuit0 self) (U_label i))).
  { apply NoDup_register. simpl.
    eapply NoDup_app_remove_r. rewrite <- app_assoc. apply NoDup_all_qubits. }
  apply (@StronglySorted_unique _ unit_le).
  - apply unit_le_antisym.
  - apply StronglySorted_filter, qubits_StronglySorted.
  - apply StronglySorted_app.
    + apply counter_register_sorted.
    + unfold spill, register.
      apply StronglySorted_filter, StronglySorted_filter, qubits_StronglySorted.
    + intros x y Hx Hy. apply In_counter_register in Hx as (j & _ & ->).
      apply In_spill in Hy as (_ & Hp & Hne).
      unfold unit_le, UnitOrder.leb. cbn [reg_name qubit].
      rewrite prefix_compare_Lt; auto.
  - exact Hnd.
  - apply NoDup_app.
    + apply NoDup_counter_register.
    + now apply NoDup_filter.
    + intros q Hq Hq'. apply In_counter_register in Hq as (j & _ & ->).
      apply In_spill in Hq' as (_ & _ & Hne). now apply Hne.
  - intros q. rewrite in_app_iff, In_spill, In_register, In_counter_register.
    cbn [count_circuit0 qubit_ids]. rewrite in_app_iff. split.
    + intros [[Hin|Hin] Hp].
      * apply In_make_s_qubits in Hin as (j & _ & ->).
        cbn [reg_name qubit] in Hp. now rewrite U_label_not_S in Hp.
      * destruct (string_dec (reg_name q) (U_label i)) as [Heq|Hne]; [left|right; auto].
        apply In_make_u_qubits in Hin as (k & j & Hk & Hj & ->).
        cbn [reg_name qubit] in Heq. apply U_label_inj in Heq. subst k. eauto.
    + intros [(j & Hj & ->)|(Hin & Hp & _)]; [|auto]. split.
      * right. apply In_make_u_qubits. eauto.
      * cbn [reg_name qubit]. apply prefix_refl.
Qed.

End Spill.

(* ================================================================= *)
(** ** What the counter computes *)

(** A circuit of gates that never touch [a] leaves [a] as it was. *)
Lemma run_untouched (a : Qubit) (gs : list Command) (st s : state) :
  Forall (wf_gate (fun q => q <> a)) gs -> run gs st = Some s -> s a = st a.
Proof.
  intros Hwf; revert st; induction Hwf as [|g gs Hg _ IH]; intros st Hrun.
  - simpl in Hrun. now injection Hrun as <-.
  - simpl in Hrun.
    destruct (apply_wf st Hg) as (cs & t & _ & _ & _ & Ht & Happ).
    rewrite Happ in Hrun. rewrite (IH _ Hrun).
    destruct (forallb st cs); auto. apply flip_other. congruence.
Qed.

Section Counting.

Variable E : Type.
Variable E_eq_dec : forall x y : E, {x = y} + {x <> y}.
Variable K : Type.
Variable self : Solver E K.

Lemma position_lt (e : E) (l : list E) :
  inb E_eq_dec e l = true -> position E_eq_dec e l < List.length l.
Proof.
  unfold inb. induction l as [|y l IH]; simpl; [discriminate|].
  destruct (E_eq_dec y e); simpl; [lia|]. intros H. apply IH in H. lia.
Qed.

Lemma counter_register_disjoint (i i' : nat) (q : Qubit) :
  In q (counter_register self i) -> In q (counter_register self i') -> i = i'.
Proof.
  intros H H'. apply In_counter_register in H as (j & _ & ->).
  apply In_counter_register in H' as (j' & _ & Heq).
  apply (f_equal reg_name) in Heq. now apply U_label_inj.
Qed.

Lemma counter_register_incl (i : nat) (q : Qubit) :
  i < u_size self -> In q (counter_register self i) -> In q (make_u_qubits self).
Proof.
  intros Hi H. apply In_counter_register in H as (j & Hj & ->).
  apply In_make_u_qubits. eauto.
Qed.

Lemma S_not_in_counter_register (i j : nat) :
  ~ In (qubit "S" j) (counter_register self i).
Proof. intros H. apply In_counter_register in H as (j' & _ & Heq). discriminate Heq. Qed.

Lemma length_counter_register (i : nat) :
  List.length (counter_register self i) = b self.
Proof. unfold counter_register. now rewrite length_map, length_seq. Qed.

Lemma occurrences_rev (i : nat) (l : list E) :
  occurrences E_eq_dec self i (rev l) = occurrences E_eq_dec self i l.
Proof.
  unfold occurrences. induction l as [|e l IH]; simpl; auto.
  rewrite filter_app, length_app, IH. simpl.
  destruct (position E_eq_dec e (universe self) =? i); simpl; lia.
Qed.

Lemma covering_count_ext (st st' : state) (i j : nat) (subs : list (K * list E)) :
  (forall k, st' (qubit "S" k) = st (qubit "S" k)) ->
  covering_count E_eq_dec self st' i j subs = covering_count E_eq_dec self st i j subs.
Proof.
  intros H. revert j; induction subs as [|s subs IH]; intros j; simpl; auto.
  now rewrite H, IH.
Qed.

Lemma covering_count_nonneg (st : state) (i j : nat) (subs : list (K * list E)) :
  (0 <= covering_count E_eq_dec self st i j subs)%Z.
Proof.
  revert j; induction subs as [|s subs IH]; intros j; simpl; [lia|].
  specialize (IH (S j)). destruct (st (qubit "S" j)); lia.
Qed.

Lemma S_not_in_make_u_qubits (k : nat) : ~ In (qubit "S" k) (make_u_qubits self).
Proof.
  intros H. apply In_make_u_qubits in H as (i & j & _ & _ & Heq). discriminate Heq.
Qed.

Hypothesis sized : u_size self = List.length (universe self).

(** The increments of one subset, as long as no counter overflows: every
    counter grows by the number of times the subset lists its element, if the
    subset is selected. *)
Lemma run_increments_exact (j : nat) (l : list E) (st : state) :
  (forall e, In e l -> inb E_eq_dec e (universe self) = true) ->
  (forall i, i < u_size self ->
     (value st (counter_register self i)
      + (if st (qubit "S" j) then Z.of_nat (occurrences E_eq_dec self i l) else 0)
      < 2 ^ Z.of_nat (b self))%Z) ->
  exists st',
    run (flat_map (increment E_eq_dec self (count_circuit0 self) j) l) st = Some st'
    /\ (forall i, i < u_size self ->
         value st' (counter_register self i)
         = (value st (counter_register self i)
            + (if st (qubit "S" j) then Z.of_nat (occurrences E_eq_dec self i l) else 0))%Z)
    /\ (forall q, ~ In q (make_u_qubits self) -> st' q = st q).
Proof.
  revert st; induction l as [|e l IH]; intros st Hin Hfit.
  - exists st. cbn [flat_map run]. repeat split; auto.
    intros i _. unfold occurrences. cbn [filter List.length Z.of_nat].
    destruct (st (qubit "S" j)); lia.
  - cbn [flat_map]. rewrite run_app.
    set (pe := position E_eq_dec e (universe self)).
    assert (Hpe : pe < u_size self).
    { rewrite sized. apply position_lt, Hin. now left. }
    assert (Hocc : forall i, occurrences E_eq_dec self i (e :: l)
                             = (if pe =? i then 1 else 0) + occurrences E_eq_dec self i l).
    { intros i. unfold occurrences. cbn [filter]. fold pe.
      destruct (pe =? i); reflexivity. }
    destruct (@run_increment_low (counter_register self pe) (spill self pe)
                [qubit "S" j] st) as (st1 & Hrun1 & Hval1 & Hout1).
    { change ([qubit "S" j] ++ counter_register self pe ++ spill self pe)
        with (qubit "S" j :: counter_register self pe ++ spill self pe).
      rewrite <- (register_split self Hpe). apply register_NoDup_S. }
    { rewrite length_counter_register. cbn [forallb]. rewrite andb_true_r.
      specialize (Hfit pe Hpe). rewrite Hocc, Nat.eqb_refl in Hfit.
      destruct (st (qubit "S" j)); cbn [Z.b2z]; lia. }
    unfold increment at 1, element_register. fold pe.
    rewrite (register_split self Hpe), Hrun1.
    cbn [forallb] in Hval1. rewrite andb_true_r in Hval1.
    assert (HS : st1 (qubit "S" j) = st (qubit "S" j))
      by apply Hout1, S_not_in_counter_register.
    assert (Hother : forall i, pe <> i ->
              value st1 (counter_register self i) = value st (counter_register self i)).
    { intros i Hne. apply value_ext_in. intros q Hq. apply Hout1. intros Hq'.
      apply Hne. eapply counter_register_disjoint; eauto. }
    destruct (IH st1) as (st' & Hrun & Hval & Hout).
    { intros; apply Hin; now right. }
    { intros i Hi. specialize (Hfit i Hi). rewrite Hocc in Hfit. rewrite HS.
      destruct (Nat.eqb_spec pe i) as [<-|Hne].
      - rewrite Hval1. destruct (st (qubit "S" j)); cbn [Z.b2z]; lia.
      - rewrite (Hother i Hne). exact Hfit. }
    exists st'. split; [exact Hrun|]. split.
    + intros i Hi. rewrite (Hval i Hi), HS, Hocc.
      destruct (Nat.eqb_spec pe i) as [<-|Hne].
      * rewrite Hval1. destruct (st (qubit "S" j)); cbn [Z.b2z]; lia.
      * now rewrite (Hother i Hne).
    + intros q Hq. rewrite Hout by exact Hq. apply Hout1.
      intros Hq'. apply Hq. eapply counter_register_incl; eauto.
Qed.

(** The whole counter, as long as no counter overflows: every counter grows
    by the number of selected subsets covering its element. *)
Lemma run_counter_blocks_exact (j : nat) (subs : list (K * list E)) (st : state) :
  forallb (fun s => forallb (fun e => inb E_eq_dec e (universe self)) (snd s)) subs = true ->
  (forall i, i < u_size self ->
     (value st (counter_register self i) + covering_count E_eq_dec self st i j subs
      < 2 ^ Z.of_nat (b self))%Z) ->
  exists st',
    run (counter_blocks E_eq_dec self (count_circuit0 self) j subs) st = Some st'
    /\ (forall i, i < u_size self ->
         value st' (counter_register self i)
         = (value st (counter_register self i) + covering_count E_eq_dec self st i j subs)%Z)
    /\ (forall q, ~ In q (make_u_qubits self) -> st' q = st q).
Proof.
  revert j st; induction subs as [|s subs IH]; intros j st Hcov Hfit.
  - exists st. cbn [counter_blocks run covering_count]. repeat split; auto.
    intros; lia.
  - cbn [forallb] in Hcov. apply andb_true_iff in Hcov as [Hs Hrest].
    cbn [counter_blocks]. rewrite run_app. unfold subset_block.
    cbn [covering_count] in Hfit.
    destruct (@run_increments_exact j (rev (snd s)) st) as (st1 & Hrun1 & Hval1 & Hout1).
    { intros e He. apply in_rev in He. rewrite forallb_forall in Hs. auto. }
    { intros i Hi. specialize (Hfit i Hi). rewrite occurrences_rev.
      pose proof (covering_count_nonneg st i (S j) subs). lia. }
    rewrite Hrun1.
    assert (Hcc : forall i, covering_count E_eq_dec self st1 i (S j) subs
                            = covering_count E_eq_dec self st i (S j) subs).
    { intros i. apply covering_count_ext. intros k.
      apply Hout1, S_not_in_make_u_qubits. }
    destruct (IH (S j) st1 Hrest) as (st' & Hrun & Hval & Hout).
    { intros i Hi. specialize (Hfit i Hi).
      rewrite (Hval1 i Hi), occurrences_rev, Hcc. lia. }
    exists st'. split; [exact Hrun|]. split.
    + intros i Hi. rewrite (Hval i Hi), (Hval1 i Hi), occurrences_rev, Hcc.
      cbn [covering_count]. lia.
    + intros q Hq. now rewrite Hout, Hout1.
Qed.

(** Counter, oracle, inverse counter, in terms of the state [s1] the counter
    leaves: the block toggles the ancilla exactly when every register then
    holds 1, and changes nothing else. *)
Lemma run_aux (st s1 : state) :
  1 <= b self ->
  run (counter_commands E_eq_dec self) st = Some s1 ->
  (forall q, ~ In q (make_u_qubits self) -> s1 q = st q) ->
  exists s3,
    run (counter_commands E_eq_dec self
         ++ oracle_commands (make_u_qubits self) (qubit0 "anc")
         ++ rev (counter_commands E_eq_dec self)) st = Some s3
    /\ s3 (qubit0 "anc") = xorb (st (qubit0 "anc")) (every_counter_is_one self s1)
    /\ forall q, q <> qubit0 "anc" -> s3 q = st q.
Proof.
  intros Hb Hrun1 Hout1.
  pose proof (counter_commands_wf E_eq_dec self) as Hwf.
  pose proof (NoDup_all_qubits self) as Hnd.
  apply NoDup_app_remove_l in Hnd.
  assert (Hanc : ~ In (qubit0 "anc") (make_u_qubits self)).
  { intros Hin. apply (NoDup_app_disjoint _ _ Hnd _ Hin). now left. }
  destruct (@run_oracle (make_u_qubits self) (qubit0 "anc") s1)
    as (s2 & Hrun2 & Hanc2 & Hrest2); [now apply NoDup_app_remove_r in Hnd|exact Hanc|].
  destruct (run_inverse st Hwf) as (s1' & s0 & Hrun1' & Hrev & Hid).
  rewrite Hrun1 in Hrun1'. injection Hrun1' as <-.
  assert (Hag : agree (fun q => q <> qubit0 "anc") s1 s2)
    by (intros q Hq; now rewrite Hrest2).
  assert (Hwf' : Forall (wf_gate (fun q => q <> qubit0 "anc"))
                        (rev (counter_commands E_eq_dec self)))
    by now apply Forall_rev.
  destruct (run_agree Hwf' Hag Hrev) as (s3 & Hrun3 & Hag3).
  exists s3. rewrite run_app, Hrun1, run_app, Hrun2, Hrun3.
  split; [reflexivity|]. split.
  - rewrite (run_untouched _ Hwf' Hrun3), Hanc2, (Hout1 _ Hanc).
    now rewrite seen_all by exact Hb.
  - intros q Hq. rewrite <- (Hag3 q Hq). apply Hid.
Qed.

Lemma counters_at_zero (st : state) (i : nat) :
  (forall q, In q (make_u_qubits self) -> st q = false) ->
  i < u_size self -> value st (counter_register self i) = 0%Z.
Proof.
  intros Hzero Hi. apply value_zero. intros q Hq. apply Hzero.
  eapply counter_register_incl; eauto.
Qed.

(** Counter, oracle, inverse counter: in every built instance with [b >= 1],
    from counters at zero, and as long as no count reaches [2^b], the block
    toggles the ancilla exactly when the selected subsets cover every element
    exactly once, and changes nothing else. *)
Theorem aux_marks_exact_covers (o : Build) (st : state) :
  _build_circuit E_eq_dec self = inr o ->
  1 <= b self ->
  (forall q, In q (u_qubits o) -> st q = false) ->
  (forall i, i < u_size self ->
     (covering_count E_eq_dec self st i 0 (subsets self) < 2 ^ Z.of_nat (b self))%Z) ->
  exists s3,
    run (commands (aux_circ o)) st = Some s3
    /\ s3 (anc o) = xorb (st (anc o)) (exact_cover E_eq_dec self st)
    /\ forall q, q <> anc o -> s3 q = st q.
Proof.
  intros Hbuild Hb Hzero Hfit.
  apply build_circuit_inv in Hbuild as (Hcov & n & _ & ->).
  cbn [built aux_circ commands anc u_qubits] in *.
  destruct (@run_counter_blocks_exact 0 (subsets self) st Hcov)
    as (s1 & Hrun1 & Hval1 & Hout1).
  { intros i Hi. rewrite (counters_at_zero st Hzero Hi). now apply Hfit. }
  destruct (run_aux st Hb Hrun1 Hout1) as (s3 & Hrun3 & Hanc3 & Hrest3).
  exists s3. split; [exact Hrun3|]. split; [|exact Hrest3].
  rewrite Hanc3. f_equal.
  unfold every_counter_is_one, exact_cover. apply forallb_ext_in.
  intros i Hi. apply in_seq in Hi.
  rewrite Hval1, (counters_at_zero st Hzero) by lia. reflexivity.
Qed.

Hypothesis small : u_size self <= 10.

Lemma run_increments_mod (j : nat) (l : list E) (st : state) :
  (forall e, In e l -> inb E_eq_dec e (universe self) = true) ->
  exists st',
    run (flat_map (increment E_eq_dec self (count_circuit0 self) j) l) st = Some st'
    /\ (forall i, i < u_size self ->
         value st' (counter_register self i)
         = ((value st (counter_register self i)
             + (if st (qubit "S" j) then Z.of_nat (occurrences E_eq_dec self i l) else 0))
            mod 2 ^ Z.of_nat (b self))%Z)
    /\ (forall q, ~ In q (make_u_qubits self) -> st' q = st q).
Proof.
  revert st; induction l as [|e l IH]; intros st Hin.
  - exists st. cbn [flat_map run]. repeat split; auto.
    intros i _. unfold occurrences. cbn [filter List.length Z.of_nat].
    pose proof (value_range st (counter_register self i)) as Hr.
    rewrite length_counter_register in Hr.
    destruct (st (qubit "S" j)); rewrite Z.add_0_r, Z.mod_small; auto.
  - cbn [flat_map]. rewrite run_app.
    set (pe := position E_eq_dec e (universe self)).
    assert (Hpe : pe < u_size self).
    { rewrite sized. apply position_lt, Hin. now left. }
    assert (Hreg : element_register E_eq_dec self (count_circuit0 self) e
                   = counter_register self pe)
      by (apply (register_small self small Hpe)).
    destruct (@run_increment (counter_register self pe) [qubit "S" j] st)
      as (st1 & Hrun1 & Hval1 & Hout1).
    { change ([qubit "S" j] ++ counter_register self pe)
        with (qubit "S" j :: counter_register self pe).
      rewrite <- (register_small self small Hpe). apply register_NoDup_S. }
    unfold increment at 1. rewrite Hreg, Hrun1.
    destruct (IH st1) as (st' & Hrun & Hval & Hout).
    { intros; apply Hin; now right. }
    exists st'. split; [exact Hrun|].
    assert (HS : st1 (qubit "S" j) = st (qubit "S" j))
      by apply Hout1, S_not_in_counter_register.
    cbn [forallb] in Hval1. rewrite andb_true_r, length_counter_register in Hval1.
    split.
    + intros i Hi. rewrite (Hval i Hi), HS.
      unfold occurrences. cbn [filter]. fold pe.
      destruct (Nat.eqb_spec pe i) as [<-|Hne].
      * rewrite Hval1. cbn [List.length]. fold (occurrences E_eq_dec self pe l).
        rewrite Z.add_mod_idemp_l by (apply Z.pow_nonzero; lia).
        f_equal. destruct (st (qubit "S" j)); cbn [Z.b2z]; lia.
      * fold (occurrences E_eq_dec self i l). f_equal. f_equal.
        apply value_ext_in. intros q Hq. apply Hout1. intros Hq'.
        apply Hne. eapply counter_register_disjoint; eauto.
    + intros q Hq. rewrite Hout by exact Hq. apply Hout1.
      intros Hq'. apply Hq. eapply counter_register_incl; eauto.
Qed.

Lemma run_counter_blocks_mod (j : nat) (subs : list (K * list E)) (st : state) :
  forallb (fun s => forallb (fun e => inb E_eq_dec e (universe self)) (snd s)) subs = true ->
  exists st',
    run (counter_blocks E_eq_dec self (count_circuit0 self) j subs) st = Some st'
    /\ (forall i, i < u_size self ->
         value st' (counter_register self i)
         = ((value st (counter_register self i) + covering_count E_eq_dec self st i j subs)
            mod 2 ^ Z.of_nat (b self))%Z)
    /\ (forall q, ~ In q (make_u_qubits self) -> st' q = st q).
Proof.
  revert j st; induction subs as [|s subs IH]; intros j st Hcov.
  - exists st. cbn [counter_blocks run covering_count]. repeat split; auto.
    intros i _. pose proof (value_range st (counter_register self i)) as Hr.
    rewrite length_counter_register in Hr. now rewrite Z.add_0_r, Z.mod_small.
  - cbn [forallb] in Hcov. apply andb_true_iff in Hcov as [Hs Hrest].
    cbn [counter_blocks]. rewrite run_app. unfold subset_block.
    destruct (@run_increments_mod j (rev (snd s)) st) as (st1 & Hrun1 & Hval1 & Hout1).
    { intros e He. apply in_rev in He. rewrite forallb_forall in Hs. auto. }
    rewrite Hrun1.
    destruct (IH (S j) st1 Hrest) as (st' & Hrun & Hval & Hout).
    exists st'. split; [exact Hrun|]. split.
    + intros i Hi. rewrite (Hval i Hi), (Hval1 i Hi), occurrences_rev.
      rewrite (@covering_count_ext st st1)
        by (intros k; apply Hout1, S_not_in_make_u_qubits).
      rewrite Z.add_mod_idemp_l by (apply Z.pow_nonzero; lia).
      cbn [covering_count]. f_equal. lia.
    + intros q Hq. now rewrite Hout, Hout1.
Qed.

(** With at most ten elements a count of [2^b] wraps to 0, which is not 1,
    and the block marks the exact covers whenever no count exceeds [2^b]: as
    when no subset lists an element twice, the counts being at most
    [s_size <= 2^b]. *)
Theorem aux_marks_exact_covers_small (o : Build) (st : state) :
  _build_circuit E_eq_dec self = inr o ->
  1 <= b self ->
  (forall q, In q (u_qubits o) -> st q = false) ->
  (forall i, i < u_size self ->
     (covering_count E_eq_dec self st i 0 (subsets self) <= 2 ^ Z.of_nat (b self))%Z) ->
  exists s3,
    run (commands (aux_circ o)) st = Some s3
    /\ s3 (anc o) = xorb (st (anc o)) (exact_cover E_eq_dec self st)
    /\ forall q, q <> anc o -> s3 q = st q.
Proof.
  intros Hbuild Hb Hzero Hfit.
  apply build_circuit_inv in Hbuild as (Hcov & n & _ & ->).
  cbn [built aux_circ commands anc u_qubits] in *.
  destruct (@run_counter_blocks_mod 0 (subsets self) st Hcov)
    as (s1 & Hrun1 & Hval1 & Hout1).
  destruct (run_aux st Hb Hrun1 Hout1) as (s3 & Hrun3 & Hanc3 & Hrest3).
  exists s3. split; [exact Hrun3|]. split; [|exact Hrest3].
  rewrite Hanc3. f_equal.
  unfold every_counter_is_one, exact_cover. apply forallb_ext_in.
  intros i Hi. apply in_seq in Hi.
  rewrite Hval1, (counters_at_zero st Hzero) by lia. cbn [Z.add].
  specialize (Hfit i ltac:(lia)).
  pose proof (covering_count_nonneg st i 0 (subsets self)) as Hnn.
  assert (Hpow : (2 <= 2 ^ Z.of_nat (b self))%Z).
  { change 2%Z with (2 ^ 1)%Z at 1. apply Z.pow_le_mono_r; lia. }
  destruct (Z.eq_dec (covering_count E_eq_dec self st i 0 (subsets self)) (2 ^ Z.of_nat (b self)))
    as [Heq|Hne].
  - rewrite Heq, Z.mod_same by lia.
    symmetry. apply Z.eqb_neq. lia.
  - rewrite Z.mod_small by lia. reflexivity.
Qed.

End Counting.

(** On two disjoint subsets that cover the universe together, the block marks
    the selection of both and not the selection of the first alone. *)
Example pair_marked :
  Scenario.new Scenario.pair_encoding 1 None = inr Scenario.pair
  /\ match _build_circuit Nat.eq_dec Scenario.pair with
     | inr o =>
       (option_map (fun st : state => st (anc o))
                   (run (commands (aux_circ o)) Scenario.all_selected),
        option_map (fun st : state => st (anc o))
                   (run (commands (aux_circ o)) Scenario.first_selected))
     | inl _ => (None, None)
     end = (Some true, Some false)
  /\ exact_cover Nat.eq_dec Scenario.pair Scenario.all_selected = true
  /\ exact_cover Nat.eq_dec Scenario.pair Scenario.first_selected = false.
Proof. repeat split; vm_compute; reflexivity. Qed.

(** With eleven elements the label of element 1 is a prefix of the label of
    element 10, and the lookup for element 1 returns the qubits of both.  With
    both subsets selected the count of element 1 reaches [2^b] and its carry
    lands in the counter of element 10, which no subset covers. *)
Example prefix_lookup_spills :
  Scenario.new Scenario.eleven_encoding 1 None = inr Scenario.eleven
  /\ register (count_circuit0 Scenario.eleven) (U_label 1) = [qubit "U_1" 0; qubit "U_10" 0]
  /\ option_map (fun st => (value st (counter_register Scenario.eleven 1),
                            value st (counter_register Scenario.eleven 10)))
                (run (counter_commands Nat.eq_dec Scenario.eleven) Scenario.all_selected)
     = Some (0, 1)%Z
  /\ covering_count Nat.eq_dec Scenario.eleven Scenario.all_selected 10 0
                    (subsets Scenario.eleven) = 0%Z.
Proof. repeat split; vm_compute; reflexivity. Qed.

(* ================================================================= *)
(** ** The estimator over exact real arithmetic *)

Lemma exp_half (x : R) : exp (x / 2) = sqrt (exp x).
Proof.
  replace x with (x / 2 + x / 2)%R at 2 by lra.
  rewrite exp_plus, sqrt_square; [reflexivity|]. left. apply exp_pos.
Qed.

Lemma exp_nat_ln_2 (s : nat) : exp (IZR (Z.of_nat s) * ln 2) = (2 ^ s)%R.
Proof.
  induction s as [|s IH].
  - simpl. rewrite Rmult_0_l. apply exp_0.
  - rewrite Nat2Z.inj_succ, succ_IZR, Rmult_plus_distr_r, exp_plus, IH, Rmult_1_l.
    rewrite exp_ln by lra. simpl. lra.
Qed.

Section IdealEstimate.

Variables E K : Type.
Variable self : Solver E K.

(** Without rounding the log-space formula is the formula of the build:
    [floor((pi/4) * sqrt(2^s_size / num_solutions))]. *)
Lemma ideal_log_space_iterations (g : Mpmath.context) (n : Z) :
  (0 < n)%Z ->
  log_space_iterations Mpmath.ideal self g n
  = IZR (Zfloor (PI / 4 * sqrt (2 ^ s_size self / IZR n))).
Proof.
  intros Hn. apply IZR_lt in Hn.
  unfold log_space_iterations.
  cbn [Mpmath.ideal Mpmath.log Mpmath.exp Mpmath.floor Mpmath.add Mpmath.sub
       Mpmath.mul Mpmath.div Mpmath.pi Mpmath.of_int].
  do 2 f_equal.
  rewrite exp_plus, exp_ln, exp_half by (pose proof PI_RGT_0; lra).
  unfold Rminus. rewrite exp_plus, exp_Ropp, exp_ln, exp_nat_ln_2 by exact Hn.
  reflexivity.
Qed.

Lemma ideal_to_int (z : Z) : Mpmath.to_int Mpmath.ideal (IZR z) = inr z.
Proof.
  cbn [Mpmath.ideal Mpmath.to_int]. unfold Py.ret. f_equal.
  destruct (Rle_dec 0 (IZR z)); [apply ZfloorZ|].
  rewrite ZfloorNZ. lia.
Qed.

Lemma ideal_resource_estimation (g : Mpmath.context) (n : Z) :
  num_solutions self = Some n -> (0 < n)%Z ->
  resource_estimation Mpmath.ideal self g
  = (inr (estimate_of self (Zfloor (PI / 4 * sqrt (2 ^ s_size self / IZR n)))),
     Mpmath.mkContext 50).
Proof.
  intros Hattr Hn.
  rewrite resource_estimation_eq, Hattr, ideal_log_space_iterations by exact Hn.
  now rewrite ideal_to_int.
Qed.

End IdealEstimate.

Lemma PI_gt_3 : (3 < PI)%R.
Proof. pose proof PI2_3_2. lra. Qed.

(** On the scenario of the specification both counts are 2. *)
Example scenario_iteration_counts :
  default_num_iterations (Scenario.solver 1) = inr 2%Z
  /\ fst (resource_estimation Mpmath.ideal (Scenario.solver 1) (Mpmath.mkContext 15))
     = inr (estimate_of (Scenario.solver 1) 2).
Proof.
  split; [vm_compute; reflexivity|].
  rewrite (@ideal_resource_estimation _ _ (Scenario.solver 1) _ 1%Z eq_refl) by lia.
  cbn [fst]. do 2 f_equal. apply Zfloor_eq.
  change (s_size (Scenario.solver 1)) with 3.
  replace (2 ^ 3 / 1)%R with 8%R by lra.
  assert (Hlo : (14 / 5 < sqrt 8)%R).
  { rewrite <- (sqrt_square (14 / 5)) by lra. apply sqrt_lt_1; lra. }
  assert (Hhi : (sqrt 8 < 3)%R).
  { rewrite <- (sqrt_square 3) by lra. apply sqrt_lt_1; lra. }
  pose proof PI_gt_3. pose proof PI_4. split; nra.
Qed.

(** On 1024 subsets and one solution the estimator returns a count of at
    least [3 * 2^510]. *)
Lemma big_iterations_ideal :
  exists k,
    fst (resource_estimation Mpmath.ideal Scenario.big (Mpmath.mkContext 15))
    = inr (estimate_of Scenario.big k)
    /\ (3 * 2 ^ 510 <= k)%Z.
Proof.
  rewrite (@ideal_resource_estimation _ _ Scenario.big _ 1%Z eq_refl) by lia.
  eexists. split; [reflexivity|].
  apply Zfloor_lub.
  change (s_size Scenario.big) with (512 + 512).
  rewrite pow_add, Rdiv_1_r, sqrt_square by (apply pow_le; lra).
  rewrite mult_IZR. change 510%Z with (Z.of_nat 510). rewrite <- pow_IZR.
  change 512 with (2 + 510). rewrite pow_add.
  assert (Hpos : (0 < 2 ^ 510)%R) by (apply pow_lt; lra).
  pose proof PI_gt_3. simpl (2 ^ 2)%R. nra.
Qed.

(* ================================================================= *)
(** ** The assembly for a given number of iterations; sizes, frames and signs *)

Section Assembly.

Variable E : Type.
Variable E_eq_dec : forall x y : E, {x = y} + {x <> y}.
Variable K : Type.
Variable self : Solver E K.

(** [_assemble_full_circuit_w_meas] on the freshly allocated circuits, for
    either form of its argument. *)
Lemma assemble_eq (num_iterations : option Z) :
  _assemble_full_circuit_w_meas E_eq_dec self (allocate self) num_iterations
  = if covered E_eq_dec self
    then n <- match num_iterations with
              | None => default_num_iterations self
              | Some n => Py.ret n
              end ;;
         Py.ret (built E_eq_dec self n)
    else inl not_in_list.
Proof.
  unfold _assemble_full_circuit_w_meas, _assemble_aux_circ.
  rewrite allocate_eq; cbv zeta.
  rewrite build_counter_eq by reflexivity.
  destruct (covered E_eq_dec self); [|reflexivity].
  cbn [Py.bind]. rewrite build_oracle_eq.
  cbv [set_oracle set_count_circuit set_count_circuit_dag set_aux_circ
       main_circuit oracle diffuser count_circuit count_circuit_dag aux_circ
       s_qubits u_qubits anc count_circuit0].
  cbn [qubit_ids bit_ids commands].
  rewrite !append_incl by solve_incl.
  cbn [qubit_ids bit_ids commands].
  unfold Py.ret at 1. cbn [Py.bind].
  rewrite build_diffuser_eq.
  cbv [set_diffuser main_circuit oracle diffuser count_circuit count_circuit_dag
       aux_circ s_qubits u_qubits anc].
  cbn [qubit_ids bit_ids commands].
  destruct (match num_iterations with
            | None => default_num_iterations self
            | Some n => Py.ret n
            end) as [e|n]; [reflexivity|].
  cbn [Py.bind].
  rewrite iterate_append by (auto; solve_incl).
  cbn [qubit_ids bit_ids commands].
  unfold add_c_register; cbn [fst snd qubit_ids bit_ids commands].
  unfold make_s_qubits at 1.
  rewrite (@measure_loop _ (s_size self)) by (auto; lia).
  cbv [built measure_commands Py.ret set_main_circuit Py.bind
       main_circuit oracle diffuser count_circuit count_circuit_dag
       aux_circ s_qubits u_qubits anc].
  cbn [qubit_ids bit_ids commands app].
  now rewrite <- !app_assoc.
Qed.

End Assembly.

Lemma length_repeat_block (n : nat) (block : list Command) :
  List.length (repeat_block n block) = n * List.length block.
Proof.
  unfold repeat_block. induction n as [|n IH]; simpl; auto.
  rewrite length_app, IH. lia.
Qed.

Lemma length_diffuser_commands (s : list Qubit) :
  List.length (diffuser_commands s) = 4 * List.length s + 1.
Proof.
  unfold diffuser_commands. rewrite length_app. cbn [List.length].
  rewrite !(@length_flat_map_const _ _ _ _ 2) by reflexivity. lia.
Qed.

Lemma inb_In (E : Type) (E_eq_dec : forall x y : E, {x = y} + {x <> y})
    (x : E) (l : list E) :
  inb E_eq_dec x l = true <-> In x l.
Proof.
  unfold inb. rewrite existsb_exists. split.
  - intros (y & Hy & Heq). destruct (E_eq_dec y x); [now subst|discriminate].
  - intros Hx. exists x. split; auto. destruct (E_eq_dec x x); congruence.
Qed.

Lemma length_ladder (ctrl reg : list Qubit) :
  List.length (ladder ctrl reg) = List.length reg.
Proof.
  revert ctrl; induction reg as [|q reg IH]; intros ctrl; simpl; auto.
Qed.

Lemma counter_gates_eq (E K : Type) (self : Solver E K) :
  counter_gates self
  = (Z.of_nat (b self) * Z.of_nat (List.length (flat_map snd (subsets self))))%Z.
Proof.
  unfold counter_gates.
  assert (H : forall l acc,
             fold_left (fun acc s => (acc + Z.of_nat (List.length (snd s : list E))
                                            * Z.of_nat (b self))%Z) l acc
             = (acc + Z.of_nat (b self)
                      * Z.of_nat (List.length (flat_map snd (l : list (K * list E)))))%Z).
  { induction l as [|s l IH]; intros acc; simpl; [lia|].
    rewrite IH, length_app. lia. }
  rewrite H. lia.
Qed.

Section CounterSize.

Variable E : Type.
Variable E_eq_dec : forall x y : E, {x = y} + {x <> y}.
Variable K : Type.
Variable self : Solver E K.

Lemma length_increment (cc : Circuit) (j : nat) (e : E) :
  List.length (increment E_eq_dec self cc j e)
  = List.length (element_register E_eq_dec self cc e).
Proof. unfold increment. now rewrite length_map, length_rev, length_ladder. Qed.

Hypothesis sized : u_size self = List.length (universe self).

Lemma length_element_register (e : E) :
  inb E_eq_dec e (universe self) = true ->
  List.length (element_register E_eq_dec self (count_circuit0 self) e)
  = b self + List.length (spill self (position E_eq_dec e (universe self))).
Proof.
  intros Hin. unfold element_register.
  rewrite register_split by (rewrite sized; now apply position_lt).
  now rewrite length_app, length_counter_register.
Qed.

Lemma length_subset_block_ge (j : nat) (elems : list E) :
  forallb (fun e => inb E_eq_dec e (universe self)) elems = true ->
  b self * List.length elems
  <= List.length (subset_block E_eq_dec self (count_circuit0 self) j elems).
Proof.
  unfold subset_block. rewrite <- (length_rev elems).
  intros Hall. assert (Hrev : forall e, In e (rev elems) ->
                                        inb E_eq_dec e (universe self) = true).
  { intros e He. apply in_rev in He. rewrite forallb_forall in Hall. auto. }
  clear Hall. induction (rev elems) as [|e l IH]; simpl; [lia|].
  rewrite length_app, length_increment, length_element_register
    by (apply Hrev; now left).
  specialize (IH (fun x Hx => Hrev x (or_intror Hx))). lia.
Qed.

Lemma length_counter_blocks_ge (j : nat) (subs : list (K * list E)) :
  forallb (fun s => forallb (fun e => inb E_eq_dec e (universe self)) (snd s)) subs = true ->
  b self * List.length (flat_map snd subs)
  <= List.length (counter_blocks E_eq_dec self (count_circuit0 self) j subs).
Proof.
  revert j; induction subs as [|s subs IH]; intros j Hcov; simpl; [lia|].
  apply andb_true_iff in Hcov as [Hs Hrest].
  rewrite !length_app. specialize (IH (S j) Hrest).
  pose proof (length_subset_block_ge j (snd s) Hs). lia.
Qed.

Hypothesis small : u_size self <= 10.

Lemma length_subset_block_small (j : nat) (elems : list E) :
  forallb (fun e => inb E_eq_dec e (universe self)) elems = true ->
  List.length (subset_block E_eq_dec self (count_circuit0 self) j elems)
  = b self * List.length elems.
Proof.
  unfold subset_block. rewrite <- (length_rev elems).
  intros Hall. assert (Hrev : forall e, In e (rev elems) ->
                                        inb E_eq_dec e (universe self) = true).
  { intros e He. apply in_rev in He. rewrite forallb_forall in Hall. auto. }
  clear Hall. induction (rev elems) as [|e l IH]; simpl; [lia|].
  rewrite length_app, length_increment. unfold element_register.
  rewrite register_small, length_counter_register
    by (auto; rewrite sized; apply position_lt, Hrev; now left).
  rewrite (IH (fun x Hx => Hrev x (or_intror Hx))). lia.
Qed.

Lemma length_counter_blocks_small (j : nat) (subs : list (K * list E)) :
  forallb (fun s => forallb (fun e => inb E_eq_dec e (universe self)) (snd s)) subs = true ->
  List.length (counter_blocks E_eq_dec self (count_circuit0 self) j subs)
  = b self * List.length (flat_map snd subs).
Proof.
  revert j; induction subs as [|s subs IH]; intros j Hcov; simpl; [lia|].
  apply andb_true_iff in Hcov as [Hs Hrest].
  rewrite !length_app, (IH (S j) Hrest), (length_subset_block_small j (snd s) Hs). lia.
Qed.

End CounterSize.

Section CounterFrame.

Variable E : Type.
Variable E_eq_dec : forall x y : E, {x = y} + {x <> y}.
Variable K : Type.
Variable self : Solver E K.

Lemma register_in_u_qubits (label : nat) (q : Qubit) :
  In q (register (count_circuit0 self) (U_label label)) -> In q (make_u_qubits self).
Proof.
  intros Hq. apply In_register in Hq as [Hin Hp].
  cbn [count_circuit0 qubit_ids] in Hin. apply in_app_or in Hin as [Hin|Hin]; auto.
  apply In_make_s_qubits in Hin as (j & _ & ->).
  cbn [reg_name qubit] in Hp. now rewrite U_label_not_S in Hp.
Qed.

Lemma run_increments_frame (j : nat) (l : list E) (st : state) :
  exists st',
    run (flat_map (increment E_eq_dec self (count_circuit0 self) j) l) st = Some st'
    /\ forall q, ~ In q (make_u_qubits self) -> st' q = st q.
Proof.
  revert st; induction l as [|e l IH]; intros st.
  - exists st. split; auto.
  - cbn [flat_map]. rewrite run_app. unfold increment at 1, element_register.
    destruct (@run_increment
                (register (count_circuit0 self)
                          (U_label (position E_eq_dec e (universe self))))
                [qubit "S" j] st) as (st1 & Hrun1 & _ & Hout1).
    { apply register_NoDup_S. }
    rewrite Hrun1. destruct (IH st1) as (st' & Hrun & Hout).
    exists st'. split; [exact Hrun|].
    intros q Hq. rewrite Hout by exact Hq. apply Hout1.
    intros Hin. apply Hq. eapply register_in_u_qubits; eauto.
Qed.

Lemma run_counter_blocks_frame (j : nat) (subs : list (K * list E)) (st : state) :
  exists st',
    run (counter_blocks E_eq_dec self (count_circuit0 self) j subs) st = Some st'
    /\ forall q, ~ In q (make_u_qubits self) -> st' q = st q.
Proof.
  revert j st; induction subs as [|s subs IH]; intros j st.
  - exists st. split; auto.
  - cbn [counter_blocks]. rewrite run_app. unfold subset_block.
    destruct (run_increments_frame j (rev (snd s)) st) as (st1 & Hrun1 & Hout1).
    rewrite Hrun1. destruct (IH (S j) st1) as (st' & Hrun & Hout).
    exists st'. split; [exact Hrun|].
    intros q Hq. now rewrite Hout, Hout1.
Qed.

End CounterFrame.

Section Counts.

Variable E : Type.
Variable E_eq_dec : forall x y : E, {x = y} + {x <> y}.
Variable K : Type.
Variable self : Solver E K.

Lemma position_nth_error (e : E) (l : list E) :
  inb E_eq_dec e l = true -> nth_error l (position E_eq_dec e l) = Some e.
Proof.
  unfold inb. induction l as [|y l IH]; simpl; [discriminate|].
  destruct (E_eq_dec y e) as [->|Hne]; simpl; auto.
Qed.

Lemma position_inj (e e' : E) (l : list E) :
  inb E_eq_dec e l = true -> inb E_eq_dec e' l = true ->
  position E_eq_dec e l = position E_eq_dec e' l -> e = e'.
Proof.
  intros He He' Heq. apply position_nth_error in He, He'.
  rewrite Heq in He. congruence.
Qed.

Lemma occurrences_le_1 (i : nat) (elems : list E) :
  NoDup elems ->
  (forall e, In e elems -> inb E_eq_dec e (universe self) = true) ->
  occurrences E_eq_dec self i elems <= 1.
Proof.
  unfold occurrences. induction 1 as [|e l Hnotin Hnd IH]; intros Hin; simpl; [lia|].
  specialize (IH (fun x Hx => Hin x (or_intror Hx))).
  destruct (Nat.eqb_spec (position E_eq_dec e (universe self)) i) as [Hpos|Hpos];
    [|lia].
  cbn [List.length].
  assert (Hnone : filter (fun e0 => position E_eq_dec e0 (universe self) =? i) l = []).
  { clear IH. induction l as [|x l IHl]; simpl; auto.
    destruct (Nat.eqb_spec (position E_eq_dec x (universe self)) i) as [Hx|Hx].
    - exfalso. apply Hnotin. left. symmetry.
      apply (@position_inj e x (universe self)); try congruence.
      + apply Hin. now left.
      + apply Hin. right. now left.
    - apply IHl.
      + intros H. apply Hnotin. now right.
      + now inversion Hnd.
      + intros y [<-|Hy]; apply Hin; [now left|right; now right]. }
  rewrite Hnone. simpl. lia.
Qed.

Lemma covering_count_le (st : state) (i j : nat) (subs : list (K * list E)) :
  (forall s, In s subs -> NoDup (snd s)) ->
  forallb (fun s => forallb (fun e => inb E_eq_dec e (universe self)) (snd s)) subs = true ->
  (covering_count E_eq_dec self st i j subs <= Z.of_nat (List.length subs))%Z.
Proof.
  revert j; induction subs as [|s subs IH]; intros j Hnd Hcov; [simpl; lia|].
  cbn [forallb] in Hcov. apply andb_true_iff in Hcov as [Hs Hrest].
  cbn [covering_count List.length].
  specialize (IH (S j) (fun x Hx => Hnd x (or_intror Hx)) Hrest).
  assert (Hocc : occurrences E_eq_dec self i (snd s) <= 1).
  { apply occurrences_le_1; [apply Hnd; now left|].
    intros e He. rewrite forallb_forall in Hs. auto. }
  destruct (st (qubit "S" j)); lia.
Qed.

Lemma counter_commands_nil :
  b self = 0 -> counter_commands E_eq_dec self = [].
Proof.
  intros Hb.
  assert (Hu : make_u_qubits self = []).
  { rewrite make_u_qubits_eq. unfold counter_register. rewrite Hb.
    induction (seq 0 (u_size self)) as [|i l IH]; simpl; auto. }
  assert (Hreg : forall label, register (count_circuit0 self) (U_label label) = []).
  { intros label. destruct (register _ _) as [|q l] eqn:Heq; auto. exfalso.
    assert (Hq : In q (make_u_qubits self)).
    { apply (@register_in_u_qubits _ _ self label). rewrite Heq. now left. }
    now rewrite Hu in Hq. }
  unfold counter_commands. generalize 0 as j.
  induction (subsets self) as [|s subs IH]; intros j; simpl; auto.
  rewrite IH, app_nil_r. unfold subset_block.
  induction (rev (snd s)) as [|e l IHl]; simpl; auto.
  rewrite IHl, app_nil_r. unfold increment, element_register. now rewrite Hreg.
Qed.

End Counts.

Lemma binary_round_aux_sign (s s' : bool) (m e : Z) (l : location) (m' : positive) (e' : Z) :
  binary_round_aux Py.prec Py.emax s m e l = S754_finite s' m' e' -> s' = s.
Proof.
  unfold binary_round_aux.
  destruct (shr_fexp Py.prec Py.emax m e l) as [mrs1 e1].
  destruct (shr_fexp Py.prec Py.emax _ e1 loc_Exact) as [mrs2 e2].
  destruct (shr_m mrs2); try discriminate.
  destruct (Z.leb e2 (Py.emax - Py.prec)); [|discriminate].
  now intros [= <- _ _].
Qed.

Lemma math_sqrt_sign (x root : Py.float) (s : bool) (m : positive) (e : Z) :
  Py.math_sqrt x = inr root -> root = S754_finite s m e -> s = false.
Proof.
  unfold Py.math_sqrt. destruct (Py.is_nan (SFsqrt Py.prec Py.emax x) && _);
    [discriminate|].
  intros [= <-]. unfold SFsqrt.
  destruct x as [sx| [|] | |[|] mx ex]; try discriminate.
  destruct (SFsqrt_core_binary Py.prec Py.emax (Z.pos mx) ex) as [[mz ez] lz].
  intros H. now apply binary_round_aux_sign in H.
Qed.

Lemma math_floor_nonneg (x : Py.float) (k : Z) :
  (forall s m e, x = S754_finite s m e -> s = false) ->
  Py.math_floor x = inr k -> (0 <= k)%Z.
Proof.
  intros Hsign. unfold Py.math_floor.
  destruct x as [sx| sx | |s m e]; try discriminate.
  - intros [= <-]. lia.
  - rewrite (Hsign s m e eq_refl). intros [= <-].
    destruct e as [|p|p].
    + simpl. lia.
    + change (0 <= Z.pos m * 2 ^ Z.pos p)%Z.
      apply Z.mul_nonneg_nonneg; [lia|apply Z.pow_nonneg; lia].
    + apply Z.div_pos; [lia|]. rewrite Z.pow_pos_fold. apply Z.pow_pos_nonneg; lia.
Qed.

Lemma default_num_iterations_nonneg (E K : Type) (self : Solver E K) (k : Z) :
  default_num_iterations self = inr k -> (0 <= k)%Z.
Proof.
  unfold default_num_iterations. cbv zeta. intros H.
  inv_bind H. inv_bind H. inv_bind H.
  rename a1 into root.
  assert (Hpi : exists m e, Py.float_div Py.math_pi (Py.float_of_Z 4)
                            = S754_finite false m e)
    by (vm_compute; eauto).
  destruct Hpi as (mp & ep & Hpi). rewrite Hpi in H.
  refine (math_floor_nonneg _ H).
  intros s m e Hx. unfold Py.float_mul, SFmul in Hx.
  destruct root as [sr|sr| |sr mr er]; try discriminate.
  apply binary_round_aux_sign in Hx. subst s.
  now rewrite (math_sqrt_sign _ Ha1 eq_refl).
Qed.

Lemma run_ext (gs : list Command) (st st' s : state) :
  Forall (wf_gate (fun _ => True)) gs ->
  (forall q, st q = st' q) -> run gs st = Some s ->
  exists s', run gs st' = Some s' /\ forall q, s q = s' q.
Proof.
  intros Hwf Heq Hrun.
  destruct (@run_agree (fun _ => True) gs st st' s Hwf (fun q _ => Heq q) Hrun)
    as (s' & Hrun' & Hag).
  exists s'. split; auto.
Qed.

Lemma run_oracle_twice (us : list Qubit) (a : Qubit) (st st0 : state) :
  NoDup us -> ~ In a us -> (forall q, st q = st0 q) ->
  exists s1 s2,
    run (oracle_commands us a) st = Some s1
    /\ run (oracle_commands us a) s1 = Some s2
    /\ (forall q, s2 q = st0 q)
    /\ (forall q, q <> a -> s1 q = st0 q).
Proof.
  intros Hnd Ha Heq.
  destruct (@run_oracle us a st Hnd Ha) as (s1 & Hrun1 & Hanc1 & Hrest1).
  destruct (@run_oracle us a s1 Hnd Ha) as (s2 & Hrun2 & Hanc2 & Hrest2).
  exists s1, s2. split; [exact Hrun1|]. split; [exact Hrun2|]. split.
  - intros q. destruct (UnitID_eq_dec q a) as [->|Hne].
    + rewrite Hanc2, Hanc1.
      replace (forallb (seen s1) us) with (forallb (seen st) us).
      * rewrite <- Heq. destruct (st a), (forallb (seen st) us); reflexivity.
      * apply forallb_ext_in. intros x Hx. unfold seen.
        rewrite Hrest1; auto. intros ->; contradiction.
    + rewrite Hrest2, Hrest1 by exact Hne. apply Heq.
  - intros q Hq. rewrite Hrest1 by exact Hq. apply Heq.
Qed.

(* ================================================================= *)
(** ** The claims *)

(** *** C7: the counter width *)

(** C7, counterexample: with two subsets the width is 1, and the count 2
    does not fit below [2^1 - 1]. *)
Lemma C7_two_subsets_overflow :
  exists self,
    Scenario.new Scenario.pair_encoding 1 None = inr self
    /\ s_size self = 2 /\ b self = 1
    /\ ~ (Z.of_nat (s_size self) <= 2 ^ Z.of_nat (b self) - 1)%Z.
Proof.
  eexists. split; [reflexivity|]. cbn. repeat split; lia.
Qed.

(** C7, as amended: for every solver [__init__] returns with at least two
    subsets, the width [b = ceil(log2(s_size))] is at least 1 and
    [2^(b-1) < s_size <= 2^b]; the count [s_size] itself fits in [b] bits,
    [s_size <= 2^b - 1], exactly when [s_size] is not a power of two. *)
Theorem C7_counter_width
    (E K Puzzle : Type) (puzzle_num_solutions : Puzzle -> Z)
    (ExactCoverEncoding : Puzzle -> Encoding E K)
    (QuantumSolver_init : Puzzle -> string -> option Z)
    (puzzle : Puzzle) (encoding : string) (ns : option Z) (self : Solver E K) :
  __init__ puzzle_num_solutions ExactCoverEncoding QuantumSolver_init puzzle encoding ns
  = inr self ->
  2 <= s_size self ->
  1 <= b self
  /\ (2 ^ (Z.of_nat (b self) - 1) < Z.of_nat (s_size self) <= 2 ^ Z.of_nat (b self))%Z
  /\ ((Z.of_nat (s_size self) <= 2 ^ Z.of_nat (b self) - 1)%Z
      <-> Z.of_nat (s_size self) <> (2 ^ Z.of_nat (b self))%Z).
Proof.
  intros Hinit Hs.
  apply init_inv in Hinit as (_ & _ & _ & Hb & _).
  apply ceil_log2_inv in Hb as [_ Hb].
  pose proof (Z.log2_up_spec (Z.of_nat (s_size self)) ltac:(lia)) as Hspec.
  pose proof (Z.log2_up_pos (Z.of_nat (s_size self)) ltac:(lia)) as Hpos.
  assert (Hbz : Z.of_nat (b self) = Z.log2_up (Z.of_nat (s_size self))) by lia.
  rewrite Hbz. rewrite <- Z.sub_1_r in Hspec. repeat split; try lia.
Qed.

Lemma C7_counter_width_witness :
  exists self,
    Scenario.new Scenario.encoding 1 None = inr self
    /\ 1 <= b self
    /\ (2 ^ (Z.of_nat (b self) - 1) < Z.of_nat (s_size self) <= 2 ^ Z.of_nat (b self))%Z.
Proof.
  exists (Scenario.solver 1).
  split; [reflexivity|].
  destruct (@C7_counter_width nat string Z (fun puzzle => puzzle)
              (fun _ => Scenario.encoding) (fun _ _ => None) 1%Z "simple" None
              (Scenario.solver 1) eq_refl) as (H1 & H2 & _).
  - simpl. lia.
  - split; assumption.
Defined.

(** *** C6: the [num_solutions] argument *)

(** C6: when [num_solutions] is omitted the attribute is the puzzle's known
    count; when a value is supplied the attribute is whatever the base class
    left, so two constructions that differ only in the supplied value return
    the same object, and in the scenario (a base class that sets nothing) the
    iteration count then fails on the missing attribute. *)
Theorem C6_supplied_num_solutions_is_dropped
    (E K Puzzle : Type) (puzzle_num_solutions : Puzzle -> Z)
    (ExactCoverEncoding : Puzzle -> Encoding E K)
    (QuantumSolver_init : Puzzle -> string -> option Z)
    (puzzle : Puzzle) (encoding : string) :
  let init := __init__ puzzle_num_solutions ExactCoverEncoding QuantumSolver_init
                       puzzle encoding in
  (forall self, init None = inr self ->
                num_solutions self = Some (puzzle_num_solutions puzzle))
  /\ (forall n self, init (Some n) = inr self ->
                     num_solutions self = QuantumSolver_init puzzle encoding)
  /\ (forall n1 n2, init (Some n1) = init (Some n2))
  /\ (exists self,
        Scenario.new Scenario.encoding 1 (Some 2%Z) = inr self
        /\ num_solutions self = None
        /\ default_num_iterations self = inl (Py.AttributeError "num_solutions")).
Proof.
  cbv zeta. repeat split.
  - intros self H. now apply init_inv in H as (_ & _ & _ & _ & ->).
  - intros n self H. now apply init_inv in H as (_ & _ & _ & _ & ->).
  - eexists. split; [reflexivity|]. split; reflexivity.
Qed.

(** *** C9: the global precision *)

(** C9, counterexample: called under mpmath's default precision of 15
    digits, the estimator returns with the global precision at 50. *)
Lemma C9_precision_changed :
  snd (resource_estimation Mpmath.ideal (Scenario.solver 1) (Mpmath.mkContext 15))
  = Mpmath.mkContext 50
  /\ Mpmath.mkContext 50 <> Mpmath.mkContext 15.
Proof. split; [reflexivity|discriminate]. Qed.

(** C9, as amended: the estimator returns a record and writes nothing but
    the global precision, which it leaves at 50 decimal digits whatever it was
    (so the context is unchanged only when it already was 50); when the
    attribute [num_solutions] is missing it raises before touching it. *)
Theorem C9_precision_left_at_50
    (E K : Type) (mp : Mpmath.library) (self : Solver E K) (g : Mpmath.context) :
  snd (resource_estimation mp self g)
  = match num_solutions self with
    | Some _ => Mpmath.mkContext 50
    | None => g
    end.
Proof.
  rewrite resource_estimation_eq. now destruct (num_solutions self).
Qed.

(** *** C10: the oracle's gate count *)

(** C10, counterexample: with one subset and one element ([b = 0]) the
    oracle is the single CnX; the formula [1 + 2*u_size*(b-1)] gives [-1], and
    the count equals the estimator's [oracle_gates] although [u_size <> b]. *)
Lemma C10_degenerate_width :
  exists o,
    _build_circuit Nat.eq_dec Scenario.single = inr o
    /\ Z.of_nat (List.length (commands (oracle o))) = 1%Z
    /\ (1 + 2 * Z.of_nat (u_size Scenario.single)
               * (Z.of_nat (b Scenario.single) - 1))%Z = (-1)%Z
    /\ oracle_gates Scenario.single = 1%Z
    /\ u_size Scenario.single <> b Scenario.single.
Proof.
  eexists. split; [vm_compute; reflexivity|].
  repeat split; try reflexivity. discriminate.
Qed.

(** C10, as amended: in every built instance the oracle has one CnX and two
    X gates per counter qubit of nonzero index.  With [b >= 1] that is
    [1 + 2*u_size*(b-1)] gates, which equals the estimator's
    [oracle_gates = 1 + 2*((u_size-1)*b)] exactly when [u_size = b]; with
    [b = 0] the oracle is one gate and the estimator's figure is 1 as well. *)
Theorem C10_oracle_gate_count
    (E : Type) (E_eq_dec : forall x y : E, {x = y} + {x <> y}) (K : Type)
    (self : Solver E K) (o : Build) :
  _build_circuit E_eq_dec self = inr o ->
  let count := Z.of_nat (List.length (commands (oracle o))) in
  let u := Z.of_nat (u_size self) in
  let w := Z.of_nat (b self) in
  (1 <= b self ->
   count = (1 + 2 * u * (w - 1))%Z
   /\ (count = oracle_gates self <-> u_size self = b self))
  /\ (b self = 0 -> count = 1%Z /\ oracle_gates self = 1%Z).
Proof.
  intros Hbuild. apply build_circuit_inv in Hbuild as (_ & n & _ & ->).
  cbn [built oracle commands]. cbv zeta.
  rewrite length_oracle_commands. unfold oracle_gates. split.
  - intros Hb. split; [nia|]. split; intros H; nia.
  - intros Hb. rewrite Hb. split; lia.
Qed.

Lemma C10_oracle_gate_count_witness :
  exists o,
    _build_circuit Nat.eq_dec (Scenario.solver 1) = inr o
    /\ Z.of_nat (List.length (commands (oracle o))) = 7%Z
    /\ oracle_gates (Scenario.solver 1) = 9%Z.
Proof.
  assert (Hb : _build_circuit Nat.eq_dec (Scenario.solver 1) = inr _)
    by (vm_compute; reflexivity).
  eexists. split; [exact Hb|]. split; [|reflexivity].
  destruct (C10_oracle_gate_count Nat.eq_dec (Scenario.solver 1) Hb) as [H _].
  destruct H as [H _]; [repeat constructor|]. exact H.
Defined.

(** *** C8: the number of qubits *)

(** C8: for every solver [__init__] returns, [s_size >= 1] and
    [b = ceil(log2(s_size))] (so [b = 0] when [s_size = 1]); whenever the
    estimator returns, its [n_qubits] is [s_size + u_size*b + 1]; and whenever
    [_build_circuit] returns, the main circuit holds exactly that many qubits,
    all distinct. *)
Theorem C8_qubit_count
    (E : Type) (E_eq_dec : forall x y : E, {x = y} + {x <> y}) (K Puzzle : Type)
    (puzzle_num_solutions : Puzzle -> Z)
    (ExactCoverEncoding : Puzzle -> Encoding E K)
    (QuantumSolver_init : Puzzle -> string -> option Z)
    (puzzle : Puzzle) (encoding : string) (ns : option Z) (self : Solver E K) :
  __init__ puzzle_num_solutions ExactCoverEncoding QuantumSolver_init puzzle encoding ns
  = inr self ->
  let total :=
    (Z.of_nat (s_size self) + Z.of_nat (u_size self) * Z.of_nat (b self) + 1)%Z in
  1 <= s_size self
  /\ Z.of_nat (b self) = Z.log2_up (Z.of_nat (s_size self))
  /\ (s_size self = 1 -> b self = 0)
  /\ (forall mp g r,
        fst (resource_estimation mp self g) = inr r -> est_n_qubits r = total)
  /\ (forall o,
        _build_circuit E_eq_dec self = inr o ->
        Z.of_nat (n_qubits (main_circuit o)) = total
        /\ NoDup (qubit_ids (main_circuit o))).
Proof.
  intros Hinit. cbv zeta.
  apply init_inv in Hinit as (_ & _ & _ & Hb & _).
  apply ceil_log2_inv in Hb as [Hs Hb].
  pose proof (Z.log2_up_nonneg (Z.of_nat (s_size self))) as Hnn.
  split; [exact Hs|]. split; [lia|]. split; [|split].
  - intros H1. rewrite Hb, H1. reflexivity.
  - intros mp g r. rewrite resource_estimation_eq.
    destruct (num_solutions self) as [n|]; [|discriminate].
    cbn [fst]. intros H. inv_bind H. injection H as <-. reflexivity.
  - intros o H. apply build_circuit_inv in H as (_ & n & _ & ->).
    unfold n_qubits. cbn [built main_circuit qubit_ids]. split.
    + rewrite !length_app, length_make_u_qubits. unfold make_s_qubits.
      rewrite length_map, length_seq. cbn [List.length]. lia.
    + apply NoDup_all_qubits.
Qed.

Lemma C8_qubit_count_witness :
  exists self r o,
    Scenario.new Scenario.encoding 1 None = inr self
    /\ fst (resource_estimation Mpmath.ideal self (Mpmath.mkContext 15)) = inr r
    /\ est_n_qubits r = 10%Z
    /\ _build_circuit Nat.eq_dec self = inr o
    /\ n_qubits (main_circuit o) = 10.
Proof.
  exists (Scenario.solver 1). eexists. eexists.
  split; [reflexivity|].
  destruct (@C8_qubit_count nat Nat.eq_dec string Z (fun puzzle => puzzle)
              (fun _ => Scenario.encoding) (fun _ _ => None) 1%Z "simple" None
              (Scenario.solver 1) eq_refl) as (_ & _ & _ & Hest & Hbuild).
  split; [reflexivity|].
  split; [exact (Hest Mpmath.ideal (Mpmath.mkContext 15) _ eq_refl)|].
  split; [vm_compute; reflexivity|].
  reflexivity.
Defined.

(** *** C1: what the oracle marks *)

(** C1, counterexample: in the scenario, select all three subsets and run
    the counter.  Every counter then holds 2, a nonzero value, and the oracle
    leaves the ancilla as it was (at 0): the state is not marked. *)
Lemma C1_nonzero_counters_not_marked :
  match Scenario.build 1 with
  | inr o =>
    match run (commands (count_circuit o)) Scenario.all_selected with
    | Some s1 =>
      Some (map (fun i => value s1 (counter_register (Scenario.solver 1) i)) [0; 1; 2],
            every_counter_is_nonzero (Scenario.solver 1) s1,
            s1 (anc o),
            option_map (fun s2 : state => s2 (anc o)) (run (commands (oracle o)) s1))
    | None => None
    end
  | inl _ => None
  end
  = Some ([2; 2; 2]%Z, true, false, Some false).
Proof. vm_compute. reflexivity. Qed.

(** C1, as amended: for every built instance with [b >= 1], on every basis
    state the oracle toggles the ancilla (the phase flip) exactly when every
    element's counter register holds the value 1 (bit 0 set, every higher bit
    clear), and it leaves every other qubit, the counter qubits among them, at
    its value before the oracle. *)
Theorem C1_oracle_marks_exact_covers
    (E : Type) (E_eq_dec : forall x y : E, {x = y} + {x <> y}) (K : Type)
    (self : Solver E K) (o : Build) (st : state) :
  _build_circuit E_eq_dec self = inr o ->
  1 <= b self ->
  exists st',
    run (commands (oracle o)) st = Some st'
    /\ st' (anc o) = xorb (st (anc o)) (every_counter_is_one self st)
    /\ forall q, q <> anc o -> st' q = st q.
Proof.
  intros Hbuild Hb. apply build_circuit_inv in Hbuild as (_ & n & _ & ->).
  cbn [built oracle commands anc].
  pose proof (NoDup_all_qubits self) as Hnd.
  apply NoDup_app_remove_l in Hnd.
  destruct (@run_oracle (make_u_qubits self) (qubit0 "anc") st)
    as (st' & Hrun & Hanc & Hrest).
  - now apply NoDup_app_remove_r in Hnd.
  - intros Hin. apply (NoDup_app_disjoint _ _ Hnd _ Hin). now left.
  - exists st'. rewrite <- seen_all by exact Hb. auto.
Qed.

Lemma C1_oracle_marks_exact_covers_witness :
  exists o st',
    _build_circuit Nat.eq_dec (Scenario.solver 1) = inr o
    /\ run (commands (oracle o)) Scenario.all_selected = Some st'
    /\ st' (anc o)
       = xorb (Scenario.all_selected (anc o))
              (every_counter_is_one (Scenario.solver 1) Scenario.all_selected).
Proof.
  assert (Hb : _build_circuit Nat.eq_dec (Scenario.solver 1) = inr _)
    by (vm_compute; reflexivity).
  eexists.
  destruct (C1_oracle_marks_exact_covers Nat.eq_dec (Scenario.solver 1)
              Scenario.all_selected Hb) as (st' & Hrun & Hanc & _).
  - repeat constructor.
  - exists st'. split; [exact Hb|]. split; [exact Hrun|exact Hanc].
Defined.

(** *** C4: uncomputation *)

(** C4: in every built instance the inverse circuit holds the counter's
    gates in reverse order, and from every basis state with the counter
    registers at zero, the counter followed by its inverse runs and returns
    every qubit to its value, the counter qubits to zero; the whole block
    counter, oracle, inverse counter leaves the counter qubits at zero and the
    subset register as it was. *)
Theorem C4_counter_uncomputes
    (E : Type) (E_eq_dec : forall x y : E, {x = y} + {x <> y}) (K : Type)
    (self : Solver E K) (o : Build) (st : state) :
  _build_circuit E_eq_dec self = inr o ->
  (forall q, In q (u_qubits o) -> st q = false) ->
  commands (count_circuit_dag o) = rev (commands (count_circuit o))
  /\ commands (aux_circ o)
     = commands (count_circuit o) ++ commands (oracle o)
       ++ commands (count_circuit_dag o)
  /\ (exists s1 s2,
        run (commands (count_circuit o)) st = Some s1
        /\ run (commands (count_circuit_dag o)) s1 = Some s2
        /\ (forall q, s2 q = st q)
        /\ (forall q, In q (u_qubits o) -> s2 q = false))
  /\ (exists s3,
        run (commands (aux_circ o)) st = Some s3
        /\ (forall q, In q (u_qubits o) -> s3 q = false)
        /\ (forall q, In q (s_qubits o) -> s3 q = st q)).
Proof.
  intros Hbuild Hzero. apply build_circuit_inv in Hbuild as (_ & n & _ & ->).
  cbn [built count_circuit count_circuit_dag aux_circ oracle commands
       u_qubits s_qubits] in *.
  pose proof (counter_commands_wf E_eq_dec self) as Hwf.
  pose proof (NoDup_all_qubits self) as Hnd.
  assert (Hanc : forall q, In q (make_s_qubits self ++ make_u_qubits self) ->
                           q <> qubit0 "anc").
  { intros q Hq ->. rewrite app_assoc in Hnd.
    apply (NoDup_app_disjoint _ _ Hnd _ Hq). now left. }
  split; [reflexivity|]. split; [reflexivity|]. split.
  - destruct (run_inverse st Hwf) as (s1 & s2 & H1 & H2 & Hid).
    exists s1, s2. repeat split; auto.
    intros q Hq. rewrite Hid. now apply Hzero.
  - destruct (@run_conjugate (qubit0 "anc") (counter_commands E_eq_dec self)
                (oracle_commands (make_u_qubits self) (qubit0 "anc")) st Hwf)
      as (s3 & Hrun & Hsame).
    + intros s.
      apply NoDup_app_remove_l in Hnd as Hnd'.
      destruct (@run_oracle (make_u_qubits self) (qubit0 "anc") s)
        as (s' & Hs' & _ & Hrest).
      * now apply NoDup_app_remove_r in Hnd'.
      * intros Hin. apply (NoDup_app_disjoint _ _ Hnd' _ Hin). now left.
      * eauto.
    + exists s3. split; [exact Hrun|]. split; intros q Hq.
      * rewrite Hsame by (apply Hanc, in_or_app; now right). now apply Hzero.
      * apply Hsame, Hanc, in_or_app. now left.
Qed.

Lemma C4_counter_uncomputes_witness :
  exists o s1 s2 s3,
    _build_circuit Nat.eq_dec (Scenario.solver 1) = inr o
    /\ run (commands (count_circuit o)) Scenario.all_selected = Some s1
    /\ run (commands (count_circuit_dag o)) s1 = Some s2
    /\ (forall q, In q (u_qubits o) -> s2 q = false)
    /\ run (commands (aux_circ o)) Scenario.all_selected = Some s3
    /\ (forall q, In q (u_qubits o) -> s3 q = false).
Proof.
  assert (Hb : _build_circuit Nat.eq_dec (Scenario.solver 1) = inr _)
    by (vm_compute; reflexivity).
  eexists.
  destruct (C4_counter_uncomputes Nat.eq_dec (Scenario.solver 1)
              Scenario.all_selected Hb)
    as (_ & _ & (s1 & s2 & H1 & H2 & _ & Hz) & (s3 & H3 & Hz3 & _)).
  - cbn [u_qubits]. intros q Hq.
    repeat (destruct Hq as [<-|Hq]; [reflexivity|]). destruct Hq.
  - exists s1, s2, s3.
    split; [exact Hb|]. split; [exact H1|]. split; [exact H2|].
    split; [exact Hz|]. split; [exact H3|exact Hz3].
Defined.

(** *** C5: the order of the counter's gates *)

Section CounterOrder.

Variable E : Type.
Variable E_eq_dec : forall x y : E, {x = y} + {x <> y}.
Variable K : Type.
Variable self : Solver E K.

Lemma increment_ext (c c' : Circuit) (j : nat) (e : E) :
  qubit_ids c = qubit_ids c' ->
  increment E_eq_dec self c j e = increment E_eq_dec self c' j e.
Proof.
  intros H. unfold increment, element_register. now rewrite (@register_ext c c' _ H).
Qed.

Lemma counter_blocks_ext (c c' : Circuit) (j : nat) (subs : list (K * list E)) :
  qubit_ids c = qubit_ids c' ->
  counter_blocks E_eq_dec self c j subs = counter_blocks E_eq_dec self c' j subs.
Proof.
  intros H. revert j; induction subs as [|s subs IH]; intros j; simpl; auto.
  rewrite IH. f_equal. unfold subset_block.
  apply flat_map_ext. intros e. now apply increment_ext.
Qed.

End CounterOrder.

(** The ladder in the order the lists are generated, shortest first, does not
    count: on a two-bit register at 0 it leaves 3. *)
Example forward_ladder_miscounts :
  let S0 := qubit "S" 0 in
  let reg := [qubit "U_0" 0; qubit "U_0" 1] in
  option_map (fun st => value st reg)
             (run (map (gate CnX) (ladder [S0] reg)) Scenario.all_selected)
  = Some 3%Z
  /\ option_map (fun st => value st reg)
                (run (map (gate CnX) (rev (ladder [S0] reg))) Scenario.all_selected)
     = Some 1%Z.
Proof. split; reflexivity. Qed.

(** C5: in every built instance the counter's commands are the blocks of the
    subsets in the order of the subsets dict; the block of subset [j] is the
    increments of its elements from the last element to the first; each
    increment, the ladder over the register selected for the element with the
    longest gate first, adds the selection bit of subset [j] to that register
    modulo [2^width] and changes no other qubit; and the increments compose
    into the running count: on every basis state whose counters have room for
    it, the counter adds to the [b]-qubit register of each element the number
    of selected subsets covering it, and changes no qubit outside the counter
    registers. *)
Theorem C5_counter_gate_order
    (E : Type) (E_eq_dec : forall x y : E, {x = y} + {x <> y}) (K : Type)
    (self : Solver E K) (o : Build) :
  _build_circuit E_eq_dec self = inr o ->
  commands (count_circuit o)
  = counter_blocks E_eq_dec self (count_circuit o) 0 (subsets self)
  /\ (forall j elems,
        subset_block E_eq_dec self (count_circuit o) j elems
        = flat_map (increment E_eq_dec self (count_circuit o) j) (rev elems))
  /\ (forall j e st,
        let reg := element_register E_eq_dec self (count_circuit o) e in
        exists st',
          run (increment E_eq_dec self (count_circuit o) j e) st = Some st'
          /\ value st' reg
             = ((value st reg + Z.b2z (st (qubit "S" j)))
                mod 2 ^ Z.of_nat (List.length reg))%Z
          /\ forall q, ~ In q reg -> st' q = st q)
  /\ (u_size self = List.length (universe self) ->
      forall st,
        (forall i, i < u_size self ->
           (value st (counter_register self i)
            + covering_count E_eq_dec self st i 0 (subsets self)
            < 2 ^ Z.of_nat (b self))%Z) ->
        exists st',
          run (commands (count_circuit o)) st = Some st'
          /\ (forall i, i < u_size self ->
               value st' (counter_register self i)
               = (value st (counter_register self i)
                  + covering_count E_eq_dec self st i 0 (subsets self))%Z)
          /\ forall q, ~ In q (u_qubits o) -> st' q = st q).
Proof.
  intros Hbuild. apply build_circuit_inv in Hbuild as (Hcov & n & _ & ->).
  cbn [built count_circuit u_qubits]. split; [|split; [|split]].
  - cbn [commands]. unfold counter_commands. now apply counter_blocks_ext.
  - reflexivity.
  - intros j e st. cbv zeta.
    set (reg := element_register E_eq_dec self _ e).
    assert (Hreg : reg = register (count_circuit0 self)
                                  (U_label (position E_eq_dec e (universe self))))
      by now apply register_ext.
    replace (increment E_eq_dec self _ j e)
      with (map (gate CnX) (rev (ladder [qubit "S" j] reg))) by reflexivity.
    destruct (@run_increment reg [qubit "S" j] st) as (st' & Hrun & Hval & Hout).
    { rewrite Hreg. apply register_NoDup_S. }
    exists st'. cbn [forallb] in Hval. rewrite andb_true_r in Hval. auto.
  - intros Hsized st Hfit. cbn [commands].
    exact (run_counter_blocks_exact E_eq_dec self Hsized 0 (subsets self) st Hcov Hfit).
Qed.

Lemma C5_counter_gate_order_witness :
  exists o st',
    _build_circuit Nat.eq_dec (Scenario.solver 1) = inr o
    /\ commands (count_circuit o)
       = counter_blocks Nat.eq_dec (Scenario.solver 1) (count_circuit o) 0
                        (subsets (Scenario.solver 1))
    /\ run (commands (count_circuit o)) Scenario.all_selected = Some st'
    /\ value st' (counter_register (Scenario.solver 1) 0) = 2%Z.
Proof.
  assert (Hb : _build_circuit Nat.eq_dec (Scenario.solver 1) = inr _)
    by (vm_compute; reflexivity).
  eexists.
  destruct (C5_counter_gate_order Nat.eq_dec (Scenario.solver 1) Hb)
    as (Hblocks & _ & _ & Hcount).
  destruct (Hcount eq_refl Scenario.all_selected) as (st' & Hrun & Hval & _).
  - intros i Hi. change (u_size (Scenario.solver 1)) with 3 in Hi.
    destruct i as [|[|[|i]]]; [vm_compute; reflexivity ..|lia].
  - exists st'. split; [exact Hb|]. split; [exact Hblocks|]. split; [exact Hrun|].
    rewrite Hval by (change (u_size (Scenario.solver 1)) with 3; lia).
    vm_compute. reflexivity.
Defined.

(** *** C2: non-positive [num_solutions] *)

(** C2, counterexample: with [num_solutions = 0] the build ends in the
    ZeroDivisionError of the division itself, and with [num_solutions = -1] in
    the domain error of [math.sqrt], which the quotient has reached: neither is
    an error of the solver's own raised ahead of the arithmetic. *)
Lemma C2_arithmetic_runs_unchecked :
  Scenario.build 0 = inl (Py.ZeroDivisionError "division by zero")
  /\ Scenario.build (-1) = inl (Py.ValueError "math domain error").
Proof. split; vm_compute; reflexivity. Qed.

(** C2, as amended: neither operation checks [num_solutions].  On an
    instance whose subsets lie in the universe, the build assembles the
    sub-circuits and then evaluates the iteration formula on [num_solutions] as
    it is, so that its outcome is the outcome of that arithmetic, and with
    [num_solutions = 0] it is the ZeroDivisionError of the division; the
    estimator sets the precision, evaluates the log-space formula on
    [num_solutions] as it is, and raises only what [int()] raises. *)
Theorem C2_no_validation
    (E : Type) (E_eq_dec : forall x y : E, {x = y} + {x <> y}) (K : Type)
    (self : Solver E K) (n : Z) :
  num_solutions self = Some n ->
  (n <= 0)%Z ->
  covered E_eq_dec self = true ->
  _build_circuit E_eq_dec self
  = (quotient <- Py.int_truediv (2 ^ Z.of_nat (s_size self)) n ;;
     root <- Py.math_sqrt quotient ;;
     k <- Py.math_floor
            (Py.float_mul (Py.float_div Py.math_pi (Py.float_of_Z 4)) root) ;;
     Py.ret (built E_eq_dec self k))
  /\ (n = 0%Z ->
      _build_circuit E_eq_dec self = inl (Py.ZeroDivisionError "division by zero"))
  /\ (forall mp g,
        resource_estimation mp self g
        = (k <- Mpmath.to_int mp (log_space_iterations mp self (Mpmath.mkContext 50) n) ;;
           Py.ret (estimate_of self k),
           Mpmath.mkContext 50)).
Proof.
  intros Hn Hle Hcov.
  assert (Hbuild : _build_circuit E_eq_dec self
                   = (quotient <- Py.int_truediv (2 ^ Z.of_nat (s_size self)) n ;;
                      root <- Py.math_sqrt quotient ;;
                      k <- Py.math_floor
                             (Py.float_mul (Py.float_div Py.math_pi (Py.float_of_Z 4))
                                           root) ;;
                      Py.ret (built E_eq_dec self k))).
  { rewrite build_circuit_eq, Hcov. unfold default_num_iterations, get_num_solutions.
    rewrite Hn. cbn [Py.bind Py.ret].
    destruct (Py.int_truediv _ n) as [e|q]; [reflexivity|]. cbn [Py.bind].
    destruct (Py.math_sqrt q) as [e|r]; reflexivity. }
  split; [exact Hbuild|]. split.
  - intros ->. rewrite Hbuild. reflexivity.
  - intros mp g. rewrite resource_estimation_eq, Hn. reflexivity.
Qed.

Lemma C2_no_validation_witness :
  _build_circuit Nat.eq_dec (Scenario.solver 0)
  = inl (Py.ZeroDivisionError "division by zero")
  /\ snd (resource_estimation Mpmath.ideal (Scenario.solver 0) (Mpmath.mkContext 15))
     = Mpmath.mkContext 50.
Proof.
  destruct (@C2_no_validation nat Nat.eq_dec string (Scenario.solver 0) 0%Z
              eq_refl (Z.le_refl 0) eq_refl) as (_ & Hzero & Hest).
  split; [exact (Hzero eq_refl)|].
  now rewrite Hest.
Defined.

(** *** C3: the two iteration counts *)

(** C3: on 1024 subsets and one solution the build raises OverflowError in
    [2 ** s_size / num_solutions], so it computes no iteration count, while the
    estimator, which works in log space, returns one (of at least
    [3 * 2^510]). *)
Theorem C3_build_overflows_where_estimator_returns :
  Scenario.new Scenario.big_encoding 1 None = inr Scenario.big
  /\ default_num_iterations Scenario.big
     = inl (Py.OverflowError "integer division result too large for a float")
  /\ _build_circuit Nat.eq_dec Scenario.big
     = inl (Py.OverflowError "integer division result too large for a float")
  /\ exists k,
       fst (resource_estimation Mpmath.ideal Scenario.big (Mpmath.mkContext 15))
       = inr (estimate_of Scenario.big k)
       /\ (3 * 2 ^ 510 <= k)%Z.
Proof.
  assert (Hit : default_num_iterations Scenario.big
                = inl (Py.OverflowError "integer division result too large for a float"))
    by (vm_compute; reflexivity).
  split; [vm_compute; reflexivity|]. split; [exact Hit|]. split.
  - rewrite build_circuit_eq, Hit.
    replace (covered Nat.eq_dec Scenario.big) with true by (vm_compute; reflexivity).
    reflexivity.
  - exact big_iterations_ideal.
Qed.

(* ================================================================= *)
(** ** Further properties of the builder and the estimator *)


(** X2: when some subset lists an element that is not in the universe,
    [_build_circuit] raises the ValueError of [list.index], whatever
    [num_solutions] is (also when the attribute is missing or zero). *)
Theorem X2_stray_element_raises
    (E : Type) (E_eq_dec : forall x y : E, {x = y} + {x <> y}) (K : Type)
    (self : Solver E K) (s : K * list E) (e : E) :
  In s (subsets self) -> In e (snd s) -> ~ In e (universe self) ->
  _build_circuit E_eq_dec self = inl (Py.ValueError "x not in list").
Proof.
  intros Hs He Hout. rewrite build_circuit_eq.
  replace (covered E_eq_dec self) with false; [reflexivity|].
  symmetry. apply not_true_is_false. intros Hcov. unfold covered in Hcov.
  rewrite forallb_forall in Hcov. specialize (Hcov s Hs).
  rewrite forallb_forall in Hcov. specialize (Hcov e He).
  now apply inb_In in Hcov.
Qed.

Lemma X2_stray_element_raises_witness :
  _build_circuit Nat.eq_dec Scenario.stray = inl (Py.ValueError "x not in list").
Proof.
  apply (@X2_stray_element_raises nat Nat.eq_dec string Scenario.stray ("A", [1; 3]) 3).
  - left. reflexivity.
  - right. left. reflexivity.
  - intros [H|[H|[]]]; discriminate H.
Defined.

(** X3: called on the freshly allocated circuits with a given number of
    iterations [k], [_assemble_full_circuit_w_meas] does not read
    [num_solutions]: on subsets within the universe it returns, with that
    many copies of the auxiliary circuit and the diffuser between the
    preparation and the measurements, and with none when [k <= 0]; it is the
    circuit [_build_circuit] returns when [k] is the count it computes. *)
Theorem X3_given_iterations
    (E : Type) (E_eq_dec : forall x y : E, {x = y} + {x <> y}) (K : Type)
    (self : Solver E K) (k : Z) :
  covered E_eq_dec self = true ->
  exists o,
    _assemble_full_circuit_w_meas E_eq_dec self (allocate self) (Some k) = inr o
    /\ commands (main_circuit o)
       = map (fun q => gate H [q]) (s_qubits o)
         ++ [gate X [anc o]; gate H [anc o]]
         ++ repeat_block (Z.to_nat k) (commands (aux_circ o) ++ commands (diffuser o))
         ++ measure_commands (s_size self)
    /\ ((k <= 0)%Z ->
        commands (main_circuit o)
        = map (fun q => gate H [q]) (s_qubits o)
          ++ [gate X [anc o]; gate H [anc o]] ++ measure_commands (s_size self))
    /\ (default_num_iterations self = inr k -> _build_circuit E_eq_dec self = inr o).
Proof.
  intros Hcov. exists (built E_eq_dec self k).
  split; [now rewrite assemble_eq, Hcov|].
  split; [reflexivity|]. split.
  - intros Hk. cbn [built main_circuit commands s_qubits anc].
    replace (Z.to_nat k) with 0 by lia. reflexivity.
  - intros Hit. now rewrite build_circuit_eq, Hcov, Hit.
Qed.

Lemma X3_given_iterations_witness :
  exists o,
    _assemble_full_circuit_w_meas Nat.eq_dec (Scenario.solver 0)
      (allocate (Scenario.solver 0)) (Some 0%Z) = inr o
    /\ List.length (commands (main_circuit o)) = 8.
Proof.
  destruct (@X3_given_iterations nat Nat.eq_dec string (Scenario.solver 0) 0%Z eq_refl)
    as (o & Hrun & _ & Hzero & _).
  exists o. split; [exact Hrun|].
  rewrite (Hzero (Z.le_refl 0)).
  rewrite !length_app, length_map.
  assert (Hs : s_qubits o = make_s_qubits (Scenario.solver 0)).
  { rewrite assemble_eq in Hrun. cbn in Hrun. now injection Hrun as <-. }
  rewrite Hs. reflexivity.
Defined.

(** X4: the circuit [_build_circuit] returns holds the subset qubits, the
    counter qubits and the ancilla, in that order, and one classical bit per
    subset; its commands are an H on every subset qubit, X and H on the
    ancilla, then as many copies of the auxiliary circuit followed by the
    diffuser as the iteration count computed from [num_solutions], then the
    measurement of subset qubit [i] into bit [c[i]] for every [i]. *)
Theorem X4_main_circuit_layout
    (E : Type) (E_eq_dec : forall x y : E, {x = y} + {x <> y}) (K : Type)
    (self : Solver E K) (o : Build) :
  _build_circuit E_eq_dec self = inr o ->
  exists k,
    default_num_iterations self = inr k
    /\ s_qubits o = map (qubit "S") (seq 0 (s_size self))
    /\ qubit_ids (main_circuit o) = s_qubits o ++ u_qubits o ++ [anc o]
    /\ bit_ids (main_circuit o) = map (bit "c") (seq 0 (s_size self))
    /\ commands (main_circuit o)
       = map (fun q => gate H [q]) (s_qubits o)
         ++ [gate X [anc o]; gate H [anc o]]
         ++ repeat_block (Z.to_nat k) (commands (aux_circ o) ++ commands (diffuser o))
         ++ map (fun i => mkCommand Measure [qubit "S" i] [bit "c" i])
                (seq 0 (s_size self)).
Proof.
  intros Hbuild. apply build_circuit_inv in Hbuild as (_ & k & Hk & ->).
  exists k. split; [exact Hk|]. repeat split.
Qed.

Lemma X4_main_circuit_layout_witness :
  exists o k,
    _build_circuit Nat.eq_dec (Scenario.solver 1) = inr o
    /\ default_num_iterations (Scenario.solver 1) = inr k
    /\ commands (main_circuit o)
       = map (fun q => gate H [q]) (s_qubits o)
         ++ [gate X [anc o]; gate H [anc o]]
         ++ repeat_block (Z.to_nat k) (commands (aux_circ o) ++ commands (diffuser o))
         ++ map (fun i => mkCommand Measure [qubit "S" i] [bit "c" i]) (seq 0 3).
Proof.
  assert (Hb : _build_circuit Nat.eq_dec (Scenario.solver 1) = inr _)
    by (vm_compute; reflexivity).
  eexists.
  destruct (X4_main_circuit_layout Nat.eq_dec (Scenario.solver 1) Hb)
    as (k & Hk & _ & _ & _ & Hcmd).
  exists k. split; [exact Hb|]. split; [exact Hk|exact Hcmd].
Defined.

(** X5: the diffuser of a built instance acts on the subset qubits only: H
    then X on each of them in order, one CnZ over all of them, then X then H
    on each; that is [4 * s_size + 1] gates, the figure the estimator uses
    for one diffuser. *)
Theorem X5_diffuser_layout
    (E : Type) (E_eq_dec : forall x y : E, {x = y} + {x <> y}) (K : Type)
    (self : Solver E K) (o : Build) :
  _build_circuit E_eq_dec self = inr o ->
  qubit_ids (diffuser o) = s_qubits o
  /\ commands (diffuser o)
     = flat_map (fun q => [gate H [q]; gate X [q]]) (s_qubits o)
       ++ gate CnZ (s_qubits o)
       :: flat_map (fun q => [gate X [q]; gate H [q]]) (s_qubits o)
  /\ Z.of_nat (List.length (commands (diffuser o)))
     = (1 + 4 * Z.of_nat (s_size self))%Z.
Proof.
  intros Hbuild. apply build_circuit_inv in Hbuild as (_ & k & _ & ->).
  cbn [built diffuser qubit_ids commands s_qubits].
  split; [reflexivity|]. split; [reflexivity|].
  rewrite length_diffuser_commands. unfold make_s_qubits.
  rewrite length_map, length_seq. lia.
Qed.

Lemma X5_diffuser_layout_witness :
  exists o,
    _build_circuit Nat.eq_dec (Scenario.solver 1) = inr o
    /\ Z.of_nat (List.length (commands (diffuser o))) = 13%Z.
Proof.
  assert (Hb : _build_circuit Nat.eq_dec (Scenario.solver 1) = inr _)
    by (vm_compute; reflexivity).
  eexists. split; [exact Hb|].
  exact (proj2 (proj2 (X5_diffuser_layout Nat.eq_dec (Scenario.solver 1) Hb))).
Defined.

(** X6: the register [_build_counter] selects for the element of index [i],
    the qubits of the count circuit whose register name starts with [U_i]
    in the order of [Circuit.qubits], is the element's own [b] qubits, low
    bit first, followed by the qubits of every other counter register whose
    label has [U_i] as a proper prefix.  With at most ten elements there are
    none of those; with more than ten (and [b >= 1]) the register selected
    for element 1 holds the qubits of element 10 as well. *)
Theorem X6_register_lookup
    (E : Type) (E_eq_dec : forall x y : E, {x = y} + {x <> y}) (K : Type)
    (self : Solver E K) (o : Build) (i : nat) :
  _build_circuit E_eq_dec self = inr o ->
  i < u_size self ->
  exists rest,
    register (count_circuit o) (U_label i)
    = map (qubit (U_label i)) (seq 0 (b self)) ++ rest
    /\ (forall q, In q rest
                  <-> In q (u_qubits o)
                      /\ String.prefix (U_label i) (reg_name q) = true
                      /\ reg_name q <> U_label i)
    /\ (u_size self <= 10 -> rest = [])
    /\ (10 < u_size self -> 1 <= b self -> i = 1 -> In (qubit "U_10" 0) rest).
Proof.
  intros Hbuild Hi. apply build_circuit_inv in Hbuild as (_ & n & _ & ->).
  cbn [built count_circuit u_qubits]. exists (spill self i).
  assert (Hreg : register (mkCircuit (make_s_qubits self ++ make_u_qubits self) []
                                     (counter_commands E_eq_dec self)) (U_label i)
                 = register (count_circuit0 self) (U_label i))
    by now apply register_ext.
  rewrite Hreg. split; [exact (register_split self Hi)|].
  split; [apply In_spill|]. split.
  - intros Hsmall.
    pose proof (register_split self Hi) as Hsplit.
    rewrite (register_small self Hsmall Hi) in Hsplit.
    rewrite <- (app_nil_r (counter_register self i)) in Hsplit at 1.
    apply app_inv_head in Hsplit. now symmetry.
  - intros Hbig Hb ->. apply In_spill. split; [|split].
    + apply In_make_u_qubits. exists 10, 0. repeat split; auto.
    + reflexivity.
    + discriminate.
Qed.

Lemma X6_register_lookup_witness :
  exists o,
    _build_circuit Nat.eq_dec (Scenario.solver 1) = inr o
    /\ register (count_circuit o) (U_label 0) = [qubit "U_0" 0; qubit "U_0" 1].
Proof.
  assert (Hb : _build_circuit Nat.eq_dec (Scenario.solver 1) = inr _)
    by (vm_compute; reflexivity).
  eexists. split; [exact Hb|].
  destruct (@X6_register_lookup nat Nat.eq_dec string (Scenario.solver 1) _ 0 Hb)
    as (rest & Hreg & _ & Hsmall & _).
  - repeat constructor.
  - rewrite Hreg, Hsmall by (repeat constructor). reflexivity.
Defined.

(** X7: the count circuit of a built instance (on a solver whose [u_size]
    is the length of its universe) never has fewer gates than the
    estimator's [counter_gates], the sum over the subsets of [len * b]; with
    at most ten elements it has exactly that many; and its inverse has as
    many gates as it has. *)
Theorem X7_counter_gate_count
    (E : Type) (E_eq_dec : forall x y : E, {x = y} + {x <> y}) (K : Type)
    (self : Solver E K) (o : Build) :
  _build_circuit E_eq_dec self = inr o ->
  u_size self = List.length (universe self) ->
  (counter_gates self <= Z.of_nat (List.length (commands (count_circuit o))))%Z
  /\ (u_size self <= 10 ->
      Z.of_nat (List.length (commands (count_circuit o))) = counter_gates self)
  /\ List.length (commands (count_circuit_dag o))
     = List.length (commands (count_circuit o)).
Proof.
  intros Hbuild Hsized. apply build_circuit_inv in Hbuild as (Hcov & n & _ & ->).
  cbn [built count_circuit count_circuit_dag commands].
  rewrite counter_gates_eq. unfold counter_commands. split; [|split].
  - pose proof (length_counter_blocks_ge E_eq_dec self Hsized 0 (subsets self) Hcov). lia.
  - intros Hsmall.
    rewrite (length_counter_blocks_small E_eq_dec self Hsized Hsmall 0 (subsets self) Hcov).
    lia.
  - apply length_rev.
Qed.

Lemma X7_counter_gate_count_witness :
  exists o,
    _build_circuit Nat.eq_dec (Scenario.solver 1) = inr o
    /\ Z.of_nat (List.length (commands (count_circuit o))) = 12%Z.
Proof.
  assert (Hb : _build_circuit Nat.eq_dec (Scenario.solver 1) = inr _)
    by (vm_compute; reflexivity).
  eexists. split; [exact Hb|].
  destruct (X7_counter_gate_count Nat.eq_dec (Scenario.solver 1) Hb eq_refl)
    as (_ & Hsmall & _).
  rewrite Hsmall by (repeat constructor). reflexivity.
Defined.

(** X8: on every basis state the count circuit of a built instance runs and
    changes counter qubits only: every subset qubit and the ancilla keep
    their values, whatever the size of the universe and whether or not a
    counter overflows. *)
Theorem X8_counter_frame
    (E : Type) (E_eq_dec : forall x y : E, {x = y} + {x <> y}) (K : Type)
    (self : Solver E K) (o : Build) (st : state) :
  _build_circuit E_eq_dec self = inr o ->
  exists st',
    run (commands (count_circuit o)) st = Some st'
    /\ (forall q, ~ In q (u_qubits o) -> st' q = st q)
    /\ (forall q, In q (s_qubits o) -> st' q = st q)
    /\ st' (anc o) = st (anc o).
Proof.
  intros Hbuild. apply build_circuit_inv in Hbuild as (_ & n & _ & ->).
  cbn [built count_circuit commands u_qubits s_qubits anc].
  destruct (run_counter_blocks_frame E_eq_dec self 0 (subsets self) st)
    as (st' & Hrun & Hout).
  exists st'. split; [exact Hrun|]. split; [exact Hout|].
  pose proof (NoDup_all_qubits self) as Hnd. split.
  - intros q Hq. apply Hout. intros Hu.
    apply (NoDup_app_disjoint _ _ Hnd q Hq). apply in_or_app. now left.
  - apply Hout. intros Hu. apply NoDup_app_remove_l in Hnd.
    apply (NoDup_app_disjoint _ _ Hnd _ Hu). now left.
Qed.

Lemma X8_counter_frame_witness :
  exists o st',
    _build_circuit Nat.eq_dec Scenario.eleven = inr o
    /\ run (commands (count_circuit o)) Scenario.all_selected = Some st'
    /\ st' (anc o) = Scenario.all_selected (anc o).
Proof.
  assert (Hb : _build_circuit Nat.eq_dec Scenario.eleven = inr _)
    by (vm_compute; reflexivity).
  eexists.
  destruct (X8_counter_frame Nat.eq_dec Scenario.eleven Scenario.all_selected Hb)
    as (st' & Hrun & _ & _ & Hanc).
  exists st'. split; [exact Hb|]. split; [exact Hrun|exact Hanc].
Defined.

(** X9: the auxiliary circuit of a built instance with [b >= 1] (counter,
    oracle, inverse counter), run from counters at zero on a selection of
    subsets under which no element is covered [2^b] times or more, toggles
    the ancilla exactly when the selected subsets cover every element of the
    universe exactly once, and leaves every other qubit as it was; this for
    every size of the universe. *)
Theorem X9_block_marks_exact_covers
    (E : Type) (E_eq_dec : forall x y : E, {x = y} + {x <> y}) (K : Type)
    (self : Solver E K) (o : Build) (st : state) :
  _build_circuit E_eq_dec self = inr o ->
  u_size self = List.length (universe self) ->
  1 <= b self ->
  (forall q, In q (u_qubits o) -> st q = false) ->
  (forall i, i < u_size self ->
     (covering_count E_eq_dec self st i 0 (subsets self) < 2 ^ Z.of_nat (b self))%Z) ->
  exists s3,
    run (commands (aux_circ o)) st = Some s3
    /\ s3 (anc o) = xorb (st (anc o)) (exact_cover E_eq_dec self st)
    /\ forall q, q <> anc o -> s3 q = st q.
Proof.
  intros Hbuild Hsized Hb Hzero Hfit.
  exact (aux_marks_exact_covers E_eq_dec self Hsized st Hbuild Hb Hzero Hfit).
Qed.

Lemma X9_block_marks_exact_covers_witness :
  exists o s3,
    _build_circuit Nat.eq_dec Scenario.pair = inr o
    /\ run (commands (aux_circ o)) Scenario.all_selected = Some s3
    /\ s3 (anc o) = true.
Proof.
  assert (Hb : _build_circuit Nat.eq_dec Scenario.pair = inr _)
    by (vm_compute; reflexivity).
  eexists.
  destruct (X9_block_marks_exact_covers Nat.eq_dec Scenario.pair
              Scenario.all_selected Hb eq_refl) as (s3 & Hrun & Hanc & _).
  - repeat constructor.
  - cbn [u_qubits]. intros q Hq.
    repeat (destruct Hq as [<-|Hq]; [reflexivity|]). destruct Hq.
  - intros i Hi. change (u_size Scenario.pair) with 2 in Hi.
    destruct i as [|[|i]]; [vm_compute; reflexivity ..|lia].
  - exists s3. split; [exact Hb|]. split; [exact Hrun|].
    rewrite Hanc. vm_compute. reflexivity.
Defined.

(** X10: for a solver [__init__] returns with at least two subsets, at most
    ten elements and no subset listing an element twice, the auxiliary
    circuit of the built instance, run from counters at zero on any selection
    of subsets, toggles the ancilla exactly when the selected subsets cover
    every element exactly once, and leaves every other qubit as it was: also
    when the number of subsets is a power of two and a count reaches [2^b],
    which wraps to 0 and is not 1. *)
Theorem X10_marks_exact_covers_small
    (E : Type) (E_eq_dec : forall x y : E, {x = y} + {x <> y}) (K Puzzle : Type)
    (puzzle_num_solutions : Puzzle -> Z)
    (ExactCoverEncoding : Puzzle -> Encoding E K)
    (QuantumSolver_init : Puzzle -> string -> option Z)
    (puzzle : Puzzle) (encoding : string) (ns : option Z) (self : Solver E K)
    (o : Build) (st : state) :
  __init__ puzzle_num_solutions ExactCoverEncoding QuantumSolver_init puzzle encoding ns
  = inr self ->
  u_size self <= 10 ->
  2 <= s_size self ->
  (forall s, In s (subsets self) -> NoDup (snd s)) ->
  _build_circuit E_eq_dec self = inr o ->
  (forall q, In q (u_qubits o) -> st q = false) ->
  exists s3,
    run (commands (aux_circ o)) st = Some s3
    /\ s3 (anc o) = xorb (st (anc o)) (exact_cover E_eq_dec self st)
    /\ forall q, q <> anc o -> s3 q = st q.
Proof.
  intros Hinit Hsmall Hs Hnd Hbuild Hzero.
  apply init_inv in Hinit as (_ & Hsized & Hlen & Hb & _).
  apply ceil_log2_inv in Hb as [_ Hb].
  pose proof (Z.log2_up_spec (Z.of_nat (s_size self)) ltac:(lia)) as Hspec.
  pose proof (Z.log2_up_pos (Z.of_nat (s_size self)) ltac:(lia)) as Hpos.
  assert (Hbz : Z.of_nat (b self) = Z.log2_up (Z.of_nat (s_size self))) by lia.
  pose proof (build_circuit_inv E_eq_dec self Hbuild) as (Hcov & _).
  apply (aux_marks_exact_covers_small E_eq_dec self Hsized Hsmall st Hbuild);
    [lia|exact Hzero|].
  intros i _.
  pose proof (covering_count_le E_eq_dec self st i 0 (subsets self) Hnd Hcov) as Hle.
  rewrite Hbz. lia.
Qed.

Lemma X10_marks_exact_covers_small_witness :
  exists o s3,
    _build_circuit Nat.eq_dec Scenario.pair = inr o
    /\ run (commands (aux_circ o)) Scenario.all_selected = Some s3
    /\ s3 (anc o) = true.
Proof.
  assert (Hb : _build_circuit Nat.eq_dec Scenario.pair = inr _)
    by (vm_compute; reflexivity).
  assert (Hsmall : u_size Scenario.pair <= 10) by (cbn; lia).
  assert (Hs : 2 <= s_size Scenario.pair) by (cbn; lia).
  assert (Hnd : forall s, In s (subsets Scenario.pair) -> NoDup (snd s)).
  { intros s [<-|[<-|[]]]; cbn; repeat constructor; intros []. }
  eexists.
  destruct (@X10_marks_exact_covers_small nat Nat.eq_dec string Z (fun puzzle => puzzle)
              (fun _ => Scenario.pair_encoding) (fun _ _ => None) 1%Z "simple" None
              Scenario.pair _ Scenario.all_selected eq_refl Hsmall Hs Hnd Hb)
    as (s3 & Hrun & Hanc & _).
  - cbn [u_qubits]. intros q Hq.
    repeat (destruct Hq as [<-|Hq]; [reflexivity|]). destruct Hq.
  - exists s3. split; [exact Hb|]. split; [exact Hrun|].
    rewrite Hanc. vm_compute. reflexivity.
Defined.

(** X11: in a built instance with [b = 0] (a single subset) the count
    circuit has no gate and the auxiliary circuit is one CnX on the ancilla
    alone: it toggles the ancilla on every basis state, the selection of the
    subset and its non-selection alike, and changes nothing else. *)
Theorem X11_zero_width_marks_all
    (E : Type) (E_eq_dec : forall x y : E, {x = y} + {x <> y}) (K : Type)
    (self : Solver E K) (o : Build) :
  _build_circuit E_eq_dec self = inr o ->
  b self = 0 ->
  u_qubits o = []
  /\ commands (count_circuit o) = []
  /\ commands (aux_circ o) = [gate CnX [anc o]]
  /\ forall st,
       exists st',
         run (commands (aux_circ o)) st = Some st'
         /\ st' (anc o) = negb (st (anc o))
         /\ forall q, q <> anc o -> st' q = st q.
Proof.
  intros Hbuild Hb. apply build_circuit_inv in Hbuild as (_ & n & _ & ->).
  cbn [built count_circuit aux_circ commands u_qubits anc].
  assert (Hu : make_u_qubits self = []).
  { rewrite make_u_qubits_eq. unfold counter_register. rewrite Hb.
    induction (seq 0 (u_size self)) as [|i l IH]; simpl; auto. }
  rewrite (counter_commands_nil E_eq_dec self Hb), Hu.
  split; [reflexivity|]. split; [reflexivity|]. split; [reflexivity|].
  intros st. cbn [app rev oracle_commands X_gates filter map run].
  unfold oracle_commands, X_gates. cbn [filter map app run].
  unfold apply. cbn [gate op args target_controls rev app forallb].
  eexists. split; [reflexivity|]. split.
  - apply flip_same.
  - intros q Hq. now apply flip_other.
Qed.

Lemma X11_zero_width_marks_all_witness :
  exists o,
    _build_circuit Nat.eq_dec Scenario.single = inr o
    /\ commands (aux_circ o) = [gate CnX [anc o]].
Proof.
  assert (Hb : _build_circuit Nat.eq_dec Scenario.single = inr _)
    by (vm_compute; reflexivity).
  eexists. split; [exact Hb|].
  destruct (X11_zero_width_marks_all Nat.eq_dec Scenario.single Hb eq_refl)
    as (_ & _ & Haux & _).
  exact Haux.
Defined.



(** X13: the iteration count the build computes from [num_solutions] is
    never negative, and it is computed only when the attribute exists and is
    not zero. *)
Theorem X13_iteration_count_nonneg
    (E K : Type) (self : Solver E K) (k : Z) :
  default_num_iterations self = inr k ->
  (0 <= k)%Z /\ exists n, num_solutions self = Some n /\ n <> 0%Z.
Proof.
  intros H. split; [exact (default_num_iterations_nonneg self H)|].
  unfold default_num_iterations, get_num_solutions in H. cbv zeta in H.
  destruct (num_solutions self) as [n|]; [|discriminate].
  exists n. split; [reflexivity|]. intros ->. discriminate H.
Qed.

Lemma X13_iteration_count_nonneg_witness :
  default_num_iterations (Scenario.solver 1) = inr 2%Z /\ (0 <= 2)%Z.
Proof.
  assert (H : default_num_iterations (Scenario.solver 1) = inr 2%Z)
    by (vm_compute; reflexivity).
  split; [exact H|].
  exact (proj1 (X13_iteration_count_nonneg (Scenario.solver 1) H)).
Defined.

(** X14: the number of commands of the circuit [_build_circuit] returns
    with [k] iterations is [2 * s_size + 2] plus [k] times the gates of
    one oracle, two counters and one diffuser.  With at most ten elements and
    [b >= 1] it exceeds the estimator's [n_gates] for the same [k] by
    [s_size + 2 * k * (b - u_size)]: the estimator leaves the measurements
    out and counts the oracle by another formula. *)
Theorem X14_gate_total
    (E : Type) (E_eq_dec : forall x y : E, {x = y} + {x <> y}) (K : Type)
    (self : Solver E K) (o : Build) :
  _build_circuit E_eq_dec self = inr o ->
  exists k,
    default_num_iterations self = inr k
    /\ Z.of_nat (List.length (commands (main_circuit o)))
       = (2 * Z.of_nat (s_size self) + 2
          + k * (Z.of_nat (List.length (commands (oracle o)))
                 + 2 * Z.of_nat (List.length (commands (count_circuit o)))
                 + Z.of_nat (List.length (commands (diffuser o)))))%Z
    /\ (u_size self = List.length (universe self) ->
        u_size self <= 10 ->
        1 <= b self ->
        Z.of_nat (List.length (commands (main_circuit o)))
        = (Z.of_nat (s_size self) + 2
           + k * (oracle_gates self + 2 * counter_gates self)
           + k * (1 + 4 * Z.of_nat (s_size self))
           + Z.of_nat (s_size self)
           + 2 * k * (Z.of_nat (b self) - Z.of_nat (u_size self)))%Z).
Proof.
  intros Hbuild. apply build_circuit_inv in Hbuild as (Hcov & k & Hk & ->).
  exists k. split; [exact Hk|].
  pose proof (default_num_iterations_nonneg self Hk) as Hnn.
  cbn [built main_circuit oracle count_circuit diffuser commands].
  assert (Hmain : Z.of_nat
            (List.length
               (map (fun q => gate H [q]) (make_s_qubits self)
                ++ [gate X [qubit0 "anc"]; gate H [qubit0 "anc"]]
                ++ repeat_block (Z.to_nat k)
                     ((counter_commands E_eq_dec self
                       ++ oracle_commands (make_u_qubits self) (qubit0 "anc")
                       ++ rev (counter_commands E_eq_dec self))
                      ++ diffuser_commands (make_s_qubits self))
                ++ measure_commands (s_size self)))
          = (2 * Z.of_nat (s_size self) + 2
             + k * (Z.of_nat (List.length
                                (oracle_commands (make_u_qubits self) (qubit0 "anc")))
                    + 2 * Z.of_nat (List.length (counter_commands E_eq_dec self))
                    + Z.of_nat (List.length (diffuser_commands (make_s_qubits self)))))%Z).
  { rewrite !length_app, length_repeat_block, !length_app, length_rev, length_map.
    unfold measure_commands, make_s_qubits at 1.
    rewrite !length_map, !length_seq. cbn [List.length]. nia. }
  split; [exact Hmain|].
  intros Hsized Hsmall Hb. rewrite Hmain.
  rewrite length_oracle_commands, length_diffuser_commands.
  unfold counter_commands.
  rewrite (length_counter_blocks_small E_eq_dec self Hsized Hsmall 0 (subsets self) Hcov).
  rewrite counter_gates_eq. unfold oracle_gates, make_s_qubits.
  rewrite length_map, length_seq.
  set (len := List.length (flat_map snd (subsets self))).
  destruct (b self) as [|w]; [lia|].
  replace (S w - 1) with w by lia. nia.
Qed.

Lemma X14_gate_total_witness :
  exists o,
    _build_circuit Nat.eq_dec (Scenario.solver 1) = inr o
    /\ Z.of_nat (List.length (commands (main_circuit o))) = 96%Z.
Proof.
  assert (Hb : _build_circuit Nat.eq_dec (Scenario.solver 1) = inr _)
    by (vm_compute; reflexivity).
  eexists. split; [exact Hb|].
  destruct (X14_gate_total Nat.eq_dec (Scenario.solver 1) Hb) as (k & Hk & Hlen & _).
  rewrite Hlen.
  assert (Hk2 : default_num_iterations (Scenario.solver 1) = inr 2%Z)
    by (vm_compute; reflexivity).
  rewrite Hk2 in Hk. injection Hk as <-. vm_compute. reflexivity.
Defined.

(** X15: on every basis state the oracle of a built instance run twice
    gives the state back, and so does the auxiliary circuit (counter,
    oracle, inverse counter) run twice: each is its own inverse. *)
Theorem X15_oracle_and_block_involutive
    (E : Type) (E_eq_dec : forall x y : E, {x = y} + {x <> y}) (K : Type)
    (self : Solver E K) (o : Build) (st : state) :
  _build_circuit E_eq_dec self = inr o ->
  (exists s1 s2,
     run (commands (oracle o)) st = Some s1
     /\ run (commands (oracle o)) s1 = Some s2
     /\ forall q, s2 q = st q)
  /\ (exists s1 s2,
        run (commands (aux_circ o)) st = Some s1
        /\ run (commands (aux_circ o)) s1 = Some s2
        /\ forall q, s2 q = st q).
Proof.
  intros Hbuild. apply build_circuit_inv in Hbuild as (_ & n & _ & ->).
  cbn [built oracle aux_circ commands].
  pose proof (NoDup_all_qubits self) as Hnd.
  apply NoDup_app_remove_l in Hnd.
  assert (Hu : NoDup (make_u_qubits self)) by now apply NoDup_app_remove_r in Hnd.
  assert (Hanc : ~ In (qubit0 "anc") (make_u_qubits self)).
  { intros Hin. apply (NoDup_app_disjoint _ _ Hnd _ Hin). now left. }
  set (cnt := counter_commands E_eq_dec self).
  set (orc := oracle_commands (make_u_qubits self) (qubit0 "anc")).
  assert (Hwf : Forall (wf_gate (fun _ => True)) cnt).
  { eapply Forall_impl; [|apply (counter_commands_wf E_eq_dec self)].
    intros g. apply wf_gate_weaken. auto. }
  assert (Hwf' : Forall (wf_gate (fun _ => True)) (rev cnt)) by now apply Forall_rev.
  split.
  - destruct (@run_oracle_twice (make_u_qubits self) (qubit0 "anc") st st Hu Hanc)
      as (s1 & s2 & H1 & H2 & Hid & _); auto.
    exists s1, s2. auto.
  - (* first pass: st -cnt-> a1 -orc-> a2 -rev cnt-> a3 *)
    destruct (run_inverse st Hwf) as (a1 & a0 & Ha1 & Ha0 & Hid0).
    destruct (@run_oracle_twice (make_u_qubits self) (qubit0 "anc") a1 a1 Hu Hanc)
      as (a2 & a2' & Ha2 & Ha2' & Hid2 & _); auto.
    destruct (run_inverse a2 Hwf') as (a3 & a4 & Ha3 & Ha4 & Hid4).
    rewrite rev_involutive in Ha4.
    (* second pass: a3 -cnt-> a4 (= a2) -orc-> a5 (= a1) -rev cnt-> a6 (= st) *)
    destruct (@run_oracle (make_u_qubits self) (qubit0 "anc") a4 Hu Hanc)
      as (a5 & Ha5 & Hanc5 & Hrest5).
    assert (Ha5eq : forall q, a5 q = a1 q).
    { intros q. rewrite <- Hid2.
      destruct (@run_oracle (make_u_qubits self) (qubit0 "anc") a2 Hu Hanc)
        as (c & Hc & Hcanc & Hcrest).
      assert (c = a2') by (unfold orc in *; congruence). subst c.
      destruct (UnitID_eq_dec q (qubit0 "anc")) as [->|Hne].
      - rewrite Hanc5, Hcanc, Hid4. f_equal.
        apply forallb_ext_in. intros x Hx. unfold seen. now rewrite Hid4.
      - rewrite Hrest5, Hcrest by exact Hne. apply Hid4. }
    destruct (@run_ext (rev cnt) a1 a5 a0 Hwf') as (a6 & Ha6 & Heq6); auto.
    subst cnt orc. exists a3, a6. split; [|split].
    + now rewrite run_app, Ha1, run_app, Ha2, Ha3.
    + now rewrite run_app, Ha4, run_app, Ha5, Ha6.
    + intros q. rewrite <- Heq6. apply Hid0.
Qed.

Lemma X15_oracle_and_block_involutive_witness :
  exists o s1 s2,
    _build_circuit Nat.eq_dec (Scenario.solver 1) = inr o
    /\ run (commands (aux_circ o)) Scenario.all_selected = Some s1
    /\ run (commands (aux_circ o)) s1 = Some s2
    /\ s2 (anc o) = Scenario.all_selected (anc o).
Proof.
  assert (Hb : _build_circuit Nat.eq_dec (Scenario.solver 1) = inr _)
    by (vm_compute; reflexivity).
  eexists.
  destruct (X15_oracle_and_block_involutive Nat.eq_dec (Scenario.solver 1)
              Scenario.all_selected Hb) as (_ & s1 & s2 & H1 & H2 & Hid).
  exists s1, s2. split; [exact Hb|]. split; [exact H1|]. split; [exact H2|apply Hid].
Defined.
